(** * Camera animation and pooled workers of mapbox-gl-js

    A shallow embedding of parts of the library:

    - the pooled worker dispatcher (the file with [allocateNativeWorker] and
      [createPooledWorker], and [js/pooled_worker/worker_index.js]), and the
      sessions of a pool: the calls of the main thread and the queue of
      messages of a native worker;
    - the [Evented] mixin with [off], evented parents and the printing of
      unhandled errors;
    - the camera ([src/ui/camera.js]: [jumpTo], [easeTo], [flyTo], [stop],
      [fitBounds], [_normalizeBearing]) and the [LngLat] constructor; the
      methods of the camera written in terms of [jumpTo] and [easeTo]; the
      keyboard and double-click handlers;
    - [LngLat.convert], [toArray] and [LngLatBounds]
      ([src/geo/lng_lat_bounds.js]) over a store of [LngLat] objects;
    - [resample] and [loadGeometry] ([src/data/load_geometry.js]).

    JavaScript numbers are idealised: the camera computes over the real
    numbers [R] (the flight path needs [exp], [ln] and [sqrt]), which have no
    [Infinity] and no [NaN]: where what [flyTo] or [fitBounds] does would
    depend on one of these (a division by zero, the logarithm of zero, the
    square root of a negative number) the call has no result here.  The [LngLat]
    constructor, which tests for [NaN], takes a number that is [NaN], an
    infinity or a finite real. *)

From Stdlib Require Import Reals Lra Lia.
From stdpp Require Import gmap strings list fin_maps.

Set Default Proof Using "Type".

(** ** Results of calls that may throw *)

Inductive exn : Type :=
| TypeError (msg : string)
| Error (msg : string).

Inductive result (A : Type) : Type :=
| Ok (a : A)
| Throw (e : exn).
Arguments Ok {A} a.
Arguments Throw {A} e.

(** * The pooled worker dispatcher *)

Module WorkerPool.

(** The payload of a message.  The control message carries the record built
    in [createPooledWorker]; every other payload is opaque user data. *)
Inductive payload : Type :=
| CreateData (pooledWorkerId : nat) (bodyURL : string) (options : string)
| UserData (d : string)
| NoData.

(** [{pooledWorkerId, type, data}]; the control message has no
    [pooledWorkerId] property. *)
Record message : Type := Message {
  msg_pooledWorkerId : option nat;
  msg_type : string;
  msg_data : payload
}.

(** An object carrying the [Evented] mixin.  Listeners are JavaScript
    functions; they are named here, and a call of a listener is recorded.

    The dispatcher takes [require('../util/evented')] for an object of
    functions ([Evented.on], [Evented.once], [Evented.listens],
    [Evented.fire.call]).  That module is not among the sources, which hold
    the later class [Evented]: the functions of the mixin below are not
    taken from a source file. *)
Record evented : Type := Evented {
  _listeners : gmap string (list string);
  _oneTimeListeners : gmap string (list string)
}.

Definition no_listeners : evented := Evented ∅ ∅.

(** One call of a listener: the handle it was called on, the listener, the
    event type and the data. *)
Record delivery : Type := Delivery {
  d_handle : nat;
  d_listener : string;
  d_type : string;
  d_data : payload
}.

(** Modelled from the spec: the handle has [on/off/once(eventType, fn)],
    standard event subscription.  A listener is added after those the type
    has, as [_addEventListener] of the class [Evented] of the sources
    does. *)
Definition _addEventListener (type : string) (listener : string)
    (listenerList : gmap string (list string)) : gmap string (list string) :=
  <[type := default [] (listenerList !! type) ++ [listener]]> listenerList.

(** Modelled from the spec: [on(eventType, fn)] of the handle, standard
    event subscription; it follows the method [on] of the class [Evented]
    of the sources. *)
Definition on (type listener : string) (h : evented) : evented :=
  Evented (_addEventListener type listener (_listeners h)) (_oneTimeListeners h).

(** Modelled from the spec: [once(eventType, fn)] of the handle, standard
    event subscription; it follows the method [once] of the class [Evented]
    of the sources. *)
Definition once (type listener : string) (h : evented) : evented :=
  Evented (_listeners h) (_addEventListener type listener (_oneTimeListeners h)).

(** Modelled from the spec: [listens(type)] of the mixin, which the spec
    lists in the interface [on/off/once/fire/listens]; it follows the method
    [listens] of the class [Evented] of the sources, without an evented
    parent (the handles have none). *)
Definition listens (h : evented) (type : string) : bool :=
  bool_decide (0 < length (default [] (_listeners h !! type)))
  || bool_decide (0 < length (default [] (_oneTimeListeners h !! type))).

(** Modelled from the spec: [Evented.fire.call(target, type, data)], by
    which an inbound message is re-fired as a local event on the handle.  It
    follows the method [fire] of the class [Evented] of the sources, without
    an evented parent and without the printing of an ['error'] event that
    has no listener: the function reads [this.listens], so a receiver that
    is [undefined] makes it throw a [TypeError]; otherwise every listener of
    the type is called, and the one-time listeners that were called are
    removed. *)
Definition fire (id : nat) (target : option evented) (type : string) (data : payload)
    : result (option evented * list delivery) :=
  match target with
  | None => Throw (TypeError "Cannot read property 'listens' of undefined")
  | Some h =>
      if listens h type then
        let listeners := default [] (_listeners h !! type) in
        let oneTimeListeners := default [] (_oneTimeListeners h !! type) in
        Ok (Some (Evented (_listeners h) (alter (fun _ => []) type (_oneTimeListeners h))),
            map (fun l => Delivery id l type data) (listeners ++ oneTimeListeners))
      else Ok (Some h, [])
  end.

(** *** Main thread *)

(** A pooled worker handle of the main thread: its listeners, and the native
    worker and id captured by its [send]. *)
Record pooledWorker : Type := PooledWorker {
  pw_evented : evented;
  pw_nativeWorker : nat;
  pw_pooledWorkerId : nat
}.

(** The module state: [nativeWorkers] (each native worker is given by the
    messages posted to it, oldest first), [nextNativeWorkerIndex],
    [pooledWorkers], and the calls of listeners so far. *)
Record pool : Type := Pool {
  nativeWorkers : list (list message);
  nextNativeWorkerIndex : nat;
  pooledWorkers : list pooledWorker;
  deliveries : list delivery
}.

Definition empty_pool : pool := Pool [] 0 [] [].

Section Main.

(** [require('../mapbox-gl').workerCount] *)
Variable workerCount : nat.

(** [createNativeWorkers]: [workerCount || 3] workers, none with a message
    yet. *)
Definition createNativeWorkers (p : pool) : pool :=
  let workerCount := if decide (workerCount = 0) then 3 else workerCount in
  Pool (replicate workerCount []) (nextNativeWorkerIndex p) (pooledWorkers p)
       (deliveries p).

(** [allocateNativeWorker]: returns the index of the native worker. *)
Definition allocateNativeWorker (p : pool) : nat * pool :=
  let p := if decide (length (nativeWorkers p) = 0) then createNativeWorkers p else p in
  let nativeWorker := nextNativeWorkerIndex p in
  (nativeWorker,
   Pool (nativeWorkers p)
        ((nextNativeWorkerIndex p + 1) `mod` length (nativeWorkers p))
        (pooledWorkers p) (deliveries p)).

(** [nativeWorker.postMessage(m)] *)
Definition postMessage (nativeWorker : nat) (m : message) (p : pool) : pool :=
  Pool (alter (fun q => q ++ [m]) nativeWorker (nativeWorkers p))
       (nextNativeWorkerIndex p) (pooledWorkers p) (deliveries p).

(** [createPooledWorker(body, options)]; [bodyURL] stands for the object URL
    made from the body. *)
Definition createPooledWorker (bodyURL options : string) (p : pool)
    : pooledWorker * pool :=
  let pooledWorkerId := length (pooledWorkers p) in
  let '(nativeWorker, p) := allocateNativeWorker p in
  let p := postMessage nativeWorker
             (Message None "createPooledWorker"
                (CreateData pooledWorkerId bodyURL options)) p in
  let pooledWorker := PooledWorker no_listeners nativeWorker pooledWorkerId in
  (pooledWorker,
   Pool (nativeWorkers p) (nextNativeWorkerIndex p)
        (pooledWorkers p ++ [pooledWorker]) (deliveries p)).

(** [pooledWorker.send(type, data)] *)
Definition send (w : pooledWorker) (type : string) (data : payload) (p : pool) : pool :=
  postMessage (pw_nativeWorker w)
    (Message (Some (pw_pooledWorkerId w)) type data) p.

(** The listener of the ['message'] event of a native worker.  It returns
    the state it leaves and the exception it throws, if any. *)
Definition onNativeMessage (m : message) (p : pool) : pool * option exn :=
  let id := default 0 (msg_pooledWorkerId m) in
  let target := m' ← msg_pooledWorkerId m; pooledWorkers p !! m' in
  match fire id (pw_evented <$> target) (msg_type m) (msg_data m) with
  | Throw e => (p, Some e)
  | Ok (h, ds) =>
      (Pool (nativeWorkers p) (nextNativeWorkerIndex p)
            (match h, target with
             | Some h, Some w =>
                 <[id := PooledWorker h (pw_nativeWorker w) (pw_pooledWorkerId w)]>
                   (pooledWorkers p)
             | _, _ => pooledWorkers p
             end)
            (deliveries p ++ ds), None)
  end.

(** [k] calls of [createPooledWorker], with the handles returned. *)
Fixpoint allocate_many (k : nat) (p : pool) : list pooledWorker * pool :=
  match k with
  | 0 => ([], p)
  | S k =>
      let '(w, p) := createPooledWorker "body" "options" p in
      let '(ws, p) := allocate_many k p in
      (w :: ws, p)
  end.

End Main.

(** *** Inside a native worker ([worker_index.js]) *)

(** The state of one native worker: its registry [pooledWorkers] (an object
    keyed by id), the messages it posted to the main thread, and the calls
    of listeners so far. *)
Record worker : Type := Worker {
  w_pooledWorkers : gmap nat evented;
  w_posted : list message;
  w_deliveries : list delivery
}.

Definition empty_worker : worker := Worker ∅ [] [].

Section Inside.

(** The job body found at a URL: called on the new handle with the options,
    it subscribes listeners. *)
Variable runBody : string -> string -> evented -> evented.

(** [createPooledWorker(data)] of the worker side.  A payload without a
    [bodyURL] cannot be imported. *)
Definition createPooledWorker_inside (data : payload) (w : worker)
    : worker * option exn :=
  match data with
  | CreateData pooledWorkerId bodyURL options =>
      (Worker (<[pooledWorkerId := runBody bodyURL options no_listeners]>
                 (w_pooledWorkers w))
              (w_posted w) (w_deliveries w), None)
  | UserData _ => (w, Some (Error "importScripts failed"))
  | NoData => (w, Some (TypeError "Cannot read property 'pooledWorkerId' of undefined"))
  end.

(** The listener of the ['message'] event of [self]. *)
Definition onWorkerMessage (m : message) (w : worker) : worker * option exn :=
  match msg_pooledWorkerId m with
  | None =>
      if decide (msg_type m = "createPooledWorker")
      then createPooledWorker_inside (msg_data m) w
      else (w, None)
  | Some id =>
      match fire id (w_pooledWorkers w !! id) (msg_type m) (msg_data m) with
      | Throw e => (w, Some e)
      | Ok (h, ds) =>
          (Worker (match h with
                   | Some h => <[id := h]> (w_pooledWorkers w)
                   | None => w_pooledWorkers w
                   end)
                  (w_posted w) (w_deliveries w ++ ds), None)
      end
  end.

End Inside.

(** A message is a silent no-op when the router returns normally and
    leaves the state as it was. *)
Definition silent_noop_main (m : message) (p : pool) : Prop :=
  onNativeMessage m p = (p, None).

Definition silent_noop_inside runBody (m : message) (w : worker) : Prop :=
  onWorkerMessage runBody m w = (w, None).

(** The id of a message is unknown to the main thread. *)
Definition unknown_main (m : message) (p : pool) : Prop :=
  (m' ← msg_pooledWorkerId m; pooledWorkers p !! m') = None.

(** The size of the pool: [workerCount || 3]. *)
Definition poolSize (workerCount : nat) : nat :=
  if decide (workerCount = 0) then 3 else workerCount.

(** The pool exists: [poolSize] native workers and a cursor among them. *)
Definition ready (workerCount : nat) (p : pool) : Prop :=
  length (nativeWorkers p) = poolSize workerCount
  /\ nextNativeWorkerIndex p < poolSize workerCount.

End WorkerPool.

(** * Geographic coordinates *)

Module Geo.

Local Open Scope R_scope.

(** A JavaScript number: [NaN], an infinity or a finite number. *)
Inductive number : Type :=
| NaN
| Infinity (negative : bool)
| Finite (r : R).

Definition isNaN (n : number) : bool :=
  match n with
  | NaN => true
  | _ => false
  end.

(** [a < b] of JavaScript: false as soon as one side is [NaN]. *)
Definition lt (a b : number) : bool :=
  match a, b with
  | NaN, _ | _, NaN => false
  | Infinity true, Infinity true => false
  | Infinity true, _ => true
  | _, Infinity true => false
  | Infinity false, _ => false
  | Finite _, Infinity false => true
  | Finite x, Finite y => if Rlt_dec x y then true else false
  end.

(** [a > b] *)
Definition gt (a b : number) : bool := lt b a.

Record LngLat : Type := mkLngLat { lng : number; lat : number }.

(** [new LngLat(lng, lat)] *)
Definition LngLat_new (lng lat : number) : result LngLat :=
  if isNaN lng || isNaN lat then Throw (Error "Invalid LngLat object")
  else
    let this := mkLngLat lng lat in
    if gt (Geo.lat this) (Finite 90) || lt (Geo.lat this) (Finite (-90))
    then Throw (Error "Invalid LngLat latitude value: must be between -90 and 90")
    else Ok this.

(** The order of the extended real line; nothing is below or above [NaN]. *)
Inductive below : number -> number -> Prop :=
| below_finite x y : x < y -> below (Finite x) (Finite y)
| below_neg_finite y : below (Infinity true) (Finite y)
| below_finite_pos x : below (Finite x) (Infinity false)
| below_neg_pos : below (Infinity true) (Infinity false).

(** The inputs the constructor refuses. *)
Definition invalid (lng lat : number) : Prop :=
  lng = NaN \/ lat = NaN \/ below (Finite 90) lat \/ below lat (Finite (-90)).

End Geo.

(** * The camera *)

Module Camera.

Local Open Scope R_scope.

(** Comparisons of real numbers are decided by the excluded middle of the
    real numbers. *)
#[global] Instance R_eq_dec : EqDecision R := Req_dec_T.
#[global] Instance R_lt_dec : RelDecision Rlt := Rlt_dec.

(** ** Utilities *)

(** [util.clamp(n, min, max)] *)
Definition clamp (n min max : R) : R := Rmin max (Rmax min n).

(** Modelled from the spec: [util.wrap], which is not among the sources.
    It wraps [n] into [[min, max)] by whole multiples of [max - min]. *)
Definition wrap (n min max : R) : R :=
  let d := max - min in
  n - d * IZR (Int_part ((n - min) / d)).

(** Modelled from the spec: [interpolate] of numbers, the linear
    interpolation of the style specification. *)
Definition interpolate (a b t : R) : R := a * (1 - t) + b * t.

(** ** Geometry *)

Record LngLat : Type := mkLngLat { lng : R; lat : R }.

Record Point : Type := mkPoint { x : R; y : R }.

Module Pt.
Definition add (p q : Point) : Point := mkPoint (x p + x q) (y p + y q).
Definition sub (p q : Point) : Point := mkPoint (x p - x q) (y p - y q).
Definition mult (p : Point) (k : R) : Point := mkPoint (x p * k) (y p * k).
Definition div (p : Point) (k : R) : Point := mkPoint (x p / k) (y p / k).
Definition mag (p : Point) : R := sqrt (x p * x p + y p * y p).
End Pt.

(** [LngLat.prototype.wrap] *)
Definition LngLat_wrap (l : LngLat) : LngLat := mkLngLat (wrap (lng l) (-180) 180) (lat l).

Record LngLatBounds : Type := mkBounds { _sw : LngLat; _ne : LngLat }.

Definition getNorthWest (b : LngLatBounds) : LngLat := mkLngLat (lng (_sw b)) (lat (_ne b)).
Definition getSouthEast (b : LngLatBounds) : LngLat := mkLngLat (lng (_ne b)) (lat (_sw b)).

(** ** The transform *)

Record Transform : Type := mkTransform {
  center : LngLat;
  zoom : R;
  bearing : R;
  pitch : R;
  width : R;
  height : R;
  renderWorldCopies : bool;
  lngRange : option (R * R);
  minZoom : R;
  maxZoom : R
}.

(** Modelled from the spec: the setters of the transform, which is not among
    the sources.  The zoom stays within [[minZoom, maxZoom]], the pitch within
    [[0, 60]], the bearing is unbounded. *)
Definition set_zoom (tr : Transform) (z : R) : Transform :=
  mkTransform (center tr) (clamp z (minZoom tr) (maxZoom tr)) (bearing tr) (pitch tr)
    (width tr) (height tr) (renderWorldCopies tr) (lngRange tr) (minZoom tr) (maxZoom tr).

Definition set_bearing (tr : Transform) (b : R) : Transform :=
  mkTransform (center tr) (zoom tr) b (pitch tr)
    (width tr) (height tr) (renderWorldCopies tr) (lngRange tr) (minZoom tr) (maxZoom tr).

Definition set_pitch (tr : Transform) (p : R) : Transform :=
  mkTransform (center tr) (zoom tr) (bearing tr) (clamp p 0 60)
    (width tr) (height tr) (renderWorldCopies tr) (lngRange tr) (minZoom tr) (maxZoom tr).

Definition set_center (tr : Transform) (c : LngLat) : Transform :=
  mkTransform c (zoom tr) (bearing tr) (pitch tr)
    (width tr) (height tr) (renderWorldCopies tr) (lngRange tr) (minZoom tr) (maxZoom tr).

(** Modelled from the spec: [zoomScale] is [2^zoomDelta] and [scaleZoom] is
    [log2 scale]; [scale] is the scale of the current zoom. *)
Definition zoomScale (z : R) : R := Rpower 2 z.
Definition scaleZoom (s : R) : R := ln s / ln 2.
Definition scale (tr : Transform) : R := zoomScale (zoom tr).

(** What the camera takes from modules that are not among the sources: the
    projection of the transform, [util.ease] and [util.bezier]. *)
Class Env : Type := {
  project : Transform -> LngLat -> Point;
  unproject : Transform -> Point -> LngLat;
  pointLocation : Transform -> Point -> LngLat;
  locationPoint : Transform -> LngLat -> Point;
  setLocationAtPoint : Transform -> LngLat -> Point -> Transform;
  centerPoint : Transform -> Point;
  ease : R -> R;
  bezier : R -> R -> R -> R -> R -> R
}.

(** ** Events, options and sessions *)

(** The [eventData] object of a call is named. *)
Definition EventData : Type := string.

(** [fire(type, eventData)] *)
Record Event : Type := mkEvent { ev_type : string; ev_data : EventData }.

(** [options.padding]: a number, an object with numeric properties, [null]
    or [undefined]. *)
Inductive Padding : Type :=
| PadNumber (p : R)
| PadObject (props : list (string * R))
| PadNull
| PadUndefined.

(** The options object; [None] is a property that is absent. *)
Record Options : Type := mkOptions {
  o_center : option LngLat;
  o_zoom : option R;
  o_bearing : option R;
  o_pitch : option R;
  o_around : option LngLat;
  o_offset : option Point;
  o_duration : option R;
  o_easing : option (R -> R);
  o_animate : option bool;
  o_smoothEasing : bool;
  o_noMoveStart : bool;
  o_delayEndEvents : option R;
  o_speed : option R;
  o_curve : option R;
  o_screenSpeed : option R;
  o_minZoom : option R;
  o_padding : option Padding;
  o_maxZoom : option R;
  o_linear : bool
}.

Definition no_options : Options :=
  mkOptions None None None None None None None None None false false None
            None None None None None None false.

(** The variables captured by the frame function of [easeTo]. *)
Record EaseClosure : Type := mkEaseClosure {
  e_startZoom : R; e_zoom : R;
  e_startBearing : R; e_bearing : R;
  e_startPitch : R; e_pitch : R;
  e_from : Point; e_delta : Point; e_finalScale : R;
  e_around : option (LngLat * Point);
  e_pointAtOffset : Point;
  e_eventData : EventData
}.

(** The variables captured by the frame function of [flyTo]. *)
Record FlyClosure : Type := mkFlyClosure {
  f_startZoom : R;
  f_startBearing : R; f_bearing : R;
  f_startPitch : R; f_pitch : R;
  f_from : Point; f_delta : Point;
  f_S : R; f_w : R -> R; f_u : R -> R;
  f_pointAtOffset : Point;
  f_eventData : EventData
}.

Inductive Frame : Type :=
| EaseFrame (c : EaseClosure)
| FlyFrame (c : FlyClosure).

(** The finish functions of [easeTo] and of [flyTo]. *)
Inductive Finish : Type :=
| EaseFinish (delayEndEvents : option R) (eventData : EventData)
| FlyFinish (eventData : EventData).

Record PrevEase : Type := mkPrevEase {
  pe_start : R; pe_duration : R; pe_easing : R -> R
}.

(** The camera object.  [_abortFn] names the animation it aborts,
    [_onEaseEnd] the timeout it stands for. *)
Record Camera : Type := mkCamera {
  transform : Transform;
  moving : bool;
  zooming : bool;
  rotating : bool;
  pitching : bool;
  _abortFn : option nat;
  _finishFn : option Finish;
  _onEaseEnd : option nat;
  _prevEase : option PrevEase
}.

(** An animation started by [browser.timed] that waits for its next frame. *)
Record TimedAnim : Type := mkTimedAnim {
  ta_id : nat;
  ta_frame : Frame;
  ta_easing : R -> R;
  ta_duration : R;
  ta_abort : bool
}.

(** The camera in its surroundings: the events fired so far (oldest
    first), the animations and timeouts pending in the browser, the clock
    of [Date.now], the messages [util.warnOnce] has seen and the console. *)
Record World : Type := mkWorld {
  camera : Camera;
  fired : list Event;
  animations : list TimedAnim;
  timeouts : list (nat * EventData);
  nextId : nat;
  now : R;
  warnOnceHistory : list string;
  console : list string
}.

(** ** The error monad of calls that may throw *)

#[global] Instance result_ret : MRet result := fun _ a => Ok a.
#[global] Instance result_bind : MBind result := fun _ _ f r =>
  match r with
  | Ok a => f a
  | Throw e => Throw e
  end.

(** ** Updates of the records *)

Definition set_transform (tr : Transform) (c : Camera) : Camera :=
  mkCamera tr (moving c) (zooming c) (rotating c) (pitching c)
           (_abortFn c) (_finishFn c) (_onEaseEnd c) (_prevEase c).

Definition set_moving (b : bool) (c : Camera) : Camera :=
  mkCamera (transform c) b (zooming c) (rotating c) (pitching c)
           (_abortFn c) (_finishFn c) (_onEaseEnd c) (_prevEase c).

(** [this.zooming = z; this.rotating = r; this.pitching = p] *)
Definition set_animating (z r p : bool) (c : Camera) : Camera :=
  mkCamera (transform c) (moving c) z r p
           (_abortFn c) (_finishFn c) (_onEaseEnd c) (_prevEase c).

Definition set_abortFn (a : option nat) (c : Camera) : Camera :=
  mkCamera (transform c) (moving c) (zooming c) (rotating c) (pitching c)
           a (_finishFn c) (_onEaseEnd c) (_prevEase c).

Definition set_finishFn (f : option Finish) (c : Camera) : Camera :=
  mkCamera (transform c) (moving c) (zooming c) (rotating c) (pitching c)
           (_abortFn c) f (_onEaseEnd c) (_prevEase c).

Definition set_onEaseEnd (t : option nat) (c : Camera) : Camera :=
  mkCamera (transform c) (moving c) (zooming c) (rotating c) (pitching c)
           (_abortFn c) (_finishFn c) t (_prevEase c).

Definition set_prevEase (e : option PrevEase) (c : Camera) : Camera :=
  mkCamera (transform c) (moving c) (zooming c) (rotating c) (pitching c)
           (_abortFn c) (_finishFn c) (_onEaseEnd c) e.

Definition upd_camera (f : Camera -> Camera) (w : World) : World :=
  mkWorld (f (camera w)) (fired w) (animations w) (timeouts w) (nextId w) (now w)
          (warnOnceHistory w) (console w).

Definition upd_transform (f : Transform -> Transform) (w : World) : World :=
  upd_camera (fun c => set_transform (f (transform c)) c) w.

Definition set_animations (l : list TimedAnim) (w : World) : World :=
  mkWorld (camera w) (fired w) l (timeouts w) (nextId w) (now w)
          (warnOnceHistory w) (console w).

Definition set_timeouts (l : list (nat * EventData)) (w : World) : World :=
  mkWorld (camera w) (fired w) (animations w) l (nextId w) (now w)
          (warnOnceHistory w) (console w).

(** A fresh name for an animation or a timeout. *)
Definition fresh (w : World) : nat * World :=
  (nextId w,
   mkWorld (camera w) (fired w) (animations w) (timeouts w) (S (nextId w)) (now w)
           (warnOnceHistory w) (console w)).

(** ** The browser and [util] *)

(** [this.fire(type, eventData)]: the event is recorded. *)
Definition fire (type : string) (eventData : EventData) (w : World) : World :=
  mkWorld (camera w) (fired w ++ [mkEvent type eventData]) (animations w) (timeouts w)
          (nextId w) (now w) (warnOnceHistory w) (console w).

(** Modelled from the spec: [util.warnOnce], which is not among the sources.
    A warning is emitted once per distinct message. *)
Definition warnOnce (message : string) (w : World) : World :=
  if decide (message ∈ warnOnceHistory w) then w
  else mkWorld (camera w) (fired w) (animations w) (timeouts w) (nextId w) (now w)
               (warnOnceHistory w ++ [message]) (console w ++ [message]).

(** [setTimeout(() => this._easeToEnd(eventData), delay)] *)
Definition setTimeout (eventData : EventData) (w : World) : nat * World :=
  let '(id, w) := fresh w in
  (id, set_timeouts (timeouts w ++ [(id, eventData)]) w).

(** [clearTimeout(id)] *)
Definition clearTimeout (id : option nat) (w : World) : World :=
  match id with
  | Some id => set_timeouts (filter (fun t => t.1 <> id) (timeouts w)) w
  | None => w
  end.

(** The abort function returned by [browser.timed]. *)
Definition abort (id : nat) (w : World) : World :=
  set_animations
    (map (fun a => if decide (ta_id a = id)
                   then mkTimedAnim (ta_id a) (ta_frame a) (ta_easing a) (ta_duration a) true
                   else a) (animations w)) w.

(** Whether a JavaScript number is truthy. *)
Definition truthy (d : option R) : bool :=
  match d with
  | Some d => if Req_dec_T d 0 then false else true
  | None => false
  end.

(** ** The flight path of [flyTo]

    The formulas of the path, as expressions over the real numbers;
    [flight_path] below hands them out only where none of their divisors is
    zero. *)

Definition sinh (n : R) : R := (exp n - exp (- n)) / 2.
Definition cosh (n : R) : R := (exp n + exp (- n)) / 2.
Definition tanh (n : R) : R := sinh n / cosh n.

Section FlightPath.

Variables w0 w1 u1 rho : R.

Definition rho2 : R := rho * rho.

(** [r(i)]; [i] is [false] for the ascent and [true] for the descent. *)
Definition fly_r (i : bool) : R :=
  let b := (w1 * w1 - w0 * w0 + (if i then -1 else 1) * rho2 * rho2 * u1 * u1)
           / (2 * (if i then w1 else w0) * rho2 * u1) in
  ln (sqrt (b * b + 1) - b).

Definition r0 : R := fly_r false.

(** [w(s)], [u(s)] and [S] of the general path. *)
Definition fly_w (s : R) : R := cosh r0 / cosh (r0 + rho * s).
Definition fly_u (s : R) : R :=
  w0 * ((cosh r0 * tanh (r0 + rho * s) - sinh r0) / rho2) / u1.
Definition fly_S : R := (fly_r true - r0) / rho.

(** [w(s)], [u(s)] and [S] when the path has no length. *)
Definition zoom_k : R := if Rlt_dec w1 w0 then -1 else 1.
Definition zoom_w (s : R) : R := exp (zoom_k * rho * s).
Definition zoom_u (s : R) : R := 0.
Definition zoom_S : R := Rabs (ln (w1 / w0)) / rho.

End FlightPath.

(** [f] does not oscillate between [a] and [b]: it never decreases there, or
    it never increases there. *)
Definition monotonic_on (f : R -> R) (a b : R) : Prop :=
  (forall s1 s2, a <= s1 -> s1 <= s2 -> s2 <= b -> f s1 <= f s2)
  \/ (forall s1 s2, a <= s1 -> s1 <= s2 -> s2 <= b -> f s2 <= f s1).

(** ** The methods of the camera *)

Section Methods.

Context {E : Env}.

Definition getZoom (w : World) : R := zoom (transform (camera w)).
Definition getBearing (w : World) : R := bearing (transform (camera w)).
Definition getPitch (w : World) : R := pitch (transform (camera w)).

Definition isEasing (w : World) : bool := bool_decide (is_Some (_abortFn (camera w))).

Definition _prepareEase (eventData : EventData) (noMoveStart : bool) (w : World) : World :=
  let w := upd_camera (set_moving true) w in
  let w := if noMoveStart then w else fire "movestart" eventData w in
  let w := if zooming (camera w) then fire "zoomstart" eventData w else w in
  let w := if pitching (camera w) then fire "pitchstart" eventData w else w in
  w.

Definition _fireMoveEvents (eventData : EventData) (w : World) : World :=
  let w := fire "move" eventData w in
  let w := if zooming (camera w) then fire "zoom" eventData w else w in
  let w := if rotating (camera w) then fire "rotate" eventData w else w in
  let w := if pitching (camera w) then fire "pitch" eventData w else w in
  w.

Definition _easeToEnd (eventData : EventData) (w : World) : World :=
  let wasZooming := zooming (camera w) in
  let wasPitching := pitching (camera w) in
  let w := upd_camera (set_moving false) w in
  let w := upd_camera (set_animating false false false) w in
  let w := if wasZooming then fire "zoomend" eventData w else w in
  let w := if wasPitching then fire "pitchend" eventData w else w in
  fire "moveend" eventData w.

(** The call of a finish function. *)
Definition run_finish (finish : Finish) (w : World) : World :=
  match finish with
  | EaseFinish delayEndEvents eventData =>
      if truthy delayEndEvents then
        let '(id, w) := setTimeout eventData w in
        upd_camera (set_onEaseEnd (Some id)) w
      else _easeToEnd eventData w
  | FlyFinish eventData => _easeToEnd eventData w
  end.

Definition _finishEase (w : World) : result World :=
  let w := upd_camera (set_abortFn None) w in
  let finish := _finishFn (camera w) in
  let w := upd_camera (set_finishFn None) w in
  match finish with
  | Some finish => Ok (run_finish finish w)
  | None => Throw (TypeError "Cannot read property 'call' of undefined")
  end.

Definition stop (w : World) : result World :=
  match _abortFn (camera w) with
  | Some id => _finishEase (abort id w)
  | None => Ok w
  end.

(** The call of a frame function with the eased time [k]. *)
Definition run_frame (frame : Frame) (k : R) (w : World) : World :=
  match frame with
  | EaseFrame c =>
      let w := if zooming (camera w)
               then upd_transform (fun tr => set_zoom tr (interpolate (e_startZoom c) (e_zoom c) k)) w
               else w in
      let w := if rotating (camera w)
               then upd_transform (fun tr => set_bearing tr (interpolate (e_startBearing c) (e_bearing c) k)) w
               else w in
      let w := if pitching (camera w)
               then upd_transform (fun tr => set_pitch tr (interpolate (e_startPitch c) (e_pitch c) k)) w
               else w in
      let w :=
        match e_around c with
        | Some (around, aroundPoint) =>
            upd_transform (fun tr => setLocationAtPoint tr around aroundPoint) w
        | None =>
            upd_transform (fun tr =>
              let scale := zoomScale (zoom tr - e_startZoom c) in
              let base := if Rlt_dec (e_startZoom c) (e_zoom c)
                          then Rmin 2 (e_finalScale c)
                          else Rmax 0.5 (e_finalScale c) in
              let speedup := Rpower base (1 - k) in
              let newCenter :=
                unproject tr (Pt.mult (Pt.add (e_from c) (Pt.mult (e_delta c) (k * speedup))) scale) in
              setLocationAtPoint tr
                (if renderWorldCopies tr then LngLat_wrap newCenter else newCenter)
                (e_pointAtOffset c)) w
        end in
      _fireMoveEvents (e_eventData c) w
  | FlyFrame c =>
      let s := k * f_S c in
      let scale := 1 / f_w c s in
      let w := upd_transform (fun tr => set_zoom tr (f_startZoom c + scaleZoom scale)) w in
      let w := if rotating (camera w)
               then upd_transform (fun tr => set_bearing tr (interpolate (f_startBearing c) (f_bearing c) k)) w
               else w in
      let w := if pitching (camera w)
               then upd_transform (fun tr => set_pitch tr (interpolate (f_startPitch c) (f_pitch c) k)) w
               else w in
      let w :=
        upd_transform (fun tr =>
          let newCenter :=
            unproject tr (Pt.mult (Pt.add (f_from c) (Pt.mult (f_delta c) (f_u c s))) scale) in
          setLocationAtPoint tr
            (if renderWorldCopies tr then LngLat_wrap newCenter else newCenter)
            (f_pointAtOffset c)) w in
      _fireMoveEvents (f_eventData c) w
  end.

(** Modelled from the spec: [browser.timed], which is not among the
    sources, registers the callback for the animation frames to come and
    returns the function that aborts them.  Without a duration (its argument
    [options.animate === false ? 0 : options.duration] is falsy) it is taken
    to call the callback once, with [t = 1], and to return [null].  [_ease]
    passes it the callback that runs the frame at [options.easing(t)] and at
    [t === 1] finishes the ease. *)
Definition _ease (frame : Frame) (finish : Finish) (animate : option bool)
    (duration : R) (easing : R -> R) (w : World) : result World :=
  let w := upd_camera (set_finishFn (Some finish)) w in
  let dur := if decide (animate = Some false) then 0 else duration in
  if Req_dec_T dur 0 then
    let w := run_frame frame (easing 1) w in
    w ← _finishEase w;
    Ok (upd_camera (set_abortFn None) w)
  else
    let '(id, w) := fresh w in
    let w := set_animations (animations w ++ [mkTimedAnim id frame easing dur false]) w in
    Ok (upd_camera (set_abortFn (Some id)) w).

(** An animation frame of the browser: the tick of the animation [id] at
    the fraction [t] of its duration, [1] once the duration has passed.  An
    aborted animation is dropped; the last frame is not followed by another. *)
Definition tick (id : nat) (t : R) (w : World) : result World :=
  match list_find (fun a => ta_id a = id) (animations w) with
  | None => Ok w
  | Some (_, a) =>
      let others := filter (fun a => ta_id a <> id) (animations w) in
      if ta_abort a then Ok (set_animations others w)
      else
        let w := run_frame (ta_frame a) (ta_easing a t) w in
        if Req_dec_T t 1 then _finishEase (set_animations others w)
        else Ok w
  end.

(** A timeout set by the finish function of [easeTo] runs. *)
Definition timeout_fires (id : nat) (w : World) : World :=
  match list_find (fun t => t.1 = id) (timeouts w) with
  | None => w
  | Some (_, (_, eventData)) =>
      _easeToEnd eventData (set_timeouts (filter (fun t => t.1 <> id) (timeouts w)) w)
  end.

Definition _normalizeBearing (bearing currentBearing : R) : R :=
  let bearing := wrap bearing (-180) 180 in
  let diff := Rabs (bearing - currentBearing) in
  let bearing := if Rlt_dec (Rabs (bearing - 360 - currentBearing)) diff
                 then bearing - 360 else bearing in
  let bearing := if Rlt_dec (Rabs (bearing + 360 - currentBearing)) diff
                 then bearing + 360 else bearing in
  bearing.

Definition _normalizeCenter (tr : Transform) (center : LngLat) : LngLat :=
  if negb (renderWorldCopies tr) || bool_decide (is_Some (lngRange tr)) then center
  else
    let delta := lng center - lng (Camera.center tr) in
    mkLngLat (lng center +
              (if Rlt_dec 180 delta then -360
               else if Rlt_dec delta (-180) then 360 else 0))
             (lat center).

Definition _smoothOutEasing (duration : R) (w : World) : (R -> R) * World :=
  let easing :=
    match _prevEase (camera w) with
    | Some ease =>
        let t := (now w - pe_start ease) / pe_duration ease in
        let speed := pe_easing ease (t + 0.01) - pe_easing ease t in
        let x := 0.27 / sqrt (speed * speed + 0.0001) * 0.01 in
        let y := sqrt (0.27 * 0.27 - x * x) in
        bezier x y 0.25 1
    | None => Camera.ease
    end in
  (easing, upd_camera (set_prevEase (Some (mkPrevEase (now w) duration easing))) w).

Definition easeTo (options : Options) (eventData : EventData) (w : World)
    : result World :=
  w ← stop w;
  let offset := default (mkPoint 0 0) (o_offset options) in
  let duration := default 500 (o_duration options) in
  let easing := default Camera.ease (o_easing options) in
  let duration := if decide (o_animate options = Some false) then 0 else duration in
  let '(easing, w) :=
    if o_smoothEasing options && (if Req_dec_T duration 0 then false else true)
    then _smoothOutEasing duration w
    else (easing, w) in
  let tr := transform (camera w) in
  let startZoom := getZoom w in
  let startBearing := getBearing w in
  let startPitch := getPitch w in
  let zoom := default startZoom (o_zoom options) in
  let bearing := match o_bearing options with
                 | Some b => _normalizeBearing b startBearing
                 | None => startBearing
                 end in
  let pitch := default startPitch (o_pitch options) in
  let pointAtOffset := Pt.add (centerPoint tr) offset in
  let locationAtOffset := pointLocation tr pointAtOffset in
  let center := _normalizeCenter tr (default locationAtOffset (o_center options)) in
  (* without [options.center], [center] and [locationAtOffset] are one
     object, which [_normalizeCenter] has changed *)
  let locationAtOffset := if o_center options is Some _ then locationAtOffset else center in
  let from := project tr locationAtOffset in
  let delta := Pt.sub (project tr center) from in
  let finalScale := zoomScale (zoom - startZoom) in
  let around := match o_around options with
                | Some around => Some (around, locationPoint tr around)
                | None => None
                end in
  let w := upd_camera (set_animating
                         (if Req_dec_T zoom startZoom then false else true)
                         (if Req_dec_T startBearing bearing then false else true)
                         (if Req_dec_T pitch startPitch then false else true)) w in
  let w := _prepareEase eventData (o_noMoveStart options) w in
  let w := clearTimeout (_onEaseEnd (camera w)) w in
  _ease (EaseFrame (mkEaseClosure startZoom zoom startBearing bearing startPitch pitch
                      from delta finalScale around pointAtOffset eventData))
        (EaseFinish (o_delayEndEvents options) eventData)
        (o_animate options) duration easing w.

(** [util.extend({offset: [0, 0], speed: 1.2, curve: 1.42, easing: util.ease},
    options)] *)
Definition flyTo_options (options : Options) : Options :=
  mkOptions (o_center options) (o_zoom options) (o_bearing options) (o_pitch options)
    (o_around options)
    (Some (default (mkPoint 0 0) (o_offset options)))
    (o_duration options)
    (Some (default Camera.ease (o_easing options)))
    (o_animate options) (o_smoothEasing options) (o_noMoveStart options)
    (o_delayEndEvents options)
    (Some (default 1.2 (o_speed options)))
    (Some (default 1.42 (o_curve options)))
    (o_screenSpeed options) (o_minZoom options) (o_padding options)
    (o_maxZoom options) (o_linear options).

(** What [flyTo] does once the spans are known: it returns the call of
    [easeTo], or it flies along [w] and [u] for the length [S], with the curve
    [rho]. *)
Inductive Flight : Type :=
| Fallback
| Along (w u : R -> R) (S rho : R).

(** The path chosen by [flyTo]; [rho] is [None] when it is no real number.
    The path has no result when one of its numbers is no real number: the
    zoom-only path divides by [w0] and by [rho] and takes the logarithm of
    [w1 / w0]; the general path, taken when [u1] is not zero, divides by [w0],
    [w1] and [rho] too.  The fall-back to [easeTo] uses none of them (what
    the code has computed for the general path by then, it drops). *)
Definition flight_path (w0 w1 u1 : R) (rho : option R) : option Flight :=
  if Rlt_dec (Rabs u1) 0.000001 then
    if Rlt_dec (Rabs (w0 - w1)) 0.000001 then Some Fallback
    else
      match rho with
      | Some rho =>
          if Req_dec_T w0 0 then None
          else if Rle_dec (w1 / w0) 0 then None
          else if Req_dec_T rho 0 then None
          else Some (Along (zoom_w w0 w1 rho) zoom_u (zoom_S w0 w1 rho) rho)
      | None => None
      end
  else
    match rho with
    | Some rho =>
        if Req_dec_T w0 0 then None
        else if Req_dec_T w1 0 then None
        else if Req_dec_T rho 0 then None
        else Some (Along (fly_w w0 w1 u1 rho) (fly_u w0 w1 u1 rho)
                         (fly_S w0 w1 u1 rho) rho)
    | None => None
    end.

(** The values [flyTo] computes before it chooses the path: [w0], [w1],
    [u1] and [rho].  With [minZoom], [rho] is the square root of a quotient
    by [u1]: no real number when [u1] is zero or the quotient negative. *)
Definition flyTo_spans (options : Options) (w : World) : R * R * R * option R :=
  let tr := transform (camera w) in
  let startZoom := getZoom w in
  let zoom := default startZoom (o_zoom options) in
  let scale := zoomScale (zoom - startZoom) in
  let pointAtOffset := Pt.add (centerPoint tr) (default (mkPoint 0 0) (o_offset options)) in
  let locationAtOffset := pointLocation tr pointAtOffset in
  let center := _normalizeCenter tr (default locationAtOffset (o_center options)) in
  let locationAtOffset := if o_center options is Some _ then locationAtOffset else center in
  let from := project tr locationAtOffset in
  let delta := Pt.sub (project tr center) from in
  let rho := default 1.42 (o_curve options) in
  let w0 := Rmax (width tr) (height tr) in
  let w1 := w0 / scale in
  let u1 := Pt.mag delta in
  let rho :=
    match o_minZoom options with
    | Some minZoom =>
        let minZoom := clamp (Rmin (Rmin minZoom startZoom) zoom)
                             (Camera.minZoom tr) (Camera.maxZoom tr) in
        let wMax := w0 / zoomScale (minZoom - startZoom) in
        if Req_dec_T u1 0 then None
        else if Rlt_dec (wMax / u1 * 2) 0 then None
        else Some (sqrt (wMax / u1 * 2))
    | None => Some rho
    end in
  (w0, w1, u1, rho).

(** [options.duration] as [flyTo] leaves it: the one given, or the length
    of the path over the speed [V], which is no real number when [V] is
    zero. *)
Definition fly_duration (S_ rho : R) (options : Options) : option R :=
  match o_duration options with
  | Some duration => Some duration
  | None =>
      match o_screenSpeed options with
      | Some screenSpeed =>
          if Req_dec_T rho 0 then None
          else if Req_dec_T (screenSpeed / rho) 0 then None
          else Some (1000 * S_ / (screenSpeed / rho))
      | None =>
          let V := default 1.2 (o_speed options) in
          if Req_dec_T V 0 then None else Some (1000 * S_ / V)
      end
  end.

(** [flyTo] once the path and the duration are known: the start of the
    ease and its frame and finish functions. *)
Definition fly_along (path : (R -> R) * (R -> R) * R) (duration : R)
    (options : Options) (eventData : EventData) (w : World) : result World :=
  let '(w_, u_, S_) := path in
  let tr := transform (camera w) in
  let startZoom := getZoom w in
  let startBearing := getBearing w in
  let startPitch := getPitch w in
  let zoom := default startZoom (o_zoom options) in
  let bearing := match o_bearing options with
                 | Some b => _normalizeBearing b startBearing
                 | None => startBearing
                 end in
  let pitch := default startPitch (o_pitch options) in
  let pointAtOffset := Pt.add (centerPoint tr) (default (mkPoint 0 0) (o_offset options)) in
  let locationAtOffset := pointLocation tr pointAtOffset in
  let center := _normalizeCenter tr (default locationAtOffset (o_center options)) in
  let locationAtOffset := if o_center options is Some _ then locationAtOffset else center in
  let from := project tr locationAtOffset in
  let delta := Pt.sub (project tr center) from in
  let w := upd_camera (set_animating true
                         (if Req_dec_T startBearing bearing then false else true)
                         (if Req_dec_T pitch startPitch then false else true)) w in
  let w := _prepareEase eventData false w in
  _ease (FlyFrame (mkFlyClosure startZoom startBearing bearing startPitch pitch
                     from delta S_ w_ u_ pointAtOffset eventData))
        (FlyFinish eventData)
        (o_animate options) duration (default Camera.ease (o_easing options)) w.

(** [flyTo(options, eventData)]; [None] when one of its numbers is no
    real number. *)
Definition flyTo (options : Options) (eventData : EventData) (w : World)
    : option (result World) :=
  match stop w with
  | Throw e => Some (Throw e)
  | Ok w =>
      let options := flyTo_options options in
      let '(w0, w1, u1, rho) := flyTo_spans options w in
      match flight_path w0 w1 u1 rho with
      | None => None
      | Some Fallback => Some (easeTo options eventData w)
      | Some (Along w_ u_ S_ rho) =>
          match fly_duration S_ rho options with
          | None => None
          | Some duration =>
              Some (fly_along (w_, u_, S_) duration options eventData w)
          end
      end
  end.

Definition jumpTo (options : Options) (eventData : EventData) (w : World)
    : result World :=
  w ← stop w;
  let changed (current : R) (o : option R) : bool :=
    match o with
    | Some v => if Req_dec_T current v then false else true
    | None => false
    end in
  let zoomChanged := changed (getZoom w) (o_zoom options) in
  let w := if zoomChanged
           then upd_transform (fun tr => set_zoom tr (default 0 (o_zoom options))) w
           else w in
  let w := match o_center options with
           | Some center => upd_transform (fun tr => set_center tr center) w
           | None => w
           end in
  let bearingChanged := changed (getBearing w) (o_bearing options) in
  let w := if bearingChanged
           then upd_transform (fun tr => set_bearing tr (default 0 (o_bearing options))) w
           else w in
  let pitchChanged := changed (getPitch w) (o_pitch options) in
  let w := if pitchChanged
           then upd_transform (fun tr => set_pitch tr (default 0 (o_pitch options))) w
           else w in
  let w := fire "move" eventData (fire "movestart" eventData w) in
  let w := if zoomChanged
           then fire "zoomend" eventData (fire "zoom" eventData (fire "zoomstart" eventData w))
           else w in
  let w := if bearingChanged then fire "rotate" eventData w else w in
  let w := if pitchChanged
           then fire "pitchend" eventData (fire "pitch" eventData (fire "pitchstart" eventData w))
           else w in
  Ok (fire "moveend" eventData w).

(** *** [fitBounds] *)

(** The comparison passed to [sort]. *)
Definition compare_keys (a b : string) : Z :=
  if String.ltb a b then (-1)%Z else if String.ltb b a then 1%Z else 0%Z.

Fixpoint insert_sorted (a : string) (l : list string) : list string :=
  match l with
  | [] => [a]
  | b :: l' => if decide (compare_keys a b ≤ 0)%Z then a :: l else b :: insert_sorted a l'
  end.

(** [keys.sort(compare)] *)
Definition sort_keys (l : list string) : list string := foldr insert_sorted [] l.

(** [options.padding[k]] *)
Fixpoint prop (k : string) (props : list (string * R)) : R :=
  match props with
  | [] => 0
  | (k', v) :: props => if decide (k' = k) then v else prop k props
  end.

(** [a / b < 0].  A quotient by zero is an infinity with the sign of [a],
    or [NaN] when [a] is zero too. *)
Definition quotient_negative (a b : R) : bool :=
  if Req_dec_T b 0 then bool_decide (a < 0) else bool_decide (a / b < 0).

Definition padding_message : string :=
  "options.padding must be a positive number, or an Object with keys 'bottom', 'left', 'right', 'top'".

Definition fit_message : string :=
  "Map cannot fit within canvas with the given bounds, padding, and/or offset.".

(** The object [options.padding] after the defaults and after a number has
    been spread over the four sides; [None] when it is [null] or [undefined],
    which have no keys. *)
Definition padding_props (options : Options) : option (list (string * R)) :=
  match default (PadObject [("top", 0); ("bottom", 0); ("right", 0); ("left", 0)])
                (o_padding options) with
  | PadNumber p => Some [("top", p); ("bottom", p); ("right", p); ("left", p)]
  | PadObject props => Some props
  | PadNull | PadUndefined => None
  end.

(** The two quotients [scaleX] and [scaleY], each as numerator and
    denominator, and the offset with the padding added. *)
Definition fit_scales (bounds : LngLatBounds) (padding : list (string * R))
    (options : Options) (w : World) : (R * R) * (R * R) * Point :=
  let offset := default (mkPoint 0 0) (o_offset options) in
  let paddingOffset := mkPoint (prop "left" padding - prop "right" padding)
                               (prop "top" padding - prop "bottom" padding) in
  let lateralPadding := Rmin (prop "right" padding) (prop "left" padding) in
  let verticalPadding := Rmin (prop "top" padding) (prop "bottom" padding) in
  let offset := Pt.add offset paddingOffset in
  let tr := transform (camera w) in
  let nw := project tr (getNorthWest bounds) in
  let se := project tr (getSouthEast bounds) in
  let size := Pt.sub se nw in
  ((width tr - lateralPadding * 2 - Rabs (x offset) * 2, x size),
   (height tr - verticalPadding * 2 - Rabs (y offset) * 2, y size),
   offset).

Definition keys_message : string := "Cannot convert undefined or null to object".

(** [fitBounds(bounds, options, eventData)].  [Object.keys] throws for a
    padding that is [null] or [undefined].  Past the two warnings the call has
    no result ([None]) when a scale is a quotient by zero, or when the smaller
    scale is zero, of which [scaleZoom] takes the logarithm. *)
Definition fitBounds (bounds : LngLatBounds) (options : Options)
    (eventData : EventData) (w : World) : option (result World) :=
  match padding_props options with
  | None => Some (Throw (TypeError keys_message))
  | Some padding =>
      let maxZoom := default (Camera.maxZoom (transform (camera w))) (o_maxZoom options) in
      if decide (sort_keys (map fst padding) = ["bottom"; "left"; "right"; "top"]) then
        let '((nx, dx), (ny, dy), offset) := fit_scales bounds padding options w in
        let tr := transform (camera w) in
        if quotient_negative ny dy || quotient_negative nx dx then
          Some (Ok (warnOnce fit_message w))
        else if Req_dec_T dx 0 then None
        else if Req_dec_T dy 0 then None
        else if Rle_dec (Rmin (nx / dx) (ny / dy)) 0 then None
        else
          let nw := project tr (getNorthWest bounds) in
          let se := project tr (getSouthEast bounds) in
          let options :=
            mkOptions (Some (unproject tr (Pt.div (Pt.add nw se) 2)))
              (Some (Rmin (scaleZoom (scale tr * Rmin (nx / dx) (ny / dy))) maxZoom))
              (Some 0) (o_pitch options) (o_around options)
              (Some offset) (o_duration options) (o_easing options)
              (o_animate options) (o_smoothEasing options) (o_noMoveStart options)
              (o_delayEndEvents options) (o_speed options) (o_curve options)
              (o_screenSpeed options) (o_minZoom options) (Some (PadObject padding))
              (Some maxZoom) (o_linear options) in
          if o_linear options then Some (easeTo options eventData w)
          else flyTo options eventData w
      else Some (Ok (warnOnce padding_message w))
  end.

(** The frames of the animation [id] at the fractions [ts], in order. *)
Fixpoint run_ticks (id : nat) (ts : list R) (w : World) : result World :=
  match ts with
  | [] => Ok w
  | t :: ts => w ← tick id t w; run_ticks id ts w
  end.

End Methods.

(** ** Sessions and their events *)

(** Events of the given types, all with the same data. *)
Definition events (types : list string) (eventData : EventData) : list Event :=
  map (fun type => mkEvent type eventData) types.

(** The events at the start of an ease, of a frame and at the end of an
    ease, for a camera that is zooming ([z]), rotating ([r]) and pitching
    ([p]). *)
Definition start_list (noMoveStart z p : bool) : list string :=
  (if noMoveStart then [] else ["movestart"])
  ++ (if z then ["zoomstart"] else []) ++ (if p then ["pitchstart"] else []).

Definition frame_list (z r p : bool) : list string :=
  ["move"] ++ (if z then ["zoom"] else []) ++ (if r then ["rotate"] else [])
  ++ (if p then ["pitch"] else []).

Definition end_list (z p : bool) : list string :=
  (if z then ["zoomend"] else []) ++ (if p then ["pitchend"] else []) ++ ["moveend"].

(** The events a finish function fires when it is called. *)
Definition finish_events (finish : Finish) (z p : bool) : list Event :=
  match finish with
  | EaseFinish delayEndEvents eventData =>
      if truthy delayEndEvents then [] else events (end_list z p) eventData
  | FlyFinish eventData => events (end_list z p) eventData
  end.


(** The animations that still run: those not aborted. *)
Definition live (w : World) : list TimedAnim :=
  filter (fun a => ta_abort a = false) (animations w).

(** The states the camera can be in: the names of the animations are
    used; with an abort function there is a finish function and at most one
    animation runs, the one the abort function aborts; without one no
    animation runs. *)
Definition well_formed (w : World) : Prop :=
  Forall (fun a => (ta_id a < nextId w)%nat) (animations w)
  /\
  match _abortFn (camera w) with
  | Some id =>
      is_Some (_finishFn (camera w))
      /\ (length (live w) <= 1)%nat
      /\ Forall (fun a => ta_id a = id) (live w)
  | None => live w = []
  end.

(** The data of the events a frame function fires. *)
Definition frame_data (frame : Frame) : EventData :=
  match frame with
  | EaseFrame c => e_eventData c
  | FlyFrame c => f_eventData c
  end.

(** The world after a frame: a new transform and more events. *)
Definition moved (tr : Transform) (evs : list Event) (w : World) : World :=
  mkWorld (set_transform tr (camera w)) (fired w ++ evs) (animations w) (timeouts w)
          (nextId w) (now w) (warnOnceHistory w) (console w).

(** The animation [id] of the camera runs, with its frame and finish
    functions, while the camera is zooming ([z]), rotating ([r]) and
    pitching ([p]). *)
Definition in_flight (id : nat) (frame : Frame) (finish : Finish) (z r p : bool)
    (w : World) : Prop :=
  _abortFn (camera w) = Some id
  /\ _finishFn (camera w) = Some finish
  /\ zooming (camera w) = z /\ rotating (camera w) = r /\ pitching (camera w) = p
  /\ exists i a, list_find (fun a => ta_id a = id) (animations w) = Some (i, a)
                /\ ta_frame a = frame /\ ta_abort a = false.

(** The finish function fires the end events at once, with the data
    [eventData]: that of [flyTo], and that of [easeTo] without
    [delayEndEvents]. *)
Definition undelayed (finish : Finish) (eventData : EventData) : Prop :=
  finish = FlyFinish eventData
  \/ exists d, finish = EaseFinish d eventData /\ truthy d = false.

(** ** A camera for examples *)

(** A flat projection, a linear easing. *)
Definition sample_env : Env := {|
  project := fun _ l => mkPoint (lng l) (lat l);
  unproject := fun _ p => mkLngLat (x p) (y p);
  pointLocation := fun _ p => mkLngLat (x p) (y p);
  locationPoint := fun _ l => mkPoint (lng l) (lat l);
  setLocationAtPoint := fun tr l _ => set_center tr l;
  centerPoint := fun tr => mkPoint (width tr / 2) (height tr / 2);
  ease := fun t => t;
  bezier := fun _ _ _ _ t => t
|}.

(** A camera at rest at zoom 0, in a viewport of 512 by 512 pixels. *)
Definition world0 : World :=
  mkWorld
    (mkCamera (mkTransform (mkLngLat 0 0) 0 0 0 512 512 true None 0 22)
              false false false false None None None None)
    [] [] [] 0 0 [] [].

(** [{zoom: z}] *)
Definition zoom_to (z : R) : Options :=
  mkOptions None (Some z) None None None None None None None false false None
            None None None None None None false.



(** [{center: [-144, -44], zoom: 1, curve: 1}] *)
Definition fly_zoom_in : Options :=
  mkOptions (Some (mkLngLat (-144) (-44))) (Some 1) None None None None None None None
            false false None None (Some 1) None None None None false.

(** [{padding: {top: 10}}] *)
Definition padding_top : Options :=
  mkOptions None None None None None None None None None false false None
            None None None None (Some (PadObject [("top", 10)])) None false.

(** [{padding: null}] *)
Definition padding_null : Options :=
  mkOptions None None None None None None None None None false false None
            None None None None (Some PadNull) None false.

(** [{zoom: 2, minZoom: 0}] *)
Definition zoom_minZoom : Options :=
  mkOptions None (Some 2) None None None None None None None false false None
            None None None (Some 0) None None false.

(** The world after a call from [world0], should it return. *)
Definition after (call : World -> result World) : World :=
  match call world0 with
  | Ok w => w
  | Throw _ => world0
  end.

(** An ease to zoom 3 has begun. *)
Definition world_easing : World := after (easeTo (E := sample_env) (zoom_to 3) "ease").


(** ** The inputs [fitBounds] refuses *)

(** [options.padding] is an object whose keys are not the four sides. *)
Definition bad_padding (options : Options) : Prop :=
  exists props,
    o_padding options = Some (PadObject props)
    /\ ~ Permutation (map fst props) ["top"; "bottom"; "left"; "right"].

(** The quotient [a / b] of JavaScript is negative. *)
Definition negative_quotient (a b : R) : Prop :=
  (b <> 0 /\ a / b < 0) \/ (b = 0 /\ a < 0).

(** [options.padding] is [null] or [undefined]. *)
Definition no_padding (options : Options) : Prop :=
  o_padding options = Some PadNull \/ o_padding options = Some PadUndefined.

(** The bounds do not fit: the padding is a number or an object, and one of
    the two scales is negative. *)
Definition cannot_fit {E : Env} (bounds : LngLatBounds) (options : Options)
    (w : World) : Prop :=
  exists padding,
    padding_props options = Some padding
    /\ (negative_quotient (fit_scales bounds padding options w).1.1.1
                           (fit_scales bounds padding options w).1.1.2
        \/ negative_quotient (fit_scales bounds padding options w).1.2.1
                              (fit_scales bounds padding options w).1.2.2).

End Camera.

(** * The [Evented] mixin, with [off], parents and unhandled errors *)

Module Evented.
Import WorkerPool.

(** The properties of an event: names to values. *)
Definition props : Type := gmap string string.

(** [util.extend({}, a, b)], which is not among the sources: the copy of the
    properties of [a] and then of [b], those of [b] winning.  An argument
    that is [undefined] gives no property. *)
Definition extend (a b : option props) : props :=
  default ∅ b ∪ default ∅ a.

(** [list.indexOf(listener)] followed by [list.splice(index, 1)] when the
    index is not [-1]. *)
Fixpoint splice_first (listener : string) (ls : list string) : list string :=
  match ls with
  | [] => []
  | l :: ls' => if decide (l = listener) then ls' else l :: splice_first listener ls'
  end.

Definition _removeEventListener (type listener : string)
    (listenerList : gmap string (list string)) : gmap string (list string) :=
  match listenerList !! type with
  | Some ls => <[type := splice_first listener ls]> listenerList
  | None => listenerList
  end.

Definition off (type listener : string) (h : evented) : evented :=
  Evented (_removeEventListener type listener (_listeners h))
          (_removeEventListener type listener (_oneTimeListeners h)).

(** An object that carries the mixin: its name (it stands for the identity
    of the object), its listeners and [_eventedParentData] (a function is
    given by the object it returns). *)
Record object : Type := Object {
  o_name : string;
  o_evented : evented;
  _eventedParentData : option props
}.

(** An object with its parents: the object, its [_eventedParent], the parent
    of that one, and so on. *)
Definition chain : Type := list object.

(** The call of a listener: the receiver, the listener and the event. *)
Record call : Type := Call {
  c_this : string;
  c_listener : string;
  c_data : props
}.

(** What [console.error] is given. *)
Inductive printed : Type :=
| PrintError (e : string)
| PrintData (d : props)
| PrintEmpty.

(** The listeners of an object for a type, permanent and one-time. *)
Definition permanent (type : string) (o : object) : list string :=
  default [] (_listeners (o_evented o) !! type).

Definition oneTime (type : string) (o : object) : list string :=
  default [] (_oneTimeListeners (o_evented o) !! type).

(** [listens(type)] *)
Fixpoint listens (type : string) (c : chain) : bool :=
  match c with
  | [] => false
  | this :: parents =>
      bool_decide (0 < length (permanent type this))
      || bool_decide (0 < length (oneTime type this))
      || listens type parents
  end.

(** [setEventedParent(parent, data)]: the chain of [this] becomes [this]
    followed by the chain of the parent. *)
Definition setEventedParent (parent : chain) (data : option props) (c : chain) : chain :=
  match c with
  | [] => []
  | this :: _ => Object (o_name this) (o_evented this) data :: parent
  end.

(** The object after an event of the type: its one-time listeners of the
    type are gone. *)
Definition spent (type : string) (o : object) : object :=
  Object (o_name o)
    (Evented (_listeners (o_evented o))
       (match _oneTimeListeners (o_evented o) !! type with
        | Some _ => <[type := []]> (_oneTimeListeners (o_evented o))
        | None => _oneTimeListeners (o_evented o)
        end))
    (_eventedParentData o).

Section Fire.

(** [util.endsWith], which is not among the sources. *)
Variable endsWith : string -> string -> bool.

(** [fire(type, data)] on the first object of the chain.  It returns the
    chain it leaves, the calls of listeners and what was printed.  The
    listeners themselves do not subscribe or unsubscribe. *)
Fixpoint fire (type : string) (data : option props) (c : chain)
    : chain * list call * list printed :=
  match c with
  | [] => ([], [], [])
  | this :: parents =>
      if listens type (this :: parents) then
        let data := extend data (Some {["type" := type; "target" := o_name this]}) in
        let listeners := permanent type this in
        let oneTimeListeners := oneTime type this in
        let this' :=
          Object (o_name this)
            (Evented (_listeners (o_evented this))
               (foldl (fun ls l => _removeEventListener type l ls)
                      (_oneTimeListeners (o_evented this)) oneTimeListeners))
            (_eventedParentData this) in
        let '(parents', calls, out) :=
          fire type (Some (extend (Some data) (_eventedParentData this))) parents in
        (this' :: parents',
         map (fun l => Call (o_name this) l data) (listeners ++ oneTimeListeners) ++ calls,
         out)
      else if endsWith type "error" then
        (c, [],
         [match data with
          | Some d =>
              match d !! "error" with
              | Some e => if decide (e = "") then PrintData d else PrintError e
              | None => PrintData d
              end
          | None => PrintEmpty
          end])
      else (c, [], [])
  end.

End Fire.

End Evented.

(** * Sessions of the worker pool

    What a program does with the pool on the main thread: it makes handles
    and sends messages through them.  The queue of a native worker holds the
    messages posted to it, oldest first. *)

Module WorkerSession.
Import WorkerPool.

(** A call on the main thread.  A handle is named by its place in
    [pooledWorkers], the object that [createPooledWorker] returned and the one
    stored there being the same object. *)
Inductive call : Type :=
| CreatePooledWorker (bodyURL options : string)
| Send (handle : nat) (type : string) (data : payload).

(** The control message of [createPooledWorker]. *)
Definition create_message (pooledWorkerId : nat) (bodyURL options : string) : message :=
  Message None "createPooledWorker" (CreateData pooledWorkerId bodyURL options).

(** A queue in which every message of a handle comes after the control
    message that creates the handle. *)
Inductive routed : list message -> Prop :=
| routed_nil : routed []
| routed_create q id bodyURL options :
    routed q -> routed (q ++ [create_message id bodyURL options])
| routed_user q id bodyURL options type data :
    routed q ->
    create_message id bodyURL options ∈ q ->
    routed (q ++ [Message (Some id) type data]).

(** What holds of the pool of the main thread after any calls. *)
Record pool_inv (p : pool) : Prop := PoolInv {
  inv_cursor :
    (nativeWorkers p = [] /\ pooledWorkers p = [] /\ nextNativeWorkerIndex p = 0)
    \/ nextNativeWorkerIndex p < length (nativeWorkers p);
  inv_routed : Forall routed (nativeWorkers p);
  inv_handles : forall i w,
    pooledWorkers p !! i = Some w ->
    pw_pooledWorkerId w = i
    /\ exists q bodyURL options,
         nativeWorkers p !! pw_nativeWorker w = Some q
         /\ create_message i bodyURL options ∈ q
}.

Section Main.

Variable workerCount : nat.

(** The pool in which [createPooledWorker] takes a native worker. *)
Definition started (p : pool) : pool :=
  if decide (length (nativeWorkers p) = 0) then createNativeWorkers workerCount p else p.

(** One call; [send] on a handle that no [createPooledWorker] returned is
    no call. *)
Definition step (c : call) (p : pool) : pool :=
  match c with
  | CreatePooledWorker bodyURL options =>
      (createPooledWorker workerCount bodyURL options p).2
  | Send handle type data =>
      match pooledWorkers p !! handle with
      | Some w => send w type data p
      | None => p
      end
  end.

(** The calls of a list, one after the other. *)
Definition run (cs : list call) (p : pool) : pool := foldl (fun p c => step c p) p cs.

End Main.

End WorkerSession.

(** * [LngLat] objects and [LngLatBounds]

    [LngLatBounds.extend] assigns to the properties of the [LngLat] objects
    that are its corners, and [LngLat.convert] returns the object it is given:
    the [LngLat] objects live in a store, and a bounds object holds
    references to its corners. *)

Module Bounds.
Import Geo.

Local Open Scope R_scope.

(** ** Arithmetic of numbers *)

(** [a + b] *)
Definition add (a b : number) : number :=
  match a, b with
  | NaN, _ | _, NaN => NaN
  | Infinity s, Infinity t => if Bool.eqb s t then Infinity s else NaN
  | Infinity s, Finite _ | Finite _, Infinity s => Infinity s
  | Finite x, Finite y => Finite (x + y)
  end.

(** [a / 2] *)
Definition half (a : number) : number :=
  match a with
  | Finite x => Finite (x / 2)
  | _ => a
  end.

(** [Math.min(a, b)] and [Math.max(a, b)]: [NaN] as soon as one argument
    is. *)
Definition Math_min (a b : number) : number :=
  match a, b with
  | NaN, _ | _, NaN => NaN
  | _, _ => if lt b a then b else a
  end.

Definition Math_max (a b : number) : number :=
  match a, b with
  | NaN, _ | _, NaN => NaN
  | _, _ => if lt a b then b else a
  end.

(** ** The store of [LngLat] objects *)

(** An object is named by its place in the store. *)
Abbreviation loc := nat (only parsing).

Abbreviation heap := (list LngLat) (only parsing).

#[global] Instance LngLat_inhabited : Inhabited LngLat := populate (mkLngLat NaN NaN).

(** A computation on the store that returns or throws; the store it leaves
    is known in both cases. *)
Definition M (A : Type) : Type := heap -> result A * heap.

#[global] Instance M_ret : MRet M := fun _ a h => (Ok a, h).

#[global] Instance M_bind : MBind M := fun _ _ f m h =>
  match m h with
  | (Ok a, h) => f a h
  | (Throw e, h) => (Throw e, h)
  end.

Definition throw {A} (e : exn) : M A := fun h => (Throw e, h).

(** [l.lng] and [l.lat] *)
Definition read_lng (l : loc) : M number := fun h => (Ok (lng (h !!! l)), h).
Definition read_lat (l : loc) : M number := fun h => (Ok (lat (h !!! l)), h).

(** [l.lng = v] and [l.lat = v] *)
Definition write_lng (l : loc) (v : number) : M unit := fun h =>
  (Ok tt, <[l := mkLngLat v (lat (h !!! l))]> h).
Definition write_lat (l : loc) (v : number) : M unit := fun h =>
  (Ok tt, <[l := mkLngLat (lng (h !!! l)) v]> h).

(** [new LngLat(lng, lat)]: the constructor runs, and the object it has made
    is new in the store. *)
Definition new_LngLat (lng lat : number) : M loc := fun h =>
  match LngLat_new lng lat with
  | Ok ll => (Ok (length h), h ++ [ll])
  | Throw e => (Throw e, h)
  end.

(** ** The values given to the methods *)

(** The values considered: [undefined], [null], numbers, [LngLat] objects,
    arrays and the plain objects with the properties [lng] and [lat] (an
    absent property is [undefined]). *)
#[warnings="-register-all"] Inductive value : Type :=
| Undefined
| Null
| Num (n : number)
| Instance (l : loc)
| Arr (vs : list value)
| Obj (lng lat : value).

(** [Number(v)].  An array is converted through its string: that of its
    only element, the empty string for no element, [null] or [undefined]; an
    object through a string that is no number. *)
Fixpoint Number (v : value) : number :=
  match v with
  | Undefined => NaN
  | Null => Finite 0
  | Num n => n
  | Instance _ => NaN
  | Obj _ _ => NaN
  | Arr [] => Finite 0
  | Arr [v] =>
      match v with
      | Undefined | Null => Finite 0
      | Num n => n
      | Arr _ => Number v
      | Instance _ | Obj _ _ => NaN
      end
  | Arr _ => NaN
  end.

(** Whether a value is truthy. *)
Definition truthy (v : value) : bool :=
  match v with
  | Undefined | Null | Num NaN => false
  | Num (Finite x) => if Req_dec_T x 0 then false else true
  | _ => true
  end.

(** [Array.isArray(v)] *)
Definition isArray (v : value) : bool :=
  match v with
  | Arr _ => true
  | _ => false
  end.

(** [v[i]] *)
Definition index (v : value) (i : nat) : value :=
  match v with
  | Arr vs => default Undefined (vs !! i)
  | _ => Undefined
  end.

(** [v.length === n] *)
Definition length_is (v : value) (n : nat) : bool :=
  match v with
  | Arr vs => bool_decide (length vs = n)
  | _ => false
  end.

(** ** [LngLat] *)

Definition LngLatLike_message : string :=
  "`LngLatLike` argument must be specified as a LngLat instance, an object {lng: <lng>, lat: <lat>}, or an array of [<lng>, <lat>]".

(** [LngLat.convert(input)] *)
Definition LngLat_convert (input : value) : M loc :=
  match input with
  | Instance l => mret l
  | Arr [a; b] => new_LngLat (Number a) (Number b)
  | Obj lng lat => new_LngLat (Number lng) (Number lat)
  | _ => throw (Error LngLatLike_message)
  end.

(** [l.toArray()] *)
Definition LngLat_toArray (l : loc) : M value :=
  lng ← read_lng l; lat ← read_lat l; mret (Arr [Num lng; Num lat]).

(** ** [LngLatBounds] *)

(** A bounds object: [_sw] and [_ne], each a reference to an [LngLat] or
    [undefined].  A method that returns [this] returns the bounds object as
    it has left it; what a method that throws has assigned to [_sw] or [_ne]
    before is not kept, what it has done to the store is. *)
Record LngLatBounds : Type := mkBounds { _sw : option loc; _ne : option loc }.

(** What [extend] and [LngLatBounds.convert] are given: a value or a bounds
    object. *)
Inductive arg : Type :=
| Val (v : value)
| Bnd (b : LngLatBounds).

Definition setNorthEast (ne : value) (this : LngLatBounds) : M LngLatBounds :=
  l ← LngLat_convert ne; mret (mkBounds (_sw this) (Some l)).

Definition setSouthWest (sw : value) (this : LngLatBounds) : M LngLatBounds :=
  l ← LngLat_convert sw; mret (mkBounds (Some l) (_ne this)).

(** [new LngLatBounds(sw, ne)] *)
Definition LngLatBounds_new (sw ne : value) : M LngLatBounds :=
  let this := mkBounds None None in
  if negb (truthy sw) then mret this
  else if truthy ne then
    this ← setSouthWest sw this; setNorthEast ne this
  else if length_is sw 4 then
    this ← setSouthWest (Arr [index sw 0; index sw 1]) this;
    setNorthEast (Arr [index sw 2; index sw 3]) this
  else
    this ← setSouthWest (index sw 0) this; setNorthEast (index sw 1) this.

(** [LngLatBounds.convert(input)] *)
Definition LngLatBounds_convert (input : arg) : M arg :=
  match input with
  | Bnd b => mret (Bnd b)
  | Val v => if negb (truthy v) then mret (Val v)
             else b ← LngLatBounds_new v Undefined; mret (Bnd b)
  end.

(** The reading of a property of a corner that may be [undefined]. *)
Definition of_corner (read : loc -> M number) (c : option loc) : M number :=
  match c with
  | Some l => read l
  | None => throw (TypeError "Cannot read property of undefined")
  end.

(** The assignment to a property of a corner that may be [undefined]. *)
Definition to_corner (write : loc -> number -> M unit) (c : option loc) (v : number)
    : M unit :=
  match c with
  | Some l => write l v
  | None => throw (TypeError "Cannot set property of undefined")
  end.

(** [extend] from where [sw2] and [ne2] are known. *)
Definition extend_with (sw2 ne2 : loc) (this : LngLatBounds) : M LngLatBounds :=
  let sw := _sw this in
  let ne := _ne this in
  match sw, ne with
  | None, None =>
      lng ← read_lng sw2; lat ← read_lat sw2; s ← new_LngLat lng lat;
      lng ← read_lng ne2; lat ← read_lat ne2; n ← new_LngLat lng lat;
      mret (mkBounds (Some s) (Some n))
  | _, _ =>
      a ← read_lng sw2; b ← of_corner read_lng sw; _ ← to_corner write_lng sw (Math_min a b);
      a ← read_lat sw2; b ← of_corner read_lat sw; _ ← to_corner write_lat sw (Math_min a b);
      a ← read_lng ne2; b ← of_corner read_lng ne; _ ← to_corner write_lng ne (Math_max a b);
      a ← read_lat ne2; b ← of_corner read_lat ne; _ ← to_corner write_lat ne (Math_max a b);
      mret this
  end.

(** [extend(obj)] when [obj] is a bounds object. *)
Definition extend_bounds (obj this : LngLatBounds) : M LngLatBounds :=
  match _sw obj, _ne obj with
  | Some sw2, Some ne2 => extend_with sw2 ne2 this
  | _, _ => mret this
  end.

(** [extend(obj)] *)
Definition extend (obj : arg) (this : LngLatBounds) : M LngLatBounds :=
  match obj with
  | Val (Instance l) => extend_with l l this
  | Bnd b => extend_bounds b this
  | Val (Arr vs) =>
      if forallb isArray vs then
        b ← LngLatBounds_new (Arr vs) Undefined; extend_bounds b this
      else
        l ← LngLat_convert (Arr vs); extend_with l l this
  | Val _ => mret this
  end.

(** [getCenter()] *)
Definition getCenter (this : LngLatBounds) : M loc :=
  a ← of_corner read_lng (_sw this); b ← of_corner read_lng (_ne this);
  c ← of_corner read_lat (_sw this); d ← of_corner read_lat (_ne this);
  new_LngLat (half (add a b)) (half (add c d)).

Definition getWest (this : LngLatBounds) : M number := of_corner read_lng (_sw this).
Definition getSouth (this : LngLatBounds) : M number := of_corner read_lat (_sw this).
Definition getEast (this : LngLatBounds) : M number := of_corner read_lng (_ne this).
Definition getNorth (this : LngLatBounds) : M number := of_corner read_lat (_ne this).

Definition getNorthWest (this : LngLatBounds) : M loc :=
  a ← getWest this; b ← getNorth this; new_LngLat a b.

Definition getSouthEast (this : LngLatBounds) : M loc :=
  a ← getEast this; b ← getSouth this; new_LngLat a b.

(** [toArray()] *)
Definition toArray (this : LngLatBounds) : M value :=
  match _sw this, _ne this with
  | Some sw, Some ne => a ← LngLat_toArray sw; b ← LngLat_toArray ne; mret (Arr [a; b])
  | _, _ => throw (TypeError "Cannot read property 'toArray' of undefined")
  end.

(** ** Valid objects *)

(** An [LngLat] the constructor accepts. *)
Definition valid (ll : LngLat) : Prop := ~ invalid (lng ll) (lat ll).

(** [a <= b] on numbers that are not [NaN]. *)
Definition le (a b : number) : Prop := a <> NaN /\ b <> NaN /\ lt b a = false.

(** The point [p] lies within the corners [sw] and [ne]. *)
Definition within (sw ne p : LngLat) : Prop :=
  le (lng sw) (lng p) /\ le (lng p) (lng ne)
  /\ le (lat sw) (lat p) /\ le (lat p) (lat ne).

(** Every object of the store is valid. *)
Definition valid_heap (h : heap) : Prop := Forall valid h.

(** The objects a bounds object refers to, and those [extend] reads from
    its argument. *)
Definition corners (b : LngLatBounds) : list loc :=
  option_list (_sw b) ++ option_list (_ne b).

Definition refs (obj : arg) : list loc :=
  match obj with
  | Val (Instance l) => [l]
  | Bnd b => corners b
  | Val _ => []
  end.

(** The computation [m], run in the store [h], leaves a store of valid
    objects that has the objects of [h] and maybe more; if it returns, its
    result and the size of the store satisfy [Q]. *)
Definition keeps {A} (m : M A) (h : heap) (Q : A -> nat -> Prop) : Prop :=
  valid_heap (m h).2
  /\ (length h <= length (m h).2)%nat
  /\ match (m h).1 with
     | Ok a => Q a (length (m h).2)
     | Throw _ => True
     end.

(** The corner [l] after the two assignments that combine it with [l2]. *)
Definition grow (op : number -> number -> number) (l2 l : loc) (h : heap) : heap :=
  <[l := mkLngLat (op (lng (h !!! l2)) (lng (h !!! l)))
                  (op (lat (h !!! l2)) (lat (h !!! l)))]> h.

(** A store for examples: the objects [LngLat(1, 2)] and [LngLat(3, 0)]. *)
Definition two_points : heap :=
  [mkLngLat (Finite 1) (Finite 2); mkLngLat (Finite 3) (Finite 0)].

End Bounds.

(** * The geometry of a feature ([loadGeometry])

    The points are those of the camera; they are taken as values: every point
    of a feature is an object of its own, and [loadGeometry] assigns to each
    once. *)

Module Geometry.
Import Camera.

Local Open Scope R_scope.

(** [p.dist(q)] *)
Definition dist (p q : Point) : R := Pt.mag (Pt.sub p q).

(** [createBounds(bits)] *)
Definition createBounds (bits : Z) : R * R :=
  (-1 * IZR (2 ^ (bits - 1)), IZR (2 ^ (bits - 1)) - 1).

Definition bounds : R * R := createBounds 15.

(** The points pushed by [for (let i = m; i < d; i += m)], from the value
    [i] on; the loop takes at most [turns] turns. *)
Fixpoint between (turns : nat) (i d : R) (last p : Point) : list Point :=
  match turns with
  | O => []
  | S turns =>
      if Rlt_dec i d
      then Pt.add last (Pt.mult (Pt.sub p last) (i / d)) :: between turns (i + 160) d last p
      else []
  end.

(** A number of turns the loop does not reach: more than [d / 160]. *)
Definition turns (d : R) : nat := Z.to_nat (up (d / 160)).

(** The body of the outer loop of [resample], from the point after [last]
    on. *)
Fixpoint resample_from (last : Point) (ring : list Point) : list Point :=
  match ring with
  | [] => []
  | p :: ring =>
      let d := dist p last in
      let m := 160 in
      between (turns d) m d last p ++ p :: resample_from p ring
  end.

(** [resample(ring)]; [None] is [undefined]. *)
Definition resample (ring : list Point) : option (list Point) :=
  match ring with
  | [] => None
  | p :: ring => Some (p :: resample_from p ring)
  end.

Definition extent_message : string :=
  "Geometry exceeds allowed extent, reduce your vector tile buffer size".

Section LoadGeometry.

(** [util.warnOnce], which is not among the sources: what it does to the
    console when it is given a message. *)
Variable warnOnce : string -> list string -> list string.

(** The closure [reproject], which goes through the projection of the
    transform and the Mercator coordinates, not among the sources: the point
    it assigns to [p], given [p] and the extent of the feature. *)
Variable reproject : Point -> R -> Point.

(** The body of the loop over the points of a ring. *)
Definition load_point (extent : R) (point : Point) (console : list string)
    : Point * list string :=
  let point := reproject point extent in
  if bool_decide (x point < bounds.1) || bool_decide (bounds.2 < x point)
     || bool_decide (y point < bounds.1) || bool_decide (bounds.2 < y point)
  then (mkPoint (clamp (x point) bounds.1 bounds.2) (clamp (y point) bounds.1 bounds.2),
        warnOnce extent_message console)
  else (point, console).

Fixpoint load_ring (extent : R) (ring : list Point) (console : list string)
    : list Point * list string :=
  match ring with
  | [] => ([], console)
  | point :: ring =>
      let '(point, console) := load_point extent point console in
      let '(ring, console) := load_ring extent ring console in
      (point :: ring, console)
  end.

(** The loop over the rings.  A ring that [resample] leaves [undefined] has
    no [length]. *)
Fixpoint load_rings (extent : R) (geometry : list (list Point)) (console : list string)
    : result (list (list Point)) * list string :=
  match geometry with
  | [] => (Ok [], console)
  | ring :: geometry =>
      match resample ring with
      | None => (Throw (TypeError "Cannot read property 'length' of undefined"), console)
      | Some ring =>
          let '(ring, console) := load_ring extent ring console in
          match load_rings extent geometry console with
          | (Ok geometry, console) => (Ok (ring :: geometry), console)
          | (Throw e, console) => (Throw e, console)
          end
      end
  end.

(** [loadGeometry(feature, canonical)]: [geometry] is what
    [feature.loadGeometry()] returns and [extent] is [feature.extent];
    [canonical] is given by whether it is truthy. *)
Definition loadGeometry (geometry : list (list Point)) (extent : R) (canonical : bool)
    (console : list string) : result (list (list Point)) * list string :=
  if negb canonical then (Ok [], console)
  else load_rings extent geometry console.

End LoadGeometry.

(** Consecutive points, from [last] on, are at most 160 apart. *)
Fixpoint close (last : Point) (l : list Point) : Prop :=
  match l with
  | [] => True
  | p :: l => dist p last <= 160 /\ close p l
  end.

(** A point within the bounds of the coordinates. *)
Definition in_bounds (p : Point) : Prop :=
  bounds.1 <= x p <= bounds.2 /\ bounds.1 <= y p <= bounds.2.

End Geometry.

(** * The other methods of the camera

    The methods of [src/ui/camera.js] that are written in terms of [jumpTo]
    and [easeTo]. *)

Module CameraMethods.
Import Camera.

Local Open Scope R_scope.

(** ** Options *)

(** [{center: c}], [{bearing: b}] and [{pitch: p}] *)
Definition center_to (c : LngLat) : Options :=
  mkOptions (Some c) None None None None None None None None false false None
            None None None None None None false.

Definition bearing_to (b : R) : Options :=
  mkOptions None None (Some b) None None None None None None false false None
            None None None None None None false.

Definition pitch_to (p : R) : Options :=
  mkOptions None None None (Some p) None None None None None false false None
            None None None None None None false.

(** [util.extend({center: c}, options)]: the properties of [options] win. *)
Definition extend_center (c : LngLat) (options : Options) : Options :=
  mkOptions (Some (default c (o_center options)))
    (o_zoom options) (o_bearing options) (o_pitch options) (o_around options)
    (o_offset options) (o_duration options) (o_easing options) (o_animate options)
    (o_smoothEasing options) (o_noMoveStart options) (o_delayEndEvents options)
    (o_speed options) (o_curve options) (o_screenSpeed options) (o_minZoom options)
    (o_padding options) (o_maxZoom options) (o_linear options).

(** [util.extend({zoom: z}, options)] *)
Definition extend_zoom (z : R) (options : Options) : Options :=
  mkOptions (o_center options)
    (Some (default z (o_zoom options))) (o_bearing options) (o_pitch options)
    (o_around options)
    (o_offset options) (o_duration options) (o_easing options) (o_animate options)
    (o_smoothEasing options) (o_noMoveStart options) (o_delayEndEvents options)
    (o_speed options) (o_curve options) (o_screenSpeed options) (o_minZoom options)
    (o_padding options) (o_maxZoom options) (o_linear options).

(** [util.extend({bearing: b}, options)] *)
Definition extend_bearing (b : R) (options : Options) : Options :=
  mkOptions (o_center options)
    (o_zoom options) (Some (default b (o_bearing options))) (o_pitch options)
    (o_around options)
    (o_offset options) (o_duration options) (o_easing options) (o_animate options)
    (o_smoothEasing options) (o_noMoveStart options) (o_delayEndEvents options)
    (o_speed options) (o_curve options) (o_screenSpeed options) (o_minZoom options)
    (o_padding options) (o_maxZoom options) (o_linear options).

(** [util.extend({offset}, options)] *)
Definition extend_offset (offset : Point) (options : Options) : Options :=
  mkOptions (o_center options)
    (o_zoom options) (o_bearing options) (o_pitch options) (o_around options)
    (Some (default offset (o_offset options)))
    (o_duration options) (o_easing options) (o_animate options)
    (o_smoothEasing options) (o_noMoveStart options) (o_delayEndEvents options)
    (o_speed options) (o_curve options) (o_screenSpeed options) (o_minZoom options)
    (o_padding options) (o_maxZoom options) (o_linear options).

(** [util.extend({duration: d}, options)] *)
Definition extend_duration (d : R) (options : Options) : Options :=
  mkOptions (o_center options)
    (o_zoom options) (o_bearing options) (o_pitch options) (o_around options)
    (o_offset options)
    (Some (default d (o_duration options))) (o_easing options) (o_animate options)
    (o_smoothEasing options) (o_noMoveStart options) (o_delayEndEvents options)
    (o_speed options) (o_curve options) (o_screenSpeed options) (o_minZoom options)
    (o_padding options) (o_maxZoom options) (o_linear options).

(** ** Methods *)

Section Methods.

Context {E : Env}.

(** [this._bearingSnap], which the constructor sets. *)
Variable _bearingSnap : R.

Definition getCenter (w : World) : LngLat := center (transform (camera w)).

Definition isMoving (w : World) : bool := moving (camera w).

Definition setCenter (center : LngLat) (eventData : EventData) (w : World)
    : result World :=
  jumpTo (center_to center) eventData w.

Definition panTo (lnglat : LngLat) (options : Options) (eventData : EventData)
    (w : World) : result World :=
  easeTo (extend_center lnglat options) eventData w.

Definition panBy (offset : Point) (options : Options) (eventData : EventData)
    (w : World) : result World :=
  let offset := Pt.mult offset (-1) in
  panTo (getCenter w) (extend_offset offset options) eventData w.

Definition setZoom (zoom : R) (eventData : EventData) (w : World) : result World :=
  jumpTo (zoom_to zoom) eventData w.

Definition zoomTo (zoom : R) (options : Options) (eventData : EventData) (w : World)
    : result World :=
  easeTo (extend_zoom zoom options) eventData w.

Definition zoomIn (options : Options) (eventData : EventData) (w : World)
    : result World :=
  zoomTo (getZoom w + 1) options eventData w.

Definition zoomOut (options : Options) (eventData : EventData) (w : World)
    : result World :=
  zoomTo (getZoom w - 1) options eventData w.

Definition setBearing (bearing : R) (eventData : EventData) (w : World)
    : result World :=
  jumpTo (bearing_to bearing) eventData w.

Definition rotateTo (bearing : R) (options : Options) (eventData : EventData)
    (w : World) : result World :=
  easeTo (extend_bearing bearing options) eventData w.

Definition resetNorth (options : Options) (eventData : EventData) (w : World)
    : result World :=
  rotateTo 0 (extend_duration 1000 options) eventData w.

Definition snapToNorth (options : Options) (eventData : EventData) (w : World)
    : result World :=
  if Rlt_dec (Rabs (getBearing w)) _bearingSnap
  then resetNorth options eventData w
  else Ok w.

Definition setPitch (pitch : R) (eventData : EventData) (w : World) : result World :=
  jumpTo (pitch_to pitch) eventData w.

(** ** What happens to a camera *)

(** A call of a method of the camera, or an event of the browser: a frame
    of the animation [id] at the fraction [t] of its duration, or the timeout
    [id]. *)
Inductive call : Type :=
| JumpTo (options : Options)
| EaseTo (options : Options)
| FlyTo (options : Options)
| FitBounds (bounds : LngLatBounds) (options : Options)
| Stop
| SetCenter (center : LngLat)
| PanBy (offset : Point) (options : Options)
| PanTo (lnglat : LngLat) (options : Options)
| SetZoom (zoom : R)
| ZoomTo (zoom : R) (options : Options)
| ZoomIn (options : Options)
| ZoomOut (options : Options)
| SetBearing (bearing : R)
| RotateTo (bearing : R) (options : Options)
| ResetNorth (options : Options)
| SnapToNorth (options : Options)
| SetPitch (pitch : R)
| Frame (id : nat) (t : R)
| Timeout (id : nat).

(** A call that returns or throws; [None] is the call of [flyTo] or of
    [fitBounds] that has no result over the real numbers. *)
Definition run (c : call) (eventData : EventData) (w : World)
    : option (result World) :=
  match c with
  | JumpTo options => Some (jumpTo options eventData w)
  | EaseTo options => Some (easeTo options eventData w)
  | FlyTo options => flyTo options eventData w
  | FitBounds bounds options => fitBounds bounds options eventData w
  | Stop => Some (stop w)
  | SetCenter center => Some (setCenter center eventData w)
  | PanBy offset options => Some (panBy offset options eventData w)
  | PanTo lnglat options => Some (panTo lnglat options eventData w)
  | SetZoom zoom => Some (setZoom zoom eventData w)
  | ZoomTo zoom options => Some (zoomTo zoom options eventData w)
  | ZoomIn options => Some (zoomIn options eventData w)
  | ZoomOut options => Some (zoomOut options eventData w)
  | SetBearing bearing => Some (setBearing bearing eventData w)
  | RotateTo bearing options => Some (rotateTo bearing options eventData w)
  | ResetNorth options => Some (resetNorth options eventData w)
  | SnapToNorth options => Some (snapToNorth options eventData w)
  | SetPitch pitch => Some (setPitch pitch eventData w)
  | Frame id t => Some (tick id t w)
  | Timeout id => Some (Ok (timeout_fires id w))
  end.




(** The last frame of the animation that runs, if one does. *)
Definition settle (w : World) : result World :=
  match _abortFn (camera w) with
  | Some id => tick id 1 w
  | None => Ok w
  end.

End Methods.

(** [setLocationAtPoint] moves the center and leaves the zoom, the bearing
    and the pitch of the transform as they are. *)
Definition keeps_attitude (E : Env) : Prop :=
  forall tr l p,
    zoom (setLocationAtPoint tr l p) = zoom tr
    /\ bearing (setLocationAtPoint tr l p) = bearing tr
    /\ pitch (setLocationAtPoint tr l p) = pitch tr.

(** The value a property has at the end of an ease: the one it had when it
    is the target, else the target held within the range of the transform. *)
Definition arrive (current target lo hi : R) : R :=
  if Req_dec_T target current then current else clamp target lo hi.

End CameraMethods.

(** * The keyboard and double-click handlers

    [src/ui/handler/keyboard.js] and the [DoubleClickZoomHandler]: what a key
    or a double click asks of the camera. *)

Module Handlers.
Import Camera CameraMethods.

Local Open Scope R_scope.

Definition panStep : R := 100.
Definition bearingStep : R := 15.
Definition pitchStep : R := 10.

(** [Math.round]: the nearest whole number, a half going up. *)
Definition Math_round (x : R) : R := IZR (Int_part (x + / 2)).

(** What the handler reads of a [keydown] event. *)
Record KeyboardEvent : Type := mkKeyboardEvent {
  altKey : bool;
  ctrlKey : bool;
  metaKey : bool;
  shiftKey : bool;
  keyCode : Z
}.

(** The variables the [switch] of [_onKeyDown] sets, and whether it called
    [e.preventDefault()]. *)
Record Directions : Type := mkDirections {
  zoomDir : R;
  bearingDir : R;
  pitchDir : R;
  xDir : R;
  yDir : R;
  prevented : bool
}.

(** The [switch] on [e.keyCode]; [None] is the [default] case, which
    returns. *)
Definition key_directions (e : KeyboardEvent) : option Directions :=
  match keyCode e with
  | 61%Z | 107%Z | 171%Z | 187%Z => Some (mkDirections 1 0 0 0 0 false)
  | 189%Z | 109%Z | 173%Z => Some (mkDirections (-1) 0 0 0 0 false)
  | 37%Z =>
      if shiftKey e then Some (mkDirections 0 (-1) 0 0 0 false)
      else Some (mkDirections 0 0 0 (-1) 0 true)
  | 39%Z =>
      if shiftKey e then Some (mkDirections 0 1 0 0 0 false)
      else Some (mkDirections 0 0 0 1 0 true)
  | 38%Z =>
      if shiftKey e then Some (mkDirections 0 0 1 0 0 false)
      else Some (mkDirections 0 0 0 0 (-1) true)
  | 40%Z =>
      if shiftKey e then Some (mkDirections 0 0 (-1) 0 0 false)
      else Some (mkDirections 0 0 0 0 1 true)
  | _ => None
  end.

Definition easeOut (t : R) : R := t * (2 - t).

Section Handlers.

Context {E : Env}.

(** [_onKeyDown(e)]; [eventData] is [{originalEvent: e}].  It returns
    whether [e.preventDefault()] was called, and the camera. *)
Definition _onKeyDown (e : KeyboardEvent) (eventData : EventData) (w : World)
    : bool * result World :=
  if altKey e || ctrlKey e || metaKey e then (false, Ok w)
  else
    match key_directions e with
    | None => (false, Ok w)
    | Some d =>
        let zoom := getZoom w in
        let easeOptions :=
          mkOptions
            (Some (getCenter w))
            (Some (if Req_dec_T (zoomDir d) 0 then zoom
                   else Math_round zoom + zoomDir d * (if shiftKey e then 2 else 1)))
            (Some (getBearing w + bearingDir d * bearingStep))
            (Some (getPitch w + pitchDir d * pitchStep))
            None
            (Some (mkPoint (- xDir d * panStep) (- yDir d * panStep)))
            (Some 300)
            (Some easeOut)
            None false false
            (Some 500)
            None None None None None None false in
        (prevented d, easeTo easeOptions eventData w)
    end.

(** [{around: lngLat}] *)
Definition around_at (lngLat : LngLat) : Options :=
  mkOptions None None None None (Some lngLat) None None None None false false None
            None None None None None None false.

(** [_onDblClick(e)]: [shiftKey] is [e.originalEvent.shiftKey], [lngLat] is
    [e.lngLat], and the event itself is the event data. *)
Definition _onDblClick (shiftKey : bool) (lngLat : LngLat) (e : EventData) (w : World)
    : result World :=
  zoomTo (getZoom w + (if shiftKey then -1 else 1)) (around_at lngLat) e w.

End Handlers.

(** Examples: the key [+] of the number pad, and the left arrow. *)
Definition key (shift : bool) (code : Z) : KeyboardEvent :=
  mkKeyboardEvent false false false shift code.

End Handlers.

(** * Properties of the pooled worker dispatcher *)

Module WorkerPoolFacts.
Import WorkerPool.

Section RoundRobin.

Variable workerCount : nat.

Lemma poolSize_pos : 0 < poolSize workerCount.
Proof. unfold poolSize. case_decide; lia. Qed.

Lemma createPooledWorker_ready bodyURL options p w p' :
  ready workerCount p ->
  createPooledWorker workerCount bodyURL options p = (w, p') ->
  pw_nativeWorker w = nextNativeWorkerIndex p
  /\ pw_pooledWorkerId w = length (pooledWorkers p)
  /\ ready workerCount p'
  /\ nextNativeWorkerIndex p' = (nextNativeWorkerIndex p + 1) `mod` poolSize workerCount
  /\ length (pooledWorkers p') = S (length (pooledWorkers p)).
Proof.
  intros [Hlen Hnext] Hc. pose proof poolSize_pos as Hpos.
  unfold createPooledWorker, allocateNativeWorker in Hc.
  destruct (decide (length (nativeWorkers p) = 0)) as [H0|_]; [lia|].
  simpl in Hc. injection Hc as <- <-. unfold ready. simpl.
  rewrite length_alter, Hlen, length_app. simpl.
  repeat split; try lia. apply Nat.mod_upper_bound. lia.
Qed.

(** The first call creates the pool. *)
Lemma createPooledWorker_first bodyURL options p w p' :
  nativeWorkers p = [] -> nextNativeWorkerIndex p = 0 ->
  createPooledWorker workerCount bodyURL options p = (w, p') ->
  pw_nativeWorker w = 0
  /\ pw_pooledWorkerId w = length (pooledWorkers p)
  /\ ready workerCount p'
  /\ nextNativeWorkerIndex p' = 1 `mod` poolSize workerCount
  /\ length (pooledWorkers p') = S (length (pooledWorkers p)).
Proof.
  intros Hnil Hnext Hc. pose proof poolSize_pos as Hpos.
  unfold createPooledWorker, allocateNativeWorker in Hc.
  rewrite Hnil in Hc. simpl in Hc. rewrite Hnext in Hc.
  injection Hc as <- <-. unfold ready. simpl.
  rewrite length_alter, length_replicate, length_app. fold (poolSize workerCount). simpl.
  repeat split; try lia. apply Nat.mod_upper_bound. lia.
Qed.

Lemma allocate_many_ready k : forall p,
  ready workerCount p ->
  map (fun w => (pw_nativeWorker w, pw_pooledWorkerId w))
      (allocate_many workerCount k p).1
  = map (fun i => ((nextNativeWorkerIndex p + i) `mod` poolSize workerCount,
                   length (pooledWorkers p) + i)) (seq 0 k).
Proof.
  induction k as [|k IH]; intros p Hp; [reflexivity|].
  cbn [allocate_many].
  destruct (createPooledWorker workerCount "body" "options" p) as [w p1] eqn:Hc.
  destruct (createPooledWorker_ready _ _ _ _ _ Hp Hc)
    as (Hw & Hid & Hp1 & Hn1 & Hl1).
  specialize (IH p1 Hp1).
  destruct (allocate_many workerCount k p1) as [ws p2]. simpl in *.
  rewrite IH, Hw, Hid, Nat.add_0_r, Nat.add_0_r.
  rewrite (Nat.mod_small _ _ (proj2 Hp)). f_equal.
  rewrite <- seq_shift, map_map. apply map_ext. intros i.
  rewrite Hn1, Hl1. f_equal; [|lia].
  rewrite Nat.Div0.add_mod_idemp_l. f_equal. lia.
Qed.

(** C3. Starting without a pool, [k] allocations against the [N =
    workerCount || 3] native workers created by the first of them are bound,
    in order, to the native workers [0, 1, ..., N-1, 0, 1, ...]: the [i]-th
    allocation gets the native worker [i mod N] and the id [i]. *)
Theorem round_robin (k : nat) :
  map (fun w => (pw_nativeWorker w, pw_pooledWorkerId w))
      (allocate_many workerCount k empty_pool).1
  = map (fun i => (i `mod` poolSize workerCount, i)) (seq 0 k).
Proof.
  destruct k as [|k]; [reflexivity|].
  cbn [allocate_many].
  destruct (createPooledWorker workerCount "body" "options" empty_pool)
    as [w p1] eqn:Hc.
  destruct (createPooledWorker_first _ _ empty_pool _ _ eq_refl eq_refl Hc)
    as (Hw & Hid & Hp1 & Hn1 & Hl1).
  pose proof (allocate_many_ready k p1 Hp1) as Hk.
  destruct (allocate_many workerCount k p1) as [ws p2]. simpl in *.
  rewrite Hk, Hw, Hid. rewrite Nat.Div0.mod_0_l. f_equal.
  rewrite <- seq_shift, map_map. apply map_ext. intros i.
  rewrite Hn1, Hl1. f_equal.
  rewrite Nat.Div0.add_mod_idemp_l. f_equal.
Qed.

End RoundRobin.

Example five_workers_of_two :
  map (fun w => (pw_nativeWorker w, pw_pooledWorkerId w))
      (allocate_many 2 5 empty_pool).1
  = [(0, 0); (1, 1); (0, 2); (1, 3); (0, 4)].
Proof. reflexivity. Qed.

(** The control messages reach the native workers in turn. *)
Example control_messages_2_of_2 :
  nativeWorkers (allocate_many 2 2 empty_pool).2
  = [[Message None "createPooledWorker" (CreateData 0 "body" "options")];
     [Message None "createPooledWorker" (CreateData 1 "body" "options")]].
Proof. reflexivity. Qed.

(** A message for a known id calls the listeners of that handle only. *)
Example known_id_delivered :
  let p := Pool [[]; []] 0
             [PooledWorker (on "polo" "f" no_listeners) 0 0;
              PooledWorker (on "polo" "g" no_listeners) 1 1] [] in
  deliveries (onNativeMessage (Message (Some 1) "polo" (UserData "chicken")) p).1
  = [Delivery 1 "g" "polo" (UserData "chicken")].
Proof. vm_compute. reflexivity. Qed.

(** The claim of C7 fails on the main thread: a message for an id that was
    never allocated is not a silent no-op, the listener throws. *)
Lemma unknown_id_not_silent :
  unknown_main (Message (Some 7) "polo" NoData) empty_pool
  /\ ~ silent_noop_main (Message (Some 7) "polo" NoData) empty_pool.
Proof. split; [reflexivity|]. unfold silent_noop_main. simpl. discriminate. Qed.

(** C7, amended. A message whose id is in neither registry leaves both
    sides as they were, registries and listeners untouched and no listener
    called, but each router throws the [TypeError] of calling [fire] on
    [undefined]. *)
Theorem unknown_id_throws runBody (m : message) (id : nat) (p : pool) (w : worker) :
  msg_pooledWorkerId m = Some id ->
  pooledWorkers p !! id = None ->
  w_pooledWorkers w !! id = None ->
  onNativeMessage m p
    = (p, Some (TypeError "Cannot read property 'listens' of undefined"))
  /\ onWorkerMessage runBody m w
    = (w, Some (TypeError "Cannot read property 'listens' of undefined")).
Proof.
  intros Hid Hp Hw. unfold onNativeMessage, onWorkerMessage.
  rewrite Hid. simpl. rewrite Hp, Hw. simpl. done.
Qed.

Lemma unknown_id_throws_witness :
  onNativeMessage (Message (Some 7) "polo" NoData) empty_pool
    = (empty_pool, Some (TypeError "Cannot read property 'listens' of undefined"))
  /\ onWorkerMessage (fun _ _ h => h) (Message (Some 7) "polo" NoData) empty_worker
    = (empty_worker, Some (TypeError "Cannot read property 'listens' of undefined")).
Proof.
  apply (unknown_id_throws (fun _ _ h => h) (Message (Some 7) "polo" NoData) 7);
    reflexivity.
Defined.

End WorkerPoolFacts.

(** * Properties of the [LngLat] constructor *)

Module GeoFacts.
Import Geo.

Local Open Scope R_scope.

Lemma lt_below a b : lt a b = true <-> below a b.
Proof.
  split.
  - destruct a as [|[]|x], b as [|[]|y]; simpl; try discriminate; intros H;
      try constructor.
    destruct (Rlt_dec x y); [done|discriminate].
  - destruct 1; simpl; try reflexivity. by destruct (Rlt_dec x y).
Qed.

(** C8. The constructor throws when the longitude or the latitude is [NaN]
    and when the latitude is above 90 or below -90; on every other pair of
    numbers it succeeds and stores the two numbers as they are. *)
Theorem LngLat_new_spec (lng lat : number) :
  (invalid lng lat /\ exists msg, LngLat_new lng lat = Throw (Error msg))
  \/ (~ invalid lng lat /\ LngLat_new lng lat = Ok (mkLngLat lng lat)).
Proof.
  unfold invalid, LngLat_new, gt. cbn [Geo.lat].
  destruct (isNaN lng) eqn:Hlng.
  { left. destruct lng; try discriminate. split; [tauto|]. cbn. eauto. }
  destruct (isNaN lat) eqn:Hlat.
  { left. destruct lat; try discriminate. split; [tauto|]. cbn. eauto. }
  cbn [orb].
  destruct (lt (Finite 90) lat) eqn:H1.
  { left. apply lt_below in H1. split; [tauto|]. cbn. eauto. }
  destruct (lt lat (Finite (-90))) eqn:H2.
  { left. apply lt_below in H2. split; [tauto|]. cbn. eauto. }
  right. split; [|reflexivity].
  intros [-> | [-> | [H | H]]]; try discriminate;
    apply lt_below in H; congruence.
Qed.

Example LngLat_new_ok :
  LngLat_new (Finite (-73.9749)) (Finite 40.7736)
  = Ok (mkLngLat (Finite (-73.9749)) (Finite 40.7736)).
Proof.
  unfold LngLat_new, gt, lt. cbn.
  destruct (Rlt_dec 90 40.7736); [lra|].
  destruct (Rlt_dec 40.7736 (-90)); [lra|]. reflexivity.
Qed.

Example LngLat_new_NaN : LngLat_new NaN (Finite 0) = Throw (Error "Invalid LngLat object").
Proof. reflexivity. Qed.

Example LngLat_new_infinite_lat :
  LngLat_new (Finite 0) (Infinity false)
  = Throw (Error "Invalid LngLat latitude value: must be between -90 and 90").
Proof. reflexivity. Qed.

End GeoFacts.

(** * Properties of the camera *)

Module CameraFacts.
Import Camera.

Local Open Scope R_scope.

(** ** Bearings *)

Lemma wrap_range n min max : min < max -> min <= wrap n min max < max.
Proof.
  intros Hlt. unfold wrap.
  set (d := max - min). set (q := (n - min) / d).
  assert (Hd : 0 < d) by (unfold d; lra).
  destruct (base_Int_part q) as [H1 H2].
  assert (Hq : n - min = q * d) by (unfold q; field; lra).
  assert (Hmax : max = min + d) by (unfold d; lra).
  split; [|rewrite Hmax]; nra.
Qed.

Lemma wrap_id n min max : min <= n < max -> wrap n min max = n.
Proof.
  intros [H1 H2]. unfold wrap.
  set (d := max - min). set (q := (n - min) / d).
  assert (Hd : 0 < d) by (unfold d; lra).
  assert (Hq : n - min = q * d) by (unfold q; field; lra).
  rewrite <- (Int_part_spec q 0); [simpl; lra|].
  unfold d in *. simpl. split; nra.
Qed.

(** Cases on the signs under the absolute values. *)
Ltac abs_cases :=
  unfold Rabs in *;
  repeat match goal with
         | |- context [Rcase_abs ?x] => destruct (Rcase_abs x)
         | H : context [Rcase_abs ?x] |- _ => destruct (Rcase_abs x)
         end.

(** The result is one of the three representatives of the wrapped bearing,
    and none of them is nearer to the current bearing. *)
Lemma normalizeBearing_closest (bearing currentBearing : R) :
  let b := wrap bearing (-180) 180 in
  let r := _normalizeBearing bearing currentBearing in
  (r = b \/ r = b - 360 \/ r = b + 360)
  /\ Rabs (r - currentBearing) <= Rabs (b - currentBearing)
  /\ Rabs (r - currentBearing) <= Rabs (b - 360 - currentBearing)
  /\ Rabs (r - currentBearing) <= Rabs (b + 360 - currentBearing).
Proof.
  intros b r. subst r. unfold _normalizeBearing. fold b.
  destruct (Rlt_dec (Rabs (b - 360 - currentBearing)) (Rabs (b - currentBearing)))
    as [H1|H1];
  match goal with
  | |- context [Rlt_dec ?u ?v] => destruct (Rlt_dec u v) as [H2|H2]
  end;
  abs_cases; repeat split; lra.
Qed.

Lemma normalizeBearing_10_350 : _normalizeBearing 10 350 = 370.
Proof.
  unfold _normalizeBearing. rewrite (wrap_id 10) by lra.
  destruct (Rlt_dec (Rabs (10 - 360 - 350)) (Rabs (10 - 350))) as [H1|H1];
  match goal with
  | |- context [Rlt_dec ?u ?v] => destruct (Rlt_dec u v) as [H2|H2]
  end;
  abs_cases; lra.
Qed.

(** The claim of C5 fails for a current bearing far from [[-180, 180]]: from
    1000 degrees the target 0 becomes 360, which is 640 degrees away. *)
Lemma normalizeBearing_far :
  _normalizeBearing 0 1000 = 360
  /\ ~ Rabs (_normalizeBearing 0 1000 - 1000) <= 180.
Proof.
  assert (H : _normalizeBearing 0 1000 = 360).
  { unfold _normalizeBearing. rewrite (wrap_id 0) by lra.
    destruct (Rlt_dec (Rabs (0 - 360 - 1000)) (Rabs (0 - 1000))) as [H1|H1];
    match goal with
    | |- context [Rlt_dec ?u ?v] => destruct (Rlt_dec u v) as [H2|H2]
    end;
    abs_cases; lra. }
  split; [exact H|]. rewrite H. abs_cases; lra.
Qed.

(** C5, amended. For every target bearing and every current bearing within
    [[-360, 360]], [_normalizeBearing] returns the one of target, target - 360
    and target + 360 (target wrapped into [[-180, 180)]) that is nearest to the
    current bearing, and the result is at most 180 degrees from the current
    bearing; [_normalizeBearing(10, 350)] is 370. *)
Theorem normalizeBearing_within_180 (bearing currentBearing : R) :
  -360 <= currentBearing <= 360 ->
  let b := wrap bearing (-180) 180 in
  let r := _normalizeBearing bearing currentBearing in
  (r = b \/ r = b - 360 \/ r = b + 360)
  /\ Rabs (r - currentBearing) <= Rabs (b - currentBearing)
  /\ Rabs (r - currentBearing) <= Rabs (b - 360 - currentBearing)
  /\ Rabs (r - currentBearing) <= Rabs (b + 360 - currentBearing)
  /\ Rabs (r - currentBearing) <= 180
  /\ _normalizeBearing 10 350 = 370.
Proof.
  intros Hc b r.
  destruct (normalizeBearing_closest bearing currentBearing) as (H0 & H1 & H2 & H3).
  fold b r in H0, H1, H2, H3.
  assert (Hb : -180 <= b < 180) by (apply wrap_range; lra).
  repeat split; try assumption; [|apply normalizeBearing_10_350].
  clear H0. abs_cases; lra.
Qed.

Lemma normalizeBearing_within_180_witness :
  Rabs (_normalizeBearing 10 350 - 350) <= 180.
Proof.
  apply (normalizeBearing_within_180 10 350). lra.
Defined.

(** ** The flight path *)

Lemma cosh_pos x : 0 < cosh x.
Proof.
  unfold cosh. pose proof (exp_pos x). pose proof (exp_pos (- x)). lra.
Qed.

Lemma cosh_even x : cosh (- x) = cosh x.
Proof. unfold cosh. rewrite Ropp_involutive. lra. Qed.

Lemma exp_ge_1 x : 0 <= x -> 1 <= exp x.
Proof.
  intros [H| <-]; [|rewrite exp_0; lra].
  rewrite <- exp_0. left. by apply exp_increasing.
Qed.

Lemma cosh_increasing x y : 0 <= x -> x <= y -> cosh x <= cosh y.
Proof.
  intros Hx Hxy. unfold cosh. rewrite !exp_Ropp.
  pose proof (exp_ge_1 x Hx) as Ha.
  assert (Hab : exp x <= exp y).
  { destruct Hxy as [H| ->]; [left; by apply exp_increasing|lra]. }
  set (a := exp x) in *. set (b := exp y) in *.
  assert (Hia : a * / a = 1) by (apply Rinv_r; lra).
  assert (Hib : b * / b = 1) by (apply Rinv_r; lra).
  assert (0 < / a) by (apply Rinv_0_lt_compat; lra).
  assert (0 < / b) by (apply Rinv_0_lt_compat; lra).
  assert (Hd : / a - / b = (b - a) * (/ a * / b)) by (field; lra).
  assert (Hp : / a * / b <= 1) by nra.
  assert (0 <= (b - a) * (1 - / a * / b)) by (apply Rmult_le_pos; lra).
  lra.
Qed.

Lemma cosh_abs_le x y : Rabs x <= Rabs y -> cosh x <= cosh y.
Proof.
  intros H.
  assert (Hx : cosh x = cosh (Rabs x)).
  { unfold Rabs. destruct (Rcase_abs x); [by rewrite cosh_even|done]. }
  assert (Hy : cosh y = cosh (Rabs y)).
  { unfold Rabs. destruct (Rcase_abs y); [by rewrite cosh_even|done]. }
  rewrite Hx, Hy. apply cosh_increasing; [apply Rabs_pos|done].
Qed.

Lemma cosh_0 : cosh 0 = 1.
Proof. unfold cosh. rewrite Ropp_0, exp_0. lra. Qed.

Lemma cosh_gt_1 x : x <> 0 -> 1 < cosh x.
Proof.
  intros Hx. unfold cosh. rewrite exp_Ropp.
  pose proof (exp_pos x) as Ha.
  assert (Hne : exp x <> 1).
  { rewrite <- exp_0. intros H. apply exp_inv in H. done. }
  set (a := exp x) in *.
  assert (Hia : a * / a = 1) by (apply Rinv_r; lra).
  assert (0 < / a) by (apply Rinv_0_lt_compat; lra).
  assert (0 < (a - 1) * (a - 1)) by nra.
  nra.
Qed.

(** [ln (sqrt (b * b + 1) - b)] has the sign opposite to [b]. *)
Lemma zoom_out_factor_neg b : 0 < b -> ln (sqrt (b * b + 1) - b) < 0.
Proof.
  intros Hb.
  pose proof (sqrt_pos (b * b + 1)) as Hs.
  pose proof (sqrt_def (b * b + 1) ltac:(nra)) as Hd.
  set (q := sqrt (b * b + 1)) in *.
  rewrite <- ln_1. apply ln_increasing; nra.
Qed.

Lemma zoom_out_factor_pos b : b < 0 -> 0 < ln (sqrt (b * b + 1) - b).
Proof.
  intros Hb.
  pose proof (sqrt_pos (b * b + 1)) as Hs.
  pose proof (sqrt_def (b * b + 1) ltac:(nra)) as Hd.
  set (q := sqrt (b * b + 1)) in *.
  rewrite <- ln_1. apply ln_increasing; nra.
Qed.

Section FlightSpan.

Variables w0 w1 u1 rho : R.

Let w := fly_w w0 w1 u1 rho.
Let r0 := Camera.r0 w0 w1 u1 rho.

(** The span is the larger, the nearer [r0 + rho * s] is to zero. *)
Lemma fly_w_le s t :
  Rabs (r0 + rho * t) <= Rabs (r0 + rho * s) -> w s <= w t.
Proof using Type.
  intros H. unfold w, fly_w. fold r0.
  apply cosh_abs_le in H.
  pose proof (cosh_pos r0). pose proof (cosh_pos (r0 + rho * s)).
  pose proof (cosh_pos (r0 + rho * t)).
  apply Rmult_le_compat_l; [lra|]. by apply Rinv_le_contravar.
Qed.

Lemma fly_w_unimodal s1 s2 s3 :
  s1 <= s2 -> s2 <= s3 -> Rmin (w s1) (w s3) <= w s2.
Proof using Type.
  intros H12 H23.
  assert (Hcase : Rabs (r0 + rho * s2) <= Rabs (r0 + rho * s1)
                  \/ Rabs (r0 + rho * s2) <= Rabs (r0 + rho * s3)).
  { destruct (Rle_dec 0 rho); abs_cases; nra. }
  destruct Hcase as [H|H]; apply fly_w_le in H.
  - pose proof (Rmin_l (w s1) (w s3)). lra.
  - pose proof (Rmin_r (w s1) (w s3)). lra.
Qed.

Lemma fly_w_monotonic :
  0 < rho ->
  0 <= r0 \/ fly_r w0 w1 u1 rho true <= 0 ->
  monotonic_on w 0 (fly_S w0 w1 u1 rho).
Proof using Type.
  intros Hrho Hr.
  assert (HS : r0 + rho * fly_S w0 w1 u1 rho = fly_r w0 w1 u1 rho true).
  { unfold fly_S. fold r0. field. lra. }
  destruct Hr as [Hr|Hr]; [right|left]; intros s1 s2 Ha H12 Hb;
    apply fly_w_le; abs_cases; nra.
Qed.

End FlightSpan.

Lemma Rmax_same a : Rmax a a = a.
Proof. unfold Rmax. by destruct (Rle_dec a a). Qed.

(** The spans of a flight from [world0] one zoom level in, 500 pixels away. *)
Lemma fly_zoom_in_spans :
  flyTo_spans (E := sample_env) (flyTo_options (E := sample_env) fly_zoom_in) world0
  = (512, 256, 500, Some 1).
Proof.
  unfold flyTo_spans, getZoom, _normalizeCenter. cbn.
  destruct (Rlt_dec 180 (-144 - 0)) as [?|_]; [lra|].
  destruct (Rlt_dec (-144 - 0) (-180)) as [?|_]; [lra|].
  unfold Pt.mag, Pt.sub, zoomScale. cbn [x y lng lat].
  rewrite Rmax_same. replace (1 - 0) with 1 by lra. rewrite Rpower_1 by lra.
  replace (512 / 2) with 256 by lra.
  match goal with
  | |- context [sqrt ?e] => replace e with (500 * 500) by lra
  end.
  rewrite sqrt_square by lra. reflexivity.
Qed.

(** The claim of C9 fails.  From [world0], a viewport of 512 pixels, the
    flight one zoom level in to a center 500 pixels away with [curve = 1]
    has spans 512 and 256 and [r0 < 0 < r(1)]: the visible span first grows,
    up to [s = - r0], and then shrinks. *)
Lemma flight_span_not_monotonic :
  flyTo_spans (E := sample_env) (flyTo_options (E := sample_env) fly_zoom_in) world0
  = (512, 256, 500, Some 1)
  /\ getZoom world0 <> 1
  /\ ~ monotonic_on (fly_w 512 256 500 1) 0 (fly_S 512 256 500 1).
Proof.
  split; [exact fly_zoom_in_spans|]. split; [cbn; lra|].
  set (r0 := Camera.r0 512 256 500 1).
  set (r1 := fly_r 512 256 500 1 true).
  assert (H0 : r0 < 0).
  { unfold r0, Camera.r0, fly_r, rho2.
    apply zoom_out_factor_neg. lra. }
  assert (H1 : 0 < r1).
  { unfold r1, fly_r, rho2. apply zoom_out_factor_pos. lra. }
  assert (HS : fly_S 512 256 500 1 = r1 - r0).
  { unfold fly_S. fold r0 r1. field. }
  assert (Hw0 : fly_w 512 256 500 1 0 = 1).
  { unfold fly_w. fold r0. rewrite Rmult_0_r, Rplus_0_r.
    pose proof (cosh_pos r0). field. lra. }
  assert (Hwp : fly_w 512 256 500 1 (- r0) = cosh r0).
  { unfold fly_w. fold r0. replace (r0 + 1 * - r0) with 0 by lra.
    rewrite cosh_0. lra. }
  assert (HwS : fly_w 512 256 500 1 (r1 - r0) < cosh r0).
  { unfold fly_w. fold r0. replace (r0 + 1 * (r1 - r0)) with r1 by lra.
    pose proof (cosh_pos r0). pose proof (cosh_gt_1 r1 ltac:(lra)).
    assert (cosh r1 * / cosh r1 = 1) by (apply Rinv_r; lra).
    assert (0 < / cosh r1) by (apply Rinv_0_lt_compat; lra).
    unfold Rdiv. nra. }
  pose proof (cosh_gt_1 r0 ltac:(lra)) as Hc.
  rewrite HS. intros [Hinc|Hdec].
  - specialize (Hinc (- r0) (r1 - r0)). lra.
  - specialize (Hdec 0 (- r0)). lra.
Qed.

(** C9, amended. Along the general path the visible span [w(s) = cosh r0 /
    cosh (r0 + rho s)] has a single peak, where [r0 + rho s = 0]: between two
    points of the path it is never below the smaller of its values at the
    two.  It is monotonic over [[0, S]] when [r0 >= 0] or [r(1) <= 0]. *)
Theorem flight_span_unimodal (w0 w1 u1 rho : R) :
  0 < rho ->
  (forall s1 s2 s3, s1 <= s2 -> s2 <= s3 ->
     Rmin (fly_w w0 w1 u1 rho s1) (fly_w w0 w1 u1 rho s3) <= fly_w w0 w1 u1 rho s2)
  /\ (0 <= r0 w0 w1 u1 rho \/ fly_r w0 w1 u1 rho true <= 0 ->
      monotonic_on (fly_w w0 w1 u1 rho) 0 (fly_S w0 w1 u1 rho)).
Proof.
  intros Hrho. split.
  - intros s1 s2 s3. apply fly_w_unimodal.
  - by apply fly_w_monotonic.
Qed.

Lemma flight_span_unimodal_witness :
  Rmin (fly_w 512 256 500 1 0) (fly_w 512 256 500 1 2) <= fly_w 512 256 500 1 1.
Proof.
  apply (flight_span_unimodal 512 256 500 1); lra.
Defined.

(** ** Sessions *)

Section Sessions.
Context {E : Env}.

(** Evaluation of the methods on a world given by its fields, and of the
    projections of a world built by the updates. *)
Ltac crunch :=
  cbv [moved upd_camera upd_transform set_transform set_moving set_animating
       set_abortFn set_finishFn set_onEaseEnd set_prevEase set_animations
       set_timeouts fresh setTimeout fire _fireMoveEvents _easeToEnd _prepareEase run_frame
       frame_data camera fired animations timeouts nextId now warnOnceHistory
       console transform moving zooming rotating pitching _abortFn _finishFn
       _onEaseEnd _prevEase e_around e_eventData e_startZoom e_zoom e_startBearing
       e_bearing e_startPitch e_pitch e_from e_delta e_finalScale e_pointAtOffset
       f_startZoom f_startBearing f_bearing f_startPitch f_pitch f_from f_delta
       f_S f_w f_u f_pointAtOffset f_eventData];
  cbn [events start_list frame_list end_list map app]; rewrite <- ?app_assoc;
  cbn [app].

Ltac proj :=
  cbn [moved upd_camera upd_transform set_transform set_moving set_animating
       set_abortFn set_finishFn set_onEaseEnd set_prevEase set_animations
       set_timeouts fresh setTimeout fire camera fired animations timeouts
       nextId now warnOnceHistory console transform moving zooming rotating
       pitching _abortFn _finishFn _onEaseEnd _prevEase].

Ltac proj_in H :=
  cbn [moved upd_camera upd_transform set_transform set_moving set_animating
       set_abortFn set_finishFn set_onEaseEnd set_prevEase set_animations
       set_timeouts fresh setTimeout fire camera fired animations timeouts
       nextId now warnOnceHistory console transform moving zooming rotating
       pitching _abortFn _finishFn _onEaseEnd _prevEase] in H.

Ltac open_world w :=
  destruct w as [[?tr ?mv ?z ?r ?p ?ab ?fin ?oe ?pe] ?fi ?an ?ti ?ni ?nw ?wh ?co].

(** *** The steps of a session as changes of the world *)

Lemma easeToEnd_moved ed w :
  _easeToEnd ed w
  = moved (transform (camera w))
      (events (end_list (zooming (camera w)) (pitching (camera w))) ed)
      (upd_camera (set_animating false false false) (upd_camera (set_moving false) w)).
Proof.
  open_world w. destruct z, p; crunch; reflexivity.
Qed.

Lemma run_frame_moved frame k w :
  exists tr,
    run_frame frame k w
    = moved tr (events (frame_list (zooming (camera w)) (rotating (camera w))
                                   (pitching (camera w))) (frame_data frame)) w.
Proof.
  open_world w. destruct frame as [c|c].
  - destruct c as [? ? ? ? ? ? ? ? ? [[a ap]|] ? ?]; destruct z, r, p;
      crunch; eexists; reflexivity.
  - destruct c; destruct z, r, p; crunch; eexists; reflexivity.
Qed.
(** *** Stopping *)

Lemma live_abort id w :
  live (abort id w) = filter (fun a => ta_id a <> id) (live w).
Proof.
  unfold live, abort. cbn [animations set_animations].
  induction (animations w) as [|a l IH]; [reflexivity|].
  simpl. destruct (decide (ta_id a = id)) as [Heq|Hne].
  - rewrite filter_cons_False by (simpl; discriminate).
    rewrite IH. destruct (decide (ta_abort a = false)).
    + rewrite (filter_cons_True _ a) by done.
      rewrite filter_cons_False; [done|]. intros H. by apply H.
    + by rewrite (filter_cons_False _ a).
  - destruct (decide (ta_abort a = false)).
    + rewrite !filter_cons_True by done. by rewrite IH.
    + rewrite !(filter_cons_False _ a) by done. done.
Qed.

Lemma filter_none_of {A} (P Q : A -> Prop) `{!forall x, Decision (P x)} (l : list A) :
  Forall Q l -> (forall a, Q a -> ~ P a) -> filter P l = [].
Proof.
  intros Hall HQ. induction Hall as [|a l Ha _ IH]; [reflexivity|].
  rewrite filter_cons_False; [done|]. by apply HQ.
Qed.

Lemma run_finish_undelayed finish ed w :
  undelayed finish ed -> run_finish finish w = _easeToEnd ed w.
Proof. intros [->|[d [-> Hd]]]; cbn [run_finish]; [done|]. by rewrite Hd. Qed.

(** What a finish function leaves as it is, and what it adds. *)
Lemma run_finish_keeps finish w :
  exists evs,
    fired (run_finish finish w) = fired w ++ evs
    /\ _abortFn (camera (run_finish finish w)) = _abortFn (camera w)
    /\ _finishFn (camera (run_finish finish w)) = _finishFn (camera w)
    /\ animations (run_finish finish w) = animations w
    /\ transform (camera (run_finish finish w)) = transform (camera w)
    /\ (nextId w <= nextId (run_finish finish w))%nat.
Proof.
  open_world w. destruct finish as [d ed|ed]; cbn [run_finish].
  - destruct (truthy d).
    + exists []. crunch. rewrite app_nil_r. repeat split; lia.
    + destruct z, p; crunch; eexists; repeat split; lia.
  - destruct z, p; crunch; eexists; repeat split; lia.
Qed.

Lemma stop_idle w : _abortFn (camera w) = None -> stop w = Ok w.
Proof. intros H. unfold stop. by rewrite H. Qed.

Lemma stop_session id finish w :
  _abortFn (camera w) = Some id ->
  _finishFn (camera w) = Some finish ->
  stop w = Ok (run_finish finish
                 (upd_camera (set_finishFn None)
                    (upd_camera (set_abortFn None) (abort id w)))).
Proof.
  intros Ha Hf. unfold stop, _finishEase. rewrite Ha.
  open_world w. cbn in Hf. subst fin. reflexivity.
Qed.

Lemma abort_fresh id w n :
  Forall (fun a => (ta_id a < n)%nat) (animations w) ->
  Forall (fun a => (ta_id a < n)%nat) (animations (abort id w)).
Proof.
  unfold abort. cbn [animations set_animations]. intros H. apply Forall_fmap.
  eapply Forall_impl; [exact H|]. intros a Ha. cbn. by case_decide.
Qed.

Lemma well_formed_idle w :
  _abortFn (camera w) = None -> live w = [] ->
  Forall (fun a => (ta_id a < nextId w)%nat) (animations w) ->
  well_formed w.
Proof. intros Ha Hl Hf. unfold well_formed. by rewrite Ha. Qed.

(** The world [stop] leaves. *)
Lemma stop_ok w :
  well_formed w ->
  exists w1 evs,
    stop w = Ok w1
    /\ fired w1 = fired w ++ evs
    /\ _abortFn (camera w1) = None
    /\ live w1 = []
    /\ well_formed w1
    /\ transform (camera w1) = transform (camera w).
Proof.
  intros [Hfresh Hw]. destruct (_abortFn (camera w)) as [id|] eqn:Ha.
  - destruct Hw as ([finish Hf] & Hlen & Hall).
    rewrite (stop_session id finish) by done.
    set (w0 := upd_camera (set_finishFn None) (upd_camera (set_abortFn None) (abort id w))).
    destruct (run_finish_keeps finish w0) as (evs & H1 & H2 & H3 & H4 & H5 & H6).
    assert (Hlive : live (run_finish finish w0) = []).
    { unfold live. rewrite H4. change (animations w0) with (animations (abort id w)).
      fold (live (abort id w)). rewrite live_abort.
      eapply filter_none_of; [exact Hall|]. intros a Hid Hne. by apply Hne. }
    exists (run_finish finish w0), evs.
    split; [done|]. split; [exact H1|]. split; [by rewrite H2|].
    split; [exact Hlive|]. split; [|exact H5].
    apply well_formed_idle; [by rewrite H2|done|].
    rewrite H4. eapply Forall_impl; [apply (abort_fresh id w), Hfresh|].
    cbn beta. intros a Hlt. change (nextId w0) with (nextId w) in H6. lia.
  - rewrite stop_idle by done. exists w, []. rewrite app_nil_r.
    repeat split; try done. unfold well_formed. by rewrite Ha.
Qed.

Lemma stop_twice w w1 : stop w = Ok w1 -> stop w1 = Ok w1.
Proof.
  unfold stop. destruct (_abortFn (camera w)) as [id|] eqn:Ha.
  - unfold _finishEase.
    match goal with
    | |- context [match ?f with Some _ => _ | None => _ end = _] =>
        destruct f as [finish|] eqn:Hf; [|discriminate]
    end.
    intros [= <-].
    match goal with
    | |- context [run_finish finish ?x] =>
        destruct (run_finish_keeps finish x) as (evs & _ & H2 & _)
    end.
    by rewrite H2.
  - intros [= <-]. by rewrite Ha.
Qed.

Lemma stop_transform w w1 :
  stop w = Ok w1 -> transform (camera w1) = transform (camera w).
Proof.
  unfold stop. destruct (_abortFn (camera w)) as [id|] eqn:Ha.
  - unfold _finishEase.
    match goal with
    | |- context [match ?f with Some _ => _ | None => _ end = _] =>
        destruct f as [finish|] eqn:Hf; [|discriminate]
    end.
    intros [= <-].
    match goal with
    | |- context [run_finish finish ?x] =>
        destruct (run_finish_keeps finish x) as (evs & _ & _ & _ & _ & H5 & _)
    end.
    by rewrite H5.
  - by intros [= <-].
Qed.

(** *** Starting an ease *)

Lemma prepareEase_moved ed nms w :
  _prepareEase ed nms w
  = moved (transform (camera w))
      (events (start_list nms (zooming (camera w)) (pitching (camera w))) ed)
      (upd_camera (set_moving true) w).
Proof.
  open_world w. destruct nms, z, p; crunch; rewrite ?app_nil_r; reflexivity.
Qed.

(** The world in which [_ease] has registered an animation. *)
Lemma ease_pending frame finish animate duration easing w :
  (if decide (animate = Some false) then 0 else duration) <> 0 ->
  _ease frame finish animate duration easing w
  = Ok (mkWorld (set_abortFn (Some (nextId w)) (set_finishFn (Some finish) (camera w)))
          (fired w)
          (animations w
           ++ [mkTimedAnim (nextId w) frame easing
                 (if decide (animate = Some false) then 0 else duration) false])
          (timeouts w) (S (nextId w)) (now w) (warnOnceHistory w) (console w)).
Proof.
  intros Hd. unfold _ease.
  destruct (Req_dec_T _ 0) as [H0|_]; [done|]. reflexivity.
Qed.

(** The world in which [_ease], without a duration, has run the last frame
    and the finish function. *)
Lemma ease_immediate frame finish animate duration easing w :
  (if decide (animate = Some false) then 0 else duration) = 0 ->
  exists tr,
    _ease frame finish animate duration easing w
    = Ok (upd_camera (set_abortFn None)
            (run_finish finish
               (upd_camera (set_finishFn None)
                  (upd_camera (set_abortFn None)
                     (moved tr
                        (events (frame_list (zooming (camera w)) (rotating (camera w))
                                            (pitching (camera w))) (frame_data frame))
                        w))))).
Proof.
  intros Hd. unfold _ease.
  destruct (Req_dec_T _ 0) as [_|H0]; [|done].
  destruct (run_frame_moved frame (easing 1) (upd_camera (set_finishFn (Some finish)) w))
    as [tr ->].
  exists tr. unfold _finishEase. reflexivity.
Qed.

(** [_ease] on a camera without a running animation: it returns, and at
    most the new animation runs. *)
Lemma ease_ok frame finish animate duration easing w :
  live w = [] ->
  Forall (fun a => (ta_id a < nextId w)%nat) (animations w) ->
  exists w' evs,
    _ease frame finish animate duration easing w = Ok w'
    /\ fired w' = fired w ++ evs
    /\ well_formed w'.
Proof.
  intros Hlive Hfresh.
  destruct (decide ((if decide (animate = Some false) then 0 else duration) = 0))
    as [Hd|Hd].
  - destruct (ease_immediate frame finish animate duration easing w Hd) as [tr ->].
    match goal with
    | |- context [run_finish finish ?x] =>
        destruct (run_finish_keeps finish x) as (evs & H1 & H2 & H3 & H4 & H5 & H6);
        exists (upd_camera (set_abortFn None) (run_finish finish x))
    end.
    eexists. split; [reflexivity|]. split.
    + change (fired (upd_camera ?f ?x)) with (fired x). rewrite H1.
      cbn [fired upd_camera moved]. rewrite <- app_assoc. reflexivity.
    + apply well_formed_idle; [reflexivity| |].
      * unfold live. change (animations (upd_camera ?f ?x)) with (animations x).
        rewrite H4. exact Hlive.
      * change (animations (upd_camera ?f ?x)) with (animations x).
        change (nextId (upd_camera ?f ?x)) with (nextId x).
        rewrite H4. eapply Forall_impl; [exact Hfresh|].
        cbn beta. intros a Hlt. cbn [nextId upd_camera moved] in H6. lia.
  - rewrite ease_pending by done.
    eexists. exists []. split; [reflexivity|]. split.
    + cbn [fired]. by rewrite app_nil_r.
    + unfold well_formed. cbn [animations nextId camera _abortFn set_abortFn]. split.
      * apply Forall_app. split.
        -- eapply Forall_impl; [exact Hfresh|]. cbn beta. lia.
        -- apply Forall_singleton. cbn. lia.
      * unfold live. cbn [animations]. rewrite filter_app. fold (live w). rewrite Hlive.
        rewrite filter_cons_True by done. cbn.
        repeat split; [by eexists|lia|]. by apply Forall_singleton.
Qed.

(** *** Frames of a running animation *)

Lemma in_flight_moved id frame finish z r p tr evs w :
  in_flight id frame finish z r p w -> in_flight id frame finish z r p (moved tr evs w).
Proof. intros H. exact H. Qed.

Lemma tick_in_flight id frame finish z r p t w :
  in_flight id frame finish z r p w ->
  t <> 1 ->
  exists tr,
    tick id t w = Ok (moved tr (events (frame_list z r p) (frame_data frame)) w).
Proof.
  intros (Ha & Hf & <- & <- & <- & i & a & Hfind & <- & Hab) Ht.
  unfold tick. rewrite Hfind, Hab.
  destruct (run_frame_moved (ta_frame a) (ta_easing a t) w) as [tr ->].
  destruct (Req_dec_T t 1) as [?|_]; [done|]. by exists tr.
Qed.

Lemma last_tick id frame finish z r p ed w :
  in_flight id frame finish z r p w ->
  undelayed finish ed ->
  exists w',
    tick id 1 w = Ok w'
    /\ fired w' = fired w ++ events (frame_list z r p) (frame_data frame)
                          ++ events (end_list z p) ed
    /\ _abortFn (camera w') = None
    /\ zooming (camera w') = false.
Proof.
  intros (Ha & Hf & <- & <- & <- & i & a & Hfind & <- & Hab) Hfin.
  unfold tick. rewrite Hfind, Hab.
  destruct (run_frame_moved (ta_frame a) (ta_easing a 1) w) as [tr ->].
  destruct (Req_dec_T 1 1) as [_|?]; [|done].
  unfold _finishEase.
  proj. rewrite Hf. rewrite (run_finish_undelayed _ ed) by done.
  eexists. split; [reflexivity|]. rewrite easeToEnd_moved. proj.
  rewrite <- app_assoc. done.
Qed.

Lemma run_ticks_in_flight id frame finish z r p ed ts : forall w,
  in_flight id frame finish z r p w ->
  undelayed finish ed ->
  Forall (fun t => t <> 1) ts ->
  exists w',
    run_ticks id (ts ++ [1]) w = Ok w'
    /\ fired w' = fired w
                  ++ concat (map (fun _ => events (frame_list z r p) (frame_data frame))
                                 (ts ++ [1]))
                  ++ events (end_list z p) ed
    /\ _abortFn (camera w') = None
    /\ zooming (camera w') = false.
Proof.
  induction ts as [|t ts IH]; intros w Hw Hfin Hts.
  - destruct (last_tick _ _ _ _ _ _ _ _ Hw Hfin) as (w' & H1 & H2 & H3 & H4).
    exists w'. cbn [app run_ticks map concat]. rewrite H1. cbn. rewrite app_nil_r.
    done.
  - apply Forall_cons in Hts as [Ht Hts].
    destruct (tick_in_flight _ _ _ _ _ _ _ _ Hw Ht) as [tr Htick].
    cbn [app run_ticks]. rewrite Htick. cbn [mbind result_bind].
    destruct (IH _ (in_flight_moved _ _ _ _ _ _ tr
                      (events (frame_list z r p) (frame_data frame)) _ Hw) Hfin Hts)
      as (w' & H1 & H2 & H3 & H4).
    exists w'. split; [exact H1|]. split; [|done].
    rewrite H2. cbn [fired moved map concat]. rewrite <- !app_assoc. done.
Qed.

(** *** The methods on a camera at rest *)

Lemma easeTo_flyTo_options options ed w :
  easeTo (flyTo_options options) ed w = easeTo options ed w.
Proof. reflexivity. Qed.

Lemma run_finish_events finish w :
  fired (run_finish finish w)
  = fired w ++ finish_events finish (zooming (camera w)) (pitching (camera w)).
Proof.
  destruct finish as [d ed|ed]; cbn [run_finish finish_events].
  - destruct (truthy d).
    + open_world w. crunch. by rewrite app_nil_r.
    + rewrite easeToEnd_moved. reflexivity.
  - rewrite easeToEnd_moved. reflexivity.
Qed.

Lemma find_new (l : list TimedAnim) (a : TimedAnim) :
  Forall (fun b => (ta_id b < ta_id a)%nat) l ->
  list_find (fun b => ta_id b = ta_id a) (l ++ [a]) = Some (length l, a).
Proof.
  intros Hl. rewrite list_find_app_r.
  - cbn. rewrite decide_True by done. cbn. f_equal.
  - apply list_find_None. eapply Forall_impl; [exact Hl|]. cbn. lia.
Qed.

(** The world [_ease] leaves, on a camera without a running animation. *)
Lemma ease_result frame finish animate duration easing w :
  live w = [] ->
  Forall (fun a => (ta_id a < nextId w)%nat) (animations w) ->
  let z := zooming (camera w) in
  let r := rotating (camera w) in
  let p := pitching (camera w) in
  exists w',
    _ease frame finish animate duration easing w = Ok w'
    /\ well_formed w'
    /\ if decide ((if decide (animate = Some false) then 0 else duration) = 0)
       then fired w' = fired w ++ events (frame_list z r p) (frame_data frame)
                             ++ finish_events finish z p
            /\ _abortFn (camera w') = None
       else fired w' = fired w
            /\ in_flight (nextId w) frame finish z r p w'
            /\ transform (camera w') = transform (camera w).
Proof.
  intros Hlive Hfresh z r p.
  destruct (ease_ok frame finish animate duration easing w Hlive Hfresh)
    as (w' & evs & Hw' & _ & Hwf).
  exists w'. split; [exact Hw'|]. split; [exact Hwf|].
  destruct (decide ((if decide (animate = Some false) then 0 else duration) = 0))
    as [Hd|Hd].
  - destruct (ease_immediate frame finish animate duration easing w Hd) as [tr Hi].
    rewrite Hi in Hw'. injection Hw' as <-.
    change (fired (upd_camera ?f ?x)) with (fired x). rewrite run_finish_events.
    match goal with
    | |- context [run_finish finish ?x] =>
        destruct (run_finish_keeps finish x) as (? & _ & H2 & _)
    end.
    split; [|reflexivity]. proj. by rewrite <- app_assoc.
  - rewrite ease_pending in Hw' by done. injection Hw' as <-.
    split; [reflexivity|]. split; [|reflexivity].
    unfold in_flight. proj. repeat split.
    eexists _, _. split.
    { apply (find_new (animations w) (mkTimedAnim (nextId w) frame easing _ false)).
      exact Hfresh. }
    done.
Qed.

Lemma smooth_choice (b : bool) duration easing0 w :
  exists easing pe,
    (if b then _smoothOutEasing duration w else (easing0, w))
    = (easing, upd_camera (set_prevEase pe) w).
Proof. open_world w. destruct b; eexists _, _; reflexivity. Qed.

Lemma clearTimeout_keeps o w :
  fired (clearTimeout o w) = fired w
  /\ animations (clearTimeout o w) = animations w
  /\ nextId (clearTimeout o w) = nextId w
  /\ camera (clearTimeout o w) = camera w.
Proof. by destruct o. Qed.

(** [easeTo] on a camera at rest: the start events, then either an
    animation that runs or, without a duration, the last frame and the
    finish function. *)
Lemma easeTo_idle options ed w :
  _abortFn (camera w) = None ->
  live w = [] ->
  Forall (fun a => (ta_id a < nextId w)%nat) (animations w) ->
  let z := if Req_dec_T (default (getZoom w) (o_zoom options)) (getZoom w)
           then false else true in
  let p := if Req_dec_T (default (getPitch w) (o_pitch options)) (getPitch w)
           then false else true in
  let finish := EaseFinish (o_delayEndEvents options) ed in
  exists w' frame r,
    easeTo options ed w = Ok w'
    /\ well_formed w'
    /\ frame_data frame = ed
    /\ if decide ((if decide (o_animate options = Some false) then 0
                   else default 500 (o_duration options)) = 0)
       then fired w' = fired w ++ events (start_list (o_noMoveStart options) z p) ed
                             ++ events (frame_list z r p) ed
                             ++ finish_events finish z p
            /\ _abortFn (camera w') = None
       else fired w' = fired w ++ events (start_list (o_noMoveStart options) z p) ed
            /\ in_flight (nextId w) frame finish z r p w'
            /\ transform (camera w') = transform (camera w).
Proof.
  intros Ha Hlive Hfresh z p finish.
  unfold easeTo. rewrite stop_idle by done. cbn [mbind result_bind].
  match goal with
  | |- context [if ?b then _smoothOutEasing ?d w else (?e, w)] =>
      destruct (smooth_choice b d e w) as (easing & pe & ->)
  end.
  cbv zeta. unfold getZoom, getBearing, getPitch in *. proj.
  fold z p finish.
  match goal with
  | |- context [_ease ?f finish _ _ _ ?W0] =>
      set (frame := f); set (W := W0)
  end.
  match goal with
  | W := context [set_animating z ?r p] |- _ => set (r0 := r) in *
  end.
  assert (K : fired W = fired w ++ events (start_list (o_noMoveStart options) z p) ed
              /\ animations W = animations w
              /\ nextId W = nextId w
              /\ camera W = set_moving true
                              (set_animating z r0 p (set_prevEase pe (camera w)))).
  { unfold W.
    match goal with
    | |- context [clearTimeout ?o ?X] =>
        destruct (clearTimeout_keeps o X) as (K1 & K2 & K3 & K4)
    end.
    rewrite K1, K2, K3, K4, prepareEase_moved. proj.
    done. }
  destruct K as (K1 & K2 & K3 & K4).
  destruct (ease_result frame finish (o_animate options)
              (if decide (o_animate options = Some false) then 0
               else default 500 (o_duration options)) easing W)
    as (w' & Hw' & Hwf & Hcase).
  { unfold live. by rewrite K2. }
  { by rewrite K2, K3. }
  exists w', frame, r0. split; [exact Hw'|]. split; [exact Hwf|]. split; [reflexivity|].
  rewrite K4, K1, K3 in Hcase. proj_in Hcase.
  destruct (decide (o_animate options = Some false)) as [Han|Han].
  - rewrite decide_True in Hcase by done. rewrite decide_True by done.
    destruct Hcase as [-> ->]. split; [|done]. by rewrite <- !app_assoc.
  - destruct (decide (default 500 (o_duration options) = 0)) as [Hd|Hd].
    + destruct Hcase as [-> ->]. split; [|done]. by rewrite <- !app_assoc.
    + exact Hcase.
Qed.


(** [flyTo] along a path, on a camera without a running animation. *)
Lemma fly_along_idle path duration options ed w :
  live w = [] ->
  Forall (fun a => (ta_id a < nextId w)%nat) (animations w) ->
  let p := if Req_dec_T (default (getPitch w) (o_pitch options)) (getPitch w)
           then false else true in
  let finish := FlyFinish ed in
  exists w' c r,
    fly_along path duration options ed w = Ok w'
    /\ well_formed w'
    /\ f_eventData c = ed
    /\ (f_w c, f_u c, f_S c) = path
    /\ f_startZoom c = getZoom w
    /\ if decide ((if decide (o_animate options = Some false) then 0 else duration) = 0)
       then fired w' = fired w ++ events (start_list false true p) ed
                             ++ events (frame_list true r p) ed
                             ++ events (end_list true p) ed
            /\ _abortFn (camera w') = None
       else fired w' = fired w ++ events (start_list false true p) ed
            /\ in_flight (nextId w) (FlyFrame c) finish true r p w'
            /\ transform (camera w') = transform (camera w).
Proof.
  intros Hlive Hfresh p finish. destruct path as [[w_ u_] S_].
  unfold fly_along. cbv zeta. unfold getZoom, getBearing, getPitch in *.
  fold p finish.
  match goal with
  | |- context [_ease (FlyFrame ?f) finish _ _ _ ?W0] =>
      set (c := f); set (W := W0)
  end.
  match goal with
  | W := context [set_animating true ?r p] |- _ => set (r0 := r) in *
  end.
  assert (K : fired W = fired w ++ events (start_list false true p) ed
              /\ animations W = animations w
              /\ nextId W = nextId w
              /\ camera W = set_moving true (set_animating true r0 p (camera w))).
  { unfold W. rewrite prepareEase_moved. proj. done. }
  destruct K as (K1 & K2 & K3 & K4).
  destruct (ease_result (FlyFrame c) finish (o_animate options) duration
              (default ease (o_easing options)) W)
    as (w' & Hw' & Hwf & Hcase).
  { unfold live. by rewrite K2. }
  { by rewrite K2, K3. }
  exists w', c, r0.
  split; [exact Hw'|]. split; [exact Hwf|]. split; [reflexivity|].
  split; [reflexivity|]. split; [reflexivity|].
  rewrite K4, K1, K3 in Hcase. proj_in Hcase.
  destruct (decide ((if decide (o_animate options = Some false) then 0 else duration) = 0)).
  - destruct Hcase as [-> ->]. split; [|done]. by rewrite <- !app_assoc.
  - exact Hcase.
Qed.

(** [jumpTo] on a camera at rest. *)
Lemma jumpTo_idle options ed w :
  _abortFn (camera w) = None ->
  exists w' rest,
    jumpTo options ed w = Ok w'
    /\ fired w' = fired w ++ events ["movestart"; "move"] ed ++ rest
    /\ animations w' = animations w
    /\ nextId w' = nextId w
    /\ _abortFn (camera w') = None.
Proof.
  intros Ha. unfold jumpTo. rewrite stop_idle by done. cbn [mbind result_bind].
  open_world w. cbn in Ha. subst ab.
  cbv [getZoom getBearing getPitch]. cbv zeta.
  destruct (o_zoom options) as [zo|], (o_center options) as [ce|],
    (o_bearing options) as [be|], (o_pitch options) as [pi|];
    repeat match goal with
           | |- context [Req_dec_T ?a ?b] => destruct (Req_dec_T a b)
           end;
    crunch; eexists _, _; (split; [reflexivity|]); done.
Qed.

(** *** The methods while an animation runs *)

(** [stop] while an animation runs: the finish function is called. *)
Lemma stop_in_session id finish w :
  well_formed w ->
  _abortFn (camera w) = Some id ->
  _finishFn (camera w) = Some finish ->
  exists w1,
    stop w = Ok w1
    /\ fired w1 = fired w ++ finish_events finish (zooming (camera w)) (pitching (camera w))
    /\ _abortFn (camera w1) = None
    /\ live w1 = []
    /\ Forall (fun a => (ta_id a < nextId w1)%nat) (animations w1)
    /\ transform (camera w1) = transform (camera w).
Proof.
  intros Hwf Ha Hf.
  destruct (stop_ok w Hwf) as (w1 & evs & Hs & _ & H2 & H3 & H4 & H5).
  exists w1. split; [exact Hs|].
  rewrite (stop_session id finish) in Hs by done. injection Hs as <-.
  split; [|split; [exact H2|split; [exact H3|split; [apply H4|exact H5]]]].
  rewrite run_finish_events. reflexivity.
Qed.

Lemma easeTo_after_stop options ed w w1 :
  stop w = Ok w1 -> easeTo options ed w = easeTo options ed w1.
Proof.
  intros Hs. unfold easeTo. rewrite Hs, (stop_twice _ _ Hs). reflexivity.
Qed.

Lemma jumpTo_after_stop options ed w w1 :
  stop w = Ok w1 -> jumpTo options ed w = jumpTo options ed w1.
Proof.
  intros Hs. unfold jumpTo. rewrite Hs, (stop_twice _ _ Hs). reflexivity.
Qed.


Lemma flyTo_spans_transform options w w1 :
  transform (camera w1) = transform (camera w) ->
  flyTo_spans options w1 = flyTo_spans options w.
Proof. unfold flyTo_spans, getZoom. by intros ->. Qed.

(** [flyTo] once the camera has stopped. *)
Lemma flyTo_unfold options ed w w1 w0 w1' u1 rho :
  stop w = Ok w1 ->
  flyTo_spans (flyTo_options options) w = (w0, w1', u1, rho) ->
  flyTo options ed w
  = match flight_path w0 w1' u1 rho with
    | None => None
    | Some Fallback => Some (easeTo options ed w1)
    | Some (Along w_ u_ S_ rho) =>
        match fly_duration S_ rho (flyTo_options options) with
        | None => None
        | Some duration =>
            Some (fly_along (w_, u_, S_) duration (flyTo_options options) ed w1)
        end
    end.
Proof.
  intros Hs Hsp. unfold flyTo. rewrite Hs.
  rewrite (flyTo_spans_transform _ w w1) by (by apply stop_transform).
  rewrite Hsp. destruct (flight_path w0 w1' u1 rho) as [[|]|]; reflexivity.
Qed.



(** *** The claims on sessions *)

Lemma clamp_id n min max : min <= n <= max -> clamp n min max = n.
Proof.
  intros [H1 H2]. unfold clamp. rewrite (Rmax_right min n) by lra.
  by rewrite Rmin_right.
Qed.






(** C4, amended. On a camera at rest at zoom 0, with a zoom range that
    contains 5, [jumpTo({zoom: 5})] returns with the zoom at 5 and has fired
    [movestart], [move], [zoomstart], [zoom], [zoomend], [moveend], in this
    order and nothing else; center, bearing and pitch are as before.  With
    the zoom it already has, [jumpTo({zoom: 0})], it fires only [movestart],
    [move], [moveend]. *)
Theorem jumpTo_zoom_5 ed w :
  getZoom w = 0 ->
  _abortFn (camera w) = None ->
  minZoom (transform (camera w)) <= 5 <= maxZoom (transform (camera w)) ->
  exists w' w'',
    jumpTo (zoom_to 5) ed w = Ok w'
    /\ getZoom w' = 5
    /\ fired w' = fired w ++ events ["movestart"; "move"; "zoomstart"; "zoom";
                                     "zoomend"; "moveend"] ed
    /\ center (transform (camera w')) = center (transform (camera w))
    /\ bearing (transform (camera w')) = bearing (transform (camera w))
    /\ pitch (transform (camera w')) = pitch (transform (camera w))
    /\ jumpTo (zoom_to 0) ed w = Ok w''
    /\ fired w'' = fired w ++ events ["movestart"; "move"; "moveend"] ed
    /\ transform (camera w'') = transform (camera w).
Proof.
  intros Hz Hidle Hr. unfold jumpTo. rewrite stop_idle by done.
  cbn [mbind result_bind]. open_world w.
  cbv [getZoom camera transform] in Hz. cbv [camera transform] in Hr.
  cbv [getZoom getBearing getPitch zoom_to o_zoom o_center o_bearing o_pitch].
  cbv zeta. cbn [camera transform default from_option].
  rewrite Hz.
  destruct (Req_dec_T 0 5) as [?|_]; [lra|].
  destruct (Req_dec_T 0 0) as [_|?]; [|done].
  crunch. eexists _, _. split; [reflexivity|].
  split; [by apply clamp_id|]. done.
Qed.





(** Along the zoom-only path the visible span goes from [w0] to [w1]
    geometrically, whatever [rho] is. *)
Lemma zoom_curve w0 w1 rho t :
  0 < w0 -> 0 < w1 -> rho <> 0 ->
  zoom_w w0 w1 rho (t * zoom_S w0 w1 rho) = Rpower (w1 / w0) t.
Proof.
  intros H0 H1 Hr. unfold zoom_w, zoom_S, zoom_k, Rpower. f_equal.
  assert (Hq : 0 < w1 / w0) by (apply Rdiv_lt_0_compat; lra).
  destruct (Rlt_dec w1 w0) as [Hlt|Hge].
  - assert (w1 / w0 < 1).
    { apply (Rmult_lt_reg_r w0); [lra|]. unfold Rdiv.
      rewrite Rmult_assoc, Rinv_l by lra. lra. }
    assert (ln (w1 / w0) < 0) by (rewrite <- ln_1; by apply ln_increasing).
    rewrite Rabs_left by lra. field. lra.
  - assert (1 <= w1 / w0).
    { apply (Rmult_le_reg_r w0); [lra|]. unfold Rdiv.
      rewrite Rmult_assoc, Rinv_l by lra. lra. }
    assert (0 <= ln (w1 / w0)).
    { destruct (Req_dec_T (w1 / w0) 1) as [->|Hne]; [rewrite ln_1; lra|].
      rewrite <- ln_1. apply Rlt_le, ln_increasing; lra. }
    rewrite Rabs_right by lra. field. lra.
Qed.

(** The zoom a frame of [flyTo] leaves, when [setLocationAtPoint] keeps the
    zoom. *)
Lemma fly_frame_zoom c k w :
  CameraMethods.keeps_attitude E ->
  getZoom (run_frame (FlyFrame c) k w)
  = clamp (f_startZoom c + scaleZoom (1 / f_w c (k * f_S c)))
          (minZoom (transform (camera w))) (maxZoom (transform (camera w))).
Proof.
  intros Hatt. open_world w. destruct c. unfold getZoom.
  destruct z, r, p; crunch;
    match goal with
    | |- zoom (setLocationAtPoint ?t ?l ?q) = _ =>
        rewrite (proj1 (Hatt t l q))
    end; reflexivity.
Qed.

(** C1. When the path of [flyTo] has no length on the ground ([u1] below a
    millionth of a pixel), [flyTo] does not fly.  If the spans are equal too
    it is the call of [easeTo] with the same options and event data, so with
    the duration and easing of [easeTo].  If they differ, the viewport has a
    size and [rho] and the duration are real numbers, with [rho] not zero, it
    runs the purely exponential zoom [w(s) = exp (k rho s)], [u(s) = 0]: the
    session starts as any flight does; at the eased time [t] the visible span
    is [w0 (w1 / w0)^t] and nothing moves along the ground, and the frame
    leaves the zoom that is the part [t] of the way from the start zoom to
    the target, whatever [rho] is (the zoom held within the zoom range, and
    [setLocationAtPoint] taken to keep the zoom). *)
Theorem flyTo_degenerate options ed w w0 w1' u1 rho :
  flyTo_spans (flyTo_options options) w = (w0, w1', u1, rho) ->
  Rabs u1 < 0.000001 ->
  (Rabs (w0 - w1') < 0.000001 -> flyTo options ed w = Some (easeTo options ed w))
  /\ (~ Rabs (w0 - w1') < 0.000001 ->
      well_formed w ->
      0 < w0 ->
      forall rho' duration,
        rho = Some rho' ->
        rho' <> 0 ->
        fly_duration (zoom_S w0 w1' rho') rho' (flyTo_options options) = Some duration ->
        exists w1 w' c r p,
          stop w = Ok w1
          /\ flyTo options ed w = Some (Ok w')
          /\ (f_w c, f_u c, f_S c)
             = (fun s => exp (zoom_k w0 w1' * rho' * s), fun _ => 0,
                Rabs (ln (w1' / w0)) / rho')
          /\ (forall t, f_w c (t * f_S c) = Rpower (w1' / w0) t)
          /\ (if decide ((if decide (o_animate options = Some false) then 0
                          else duration) = 0)
              then fired w' = fired w1 ++ events (start_list false true p) ed
                                      ++ events (frame_list true r p) ed
                                      ++ events (end_list true p) ed
                   /\ isEasing w' = false
              else fired w' = fired w1 ++ events (start_list false true p) ed
                   /\ in_flight (nextId w1) (FlyFrame c) (FlyFinish ed) true r p w')
          /\ (CameraMethods.keeps_attitude E ->
              forall t W,
                getZoom (run_frame (FlyFrame c) t W)
                = clamp (interpolate (getZoom w) (default (getZoom w) (o_zoom options)) t)
                        (minZoom (transform (camera W)))
                        (maxZoom (transform (camera W))))).
Proof.
  intros Hsp Hu. split.
  - intros Hw. destruct (stop w) as [w1|e] eqn:Hs.
    + rewrite (flyTo_unfold _ _ _ _ _ _ _ _ Hs Hsp). unfold flight_path.
      destruct (Rlt_dec (Rabs u1) 0.000001) as [_|?]; [|done].
      destruct (Rlt_dec (Rabs (w0 - w1')) 0.000001) as [_|?]; [|done].
      by rewrite (easeTo_after_stop _ _ _ _ Hs).
    + unfold flyTo, easeTo. by rewrite Hs.
  - intros Hw Hwf H0 rho' duration -> Hrho Hdur.
    assert (Hspans : w0 = Rmax (width (transform (camera w))) (height (transform (camera w)))
                     /\ w1' = w0 / zoomScale (default (getZoom w) (o_zoom options)
                                             - getZoom w)).
    { unfold flyTo_spans in Hsp. cbv zeta in Hsp. injection Hsp as <- <- _ _. done. }
    destruct Hspans as [_ Hw1].
    set (dz := default (getZoom w) (o_zoom options) - getZoom w) in *.
    assert (Hscale : 0 < zoomScale dz) by apply exp_pos.
    assert (H1 : 0 < w1') by (rewrite Hw1; by apply Rdiv_lt_0_compat).
    assert (Hq : 0 < w1' / w0) by (by apply Rdiv_lt_0_compat).
    destruct (stop_ok w Hwf) as (w1 & evs & Hs & _ & H2 & H3 & [H4 _] & H5).
    destruct (fly_along_idle (zoom_w w0 w1' rho', zoom_u, zoom_S w0 w1' rho') duration
                (flyTo_options options) ed w1 H3 H4)
      as (w' & c & r & Hw' & Hwf' & _ & Hc & Hz & Hcase).
    exists w1, w', c, r. eexists.
    split; [exact Hs|]. split.
    { rewrite (flyTo_unfold _ _ _ _ _ _ _ _ Hs Hsp). unfold flight_path.
      destruct (Rlt_dec (Rabs u1) 0.000001) as [_|?]; [|done].
      destruct (Rlt_dec (Rabs (w0 - w1')) 0.000001) as [?|_]; [done|].
      destruct (Req_dec_T w0 0) as [?|_]; [lra|].
      destruct (Rle_dec (w1' / w0) 0) as [?|_]; [lra|].
      destruct (Req_dec_T rho' 0) as [?|_]; [done|].
      by rewrite Hdur, Hw'. }
    split; [exact Hc|].
    injection Hc as Hcw Hcu HcS.
    assert (Hcurve : forall t, f_w c (t * f_S c) = Rpower (w1' / w0) t).
    { intros t. rewrite Hcw, HcS. by apply zoom_curve. }
    split; [exact Hcurve|]. split.
    { change (o_animate (flyTo_options options)) with (o_animate options) in Hcase.
      destruct (decide _); [|by destruct Hcase as (? & ? & _)].
      destruct Hcase as [Hf Ha]. split; [exact Hf|]. unfold isEasing. by rewrite Ha. }
    intros Hatt t W. rewrite fly_frame_zoom by done. f_equal.
    rewrite Hcurve, Hz. unfold getZoom. rewrite H5. fold (getZoom w).
    unfold scaleZoom, interpolate, Rdiv. rewrite Rmult_1_l, ln_Rinv by apply exp_pos.
    unfold Rpower at 1. rewrite ln_exp.
    assert (Hln : ln (w1' / w0) = - (dz * ln 2)).
    { rewrite Hw1. replace (w0 / zoomScale dz / w0) with (/ zoomScale dz)
        by (field; lra).
      rewrite ln_Rinv by done. unfold zoomScale, Rpower. by rewrite ln_exp. }
    unfold Rdiv in Hln. rewrite Hln. unfold dz.
    assert (ln 2 <> 0) by (pose proof ln_lt_2; lra).
    field. done.
Qed.

(** *** [fitBounds] *)

Lemma insert_sorted_perm a l : Permutation (insert_sorted a l) (a :: l).
Proof.
  induction l as [|b l IH]; [done|]. cbn [insert_sorted].
  case_decide; [done|]. rewrite IH. apply perm_swap.
Qed.

Example sort_keys_default :
  sort_keys ["top"; "bottom"; "right"; "left"] = ["bottom"; "left"; "right"; "top"].
Proof. reflexivity. Qed.

Lemma sort_keys_perm l : Permutation (sort_keys l) l.
Proof.
  induction l as [|a l IH]; [done|]. cbn [sort_keys foldr].
  fold (sort_keys l). by rewrite insert_sorted_perm, IH.
Qed.

Lemma quotient_negative_spec a b :
  quotient_negative a b = true <-> negative_quotient a b.
Proof.
  unfold quotient_negative, negative_quotient.
  destruct (Req_dec_T b 0) as [Hb|Hb]; rewrite bool_decide_eq_true; tauto.
Qed.

Lemma warnOnce_spec message w :
  camera (warnOnce message w) = camera w
  /\ fired (warnOnce message w) = fired w
  /\ animations (warnOnce message w) = animations w
  /\ timeouts (warnOnce message w) = timeouts w
  /\ message ∈ warnOnceHistory (warnOnce message w)
  /\ console (warnOnce message w)
     = console w ++ (if decide (message ∈ warnOnceHistory w) then [] else [message]).
Proof.
  unfold warnOnce. case_decide; cbn.
  - by rewrite app_nil_r.
  - repeat split. apply elem_of_app. right. by apply list_elem_of_singleton.
Qed.

(** C6, amended. When [options.padding] is an object whose keys are not
    exactly [top], [bottom], [left] and [right], and when the padding is a
    number or an object and a computed scale is negative, [fitBounds] returns
    without throwing: it has passed one message to [util.warnOnce], which
    prints it unless it has printed it before, and has left the camera, its
    transform and the events as they were.  When [options.padding] is [null]
    or [undefined], [fitBounds] throws a [TypeError]. *)
Theorem fitBounds_rejects bounds options ed w :
  (bad_padding options \/ cannot_fit bounds options w ->
   exists message,
     fitBounds bounds options ed w = Some (Ok (warnOnce message w))
     /\ (message = padding_message \/ message = fit_message)
     /\ camera (warnOnce message w) = camera w
     /\ fired (warnOnce message w) = fired w
     /\ animations (warnOnce message w) = animations w
     /\ timeouts (warnOnce message w) = timeouts w
     /\ message ∈ warnOnceHistory (warnOnce message w)
     /\ console (warnOnce message w)
        = console w ++ (if decide (message ∈ warnOnceHistory w) then [] else [message]))
  /\ (no_padding options ->
      fitBounds bounds options ed w = Some (Throw (TypeError keys_message))).
Proof.
  split.
  - intros H.
    assert (exists padding, padding_props options = Some padding) as [padding Hp].
    { destruct H as [(props & Hp & _)|(padding & Hp & _)]; [|by exists padding].
      exists props. unfold padding_props. by rewrite Hp. }
    unfold fitBounds. rewrite Hp.
    destruct (decide (sort_keys (map fst padding)
                      = ["bottom"; "left"; "right"; "top"])) as [Hk|Hk].
    + destruct H as [(props & Hp' & Hbad)|(padding' & Hp' & Hfit)].
      { exfalso. apply Hbad. unfold padding_props in Hp. rewrite Hp' in Hp.
        injection Hp as <-.
        rewrite <- (sort_keys_perm (map fst props)), Hk.
        symmetry. apply (Permutation_cons_append ["bottom"; "left"; "right"] "top"). }
      rewrite Hp in Hp'. injection Hp' as <-.
      destruct (fit_scales bounds padding options w) as [[[nx dx] [ny dy]] offset].
      cbn [fst snd] in Hfit.
      assert (Hq : quotient_negative ny dy || quotient_negative nx dx = true).
      { apply orb_true_iff. rewrite !quotient_negative_spec. tauto. }
      rewrite Hq. exists fit_message. split; [done|]. split; [by right|].
      apply warnOnce_spec.
    + exists padding_message. split; [done|]. split; [by left|]. apply warnOnce_spec.
  - intros [Hn|Hn]; unfold fitBounds, padding_props; by rewrite Hn.
Qed.

End Sessions.

(** ** The camera stays well formed *)




Section Invariant.
Context {E : Env}.




End Invariant.

(** ** The claims on the example cameras *)

(** Comparisons of numerals. *)
Ltac decide_reals :=
  repeat match goal with
         | |- context [Rlt_dec ?a ?b] => destruct (Rlt_dec a b); try lra
         | H : context [Rlt_dec ?a ?b] |- _ => destruct (Rlt_dec a b); try lra
         | |- context [Req_dec_T ?a ?b] => destruct (Req_dec_T a b); try lra
         | H : context [Req_dec_T ?a ?b] |- _ => destruct (Req_dec_T a b); try lra
         | H : context [decide (?a = ?b :> R)] |- _ =>
             destruct (decide (a = b :> R)); try lra
         end.

Lemma world0_fresh : Forall (fun a => (ta_id a < nextId world0)%nat) (animations world0).
Proof. constructor. Qed.

(** The ease of [world_easing] runs, zooming. *)
Lemma world_easing_facts :
  exists frame r,
    well_formed world_easing
    /\ fired world_easing = events ["movestart"; "zoomstart"] "ease"
    /\ in_flight 0 frame (EaseFinish None "ease") true r false world_easing
    /\ transform (camera world_easing) = transform (camera world0).
Proof.
  destruct (easeTo_idle (E := sample_env) (zoom_to 3) "ease" world0
              eq_refl eq_refl world0_fresh)
    as (w' & frame & r & Hw' & Hwf & _ & Hcase).
  unfold world_easing, after. rewrite Hw'. exists frame, r.
  cbn in Hcase. rewrite (decide_False (P := None = Some false)) in Hcase by done.
  decide_reals. destruct Hcase as (H1 & H2 & H3). done.
Qed.


(** The claim of C4 fails on a camera that is easing: [jumpTo] first stops
    the ease, which fires [zoomend] and [moveend] before the six events. *)
Lemma jumpTo_while_easing :
  getZoom world_easing = 0
  /\ ~ exists w',
        jumpTo (zoom_to 5) "jump" world_easing = Ok w'
        /\ getZoom w' = 5
        /\ fired w' = fired world_easing
                      ++ events ["movestart"; "move"; "zoomstart"; "zoom";
                                 "zoomend"; "moveend"] "jump".
Proof.
  destruct world_easing_facts as (frame & r & Hwf & Hf & Hin & Htr).
  split; [unfold getZoom; by rewrite Htr|].
  intros (w' & Hj & _ & Hfired).
  destruct Hin as (Ha & Hfin & Hz & _ & Hp & _).
  destruct (stop_in_session 0 _ world_easing Hwf Ha Hfin)
    as (w1 & Hs & H1 & H2 & _).
  rewrite Hz, Hp in H1. cbn [finish_events truthy] in H1.
  rewrite (jumpTo_after_stop _ _ _ _ Hs) in Hj.
  destruct (jumpTo_idle (zoom_to 5) "jump" w1 H2) as (w2 & rest & Hj' & Hf' & _).
  rewrite Hj' in Hj. injection Hj as <-.
  rewrite Hf', H1, <- app_assoc in Hfired.
  apply app_inv_head in Hfired. discriminate.
Qed.

Lemma jumpTo_zoom_5_witness :
  exists w',
    jumpTo (zoom_to 5) "jump" world0 = Ok w'
    /\ getZoom w' = 5
    /\ fired w' = events ["movestart"; "move"; "zoomstart"; "zoom";
                          "zoomend"; "moveend"] "jump".
Proof.
  destruct (jumpTo_zoom_5 "jump" world0 eq_refl eq_refl ltac:(cbn; lra))
    as (w' & w'' & H1 & H2 & H3 & _).
  exists w'. split; [exact H1|]. split; [exact H2|exact H3].
Defined.


Lemma world0_well_formed : well_formed world0.
Proof. split; [constructor|reflexivity]. Qed.

Lemma mag_zero p : Pt.mag (Pt.sub p p) = 0.
Proof.
  unfold Pt.mag, Pt.sub. cbn [x y].
  match goal with |- sqrt ?e = _ => replace e with 0 by ring end.
  apply sqrt_0.
Qed.

(** From [world0] to zoom 1, nothing moves along the ground. *)
Lemma world0_zoom_spans :
  flyTo_spans (E := sample_env) (flyTo_options (E := sample_env) (zoom_to 1)) world0
  = (512, 256, 0, Some 1.42).
Proof.
  unfold flyTo_spans, getZoom, _normalizeCenter. cbn.
  rewrite mag_zero, Rmax_same. unfold zoomScale.
  replace (1 - 0) with 1 by lra. rewrite Rpower_1 by lra.
  replace (512 / 2) with 256 by lra. reflexivity.
Qed.


Lemma world0_zoom_duration :
  fly_duration (zoom_S 512 256 1.42) 1.42 (flyTo_options (E := sample_env) (zoom_to 1))
  = Some (1000 * zoom_S 512 256 1.42 / 1.2).
Proof.
  unfold fly_duration. cbn.
  destruct (Req_dec_T 1.2 0) as [?|_]; [lra|]. reflexivity.
Qed.





Lemma flyTo_degenerate_witness :
  flyTo (E := sample_env) no_options "fly" world0
  = Some (easeTo (E := sample_env) no_options "fly" world0)
  /\ exists w',
       flyTo (E := sample_env) (zoom_to 1) "fly" world0 = Some (Ok w').
Proof.
  split.
  - eapply (flyTo_degenerate (E := sample_env) no_options "fly" world0).
    + reflexivity.
    + cbn. rewrite mag_zero, Rabs_R0. lra.
    + cbn. unfold zoomScale. replace (0 - 0) with 0 by lra.
      rewrite Rpower_O by lra.
      match goal with
      | |- Rabs ?e < _ => replace e with 0 by field
      end.
      rewrite Rabs_R0. lra.
  - destruct (flyTo_degenerate (E := sample_env) (zoom_to 1) "fly" world0
                512 256 0 (Some 1.42) world0_zoom_spans) as [_ Hzoom].
    { rewrite Rabs_R0. lra. }
    destruct (Hzoom ltac:(rewrite Rabs_right; lra) world0_well_formed ltac:(lra)
                1.42 _ eq_refl ltac:(lra) world0_zoom_duration)
      as (w1 & w' & c & r & p & _ & Hfly & _).
    exists w'. exact Hfly.
Defined.

Lemma fitBounds_rejects_witness :
  (exists message,
     fitBounds (E := sample_env) (mkBounds (mkLngLat 0 0) (mkLngLat 1 1))
               padding_top "fit" world0
     = Some (Ok (warnOnce message world0)))
  /\ fitBounds (E := sample_env) (mkBounds (mkLngLat 0 0) (mkLngLat 1 1))
               padding_null "fit" world0
     = Some (Throw (TypeError keys_message)).
Proof.
  destruct (fitBounds_rejects (E := sample_env)
              (mkBounds (mkLngLat 0 0) (mkLngLat 1 1)) padding_top "fit" world0)
    as [Hwarn _].
  destruct Hwarn as (message & H & _).
  { left. exists [("top", 10)]. split; [reflexivity|].
    intros HP. apply Permutation_length in HP. discriminate. }
  split; [exists message; exact H|].
  apply (fitBounds_rejects (E := sample_env)).
  left. reflexivity.
Defined.

(** The claim of C6 fails for [{padding: null}], which is not a number and
    has no keys at all: [Object.keys] throws a [TypeError], before any
    warning. *)
Lemma fitBounds_null_padding :
  o_padding padding_null = Some PadNull
  /\ fitBounds (E := sample_env) (mkBounds (mkLngLat 0 0) (mkLngLat 1 1))
               padding_null "fit" world0
     = Some (Throw (TypeError keys_message))
  /\ ~ exists w',
        fitBounds (E := sample_env) (mkBounds (mkLngLat 0 0) (mkLngLat 1 1))
                  padding_null "fit" world0
        = Some (Ok w').
Proof.
  split; [reflexivity|]. split; [reflexivity|].
  intros (w' & H). discriminate H.
Qed.

(** With [{zoom: 2, minZoom: 0}] and no travel along the ground, [rho] is
    the square root of a division by zero: [flyTo] has no result among the
    real numbers. *)
Lemma flyTo_zoom_minZoom :
  flyTo (E := sample_env) zoom_minZoom "fly" world0 = None.
Proof.
  assert (Hsp : flyTo_spans (E := sample_env)
                  (flyTo_options (E := sample_env) zoom_minZoom) world0
                = (512, 128, 0, None)).
  { unfold flyTo_spans, getZoom, _normalizeCenter. cbn.
    rewrite mag_zero, Rmax_same. unfold zoomScale.
    replace (2 - 0) with (1 + 1) by lra.
    rewrite Rpower_plus, Rpower_1 by lra.
    destruct (Req_dec_T 0 0) as [_|?]; [|lra].
    replace (512 / (2 * 2)) with 128 by lra. reflexivity. }
  rewrite (flyTo_unfold (E := sample_env) zoom_minZoom "fly" world0 world0
             512 128 0 None eq_refl Hsp).
  unfold flight_path. rewrite Rabs_R0.
  destruct (Rlt_dec 0 0.000001) as [_|?]; [|lra].
  destruct (Rlt_dec (Rabs (512 - 128)) 0.000001) as [H|_]; [|reflexivity].
  rewrite Rabs_right in H by lra. lra.
Qed.

End CameraFacts.

(** * Properties of the [Evented] mixin *)

Module EventedFacts.
Import WorkerPool Evented.

Lemma splice_first_absent l ls : l ∉ ls -> splice_first l ls = ls.
Proof.
  induction ls as [|x ls IH]; [done|]. intros Hl. cbn [splice_first].
  apply not_elem_of_cons in Hl as [Hx Hl].
  destruct (decide (x = l)); [congruence|]. by rewrite IH.
Qed.

Lemma splice_first_snoc l ls : l ∉ ls -> splice_first l (ls ++ [l]) = ls.
Proof.
  induction ls as [|x ls IH]; intros Hl; cbn [splice_first app].
  - by rewrite decide_True.
  - apply not_elem_of_cons in Hl as [Hx Hl].
    destruct (decide (x = l)); [congruence|]. by rewrite IH.
Qed.

Lemma filter_absent (l : string) (ls : list string) :
  l ∉ ls -> filter (fun x => x <> l) ls = ls.
Proof.
  induction ls as [|x ls IH]; [done|]. intros [Hx Hl]%not_elem_of_cons.
  rewrite filter_cons_True by done. by rewrite IH.
Qed.

Lemma splice_first_filter l ls :
  NoDup ls -> splice_first l ls = filter (fun x => x <> l) ls.
Proof.
  induction ls as [|x ls IH]; [done|]. intros [Hx Hnd]%NoDup_cons.
  cbn [splice_first]. destruct (decide (x = l)) as [->|Hne].
  - rewrite filter_cons_False by (intros H; by apply H).
    by rewrite filter_absent.
  - rewrite filter_cons_True by done. by rewrite IH.
Qed.

(** Removing the listeners of a snapshot one by one leaves the list without
    them. *)
Lemma remove_all type (xs : list string) : forall r (m : gmap string (list string)),
  m !! type = Some (xs ++ r) ->
  foldl (fun ls l => _removeEventListener type l ls) m xs = <[type := r]> m.
Proof.
  induction xs as [|x xs IH]; intros r m Hm; cbn [foldl app] in *.
  - by rewrite insert_id.
  - unfold _removeEventListener at 2. rewrite Hm. cbn [splice_first].
    rewrite decide_True by done.
    rewrite (IH r) by (by rewrite lookup_insert_eq).
    by rewrite insert_insert_eq.
Qed.

Lemma permanent_spent type o : permanent type (spent type o) = permanent type o.
Proof. done. Qed.

Lemma oneTime_spent type o : oneTime type (spent type o) = [].
Proof.
  unfold oneTime, spent. cbn.
  destruct (_oneTimeListeners (o_evented o) !! type) eqn:H.
  - by rewrite lookup_insert_eq.
  - by rewrite H.
Qed.

Lemma spent_idle type o : oneTime type o = [] -> spent type o = o.
Proof.
  unfold oneTime, spent. destruct o as [n [ls ots] pd]. cbn.
  destruct (ots !! type) as [l|] eqn:H; [|done]. cbn. intros ->.
  by rewrite insert_id.
Qed.

Lemma listens_false type c :
  listens type c = false ->
  Forall (fun o => permanent type o = [] /\ oneTime type o = []) c.
Proof.
  induction c as [|o c IH]; [constructor|]. cbn [listens].
  intros [[H1 H2]%orb_false_elim H3]%orb_false_elim.
  apply bool_decide_eq_false in H1, H2. constructor; [|by apply IH].
  split; [destruct (permanent type o)|destruct (oneTime type o)];
    first [done | cbn in *; lia].
Qed.

Section Fire.
Variable endsWith : string -> string -> bool.

Lemma fire_chain type c : forall data,
  (fire endsWith type data c).1.1 = map (spent type) c.
Proof.
  induction c as [|o c IH]; intros data; [done|]. cbn [fire].
  destruct (listens type (o :: c)) eqn:Hl.
  - specialize (IH (Some (extend
        (Some (extend data (Some {["type" := type; "target" := o_name o]})))
        (_eventedParentData o)))).
    destruct (fire endsWith type _ c) as [[c' calls] out]. cbn in *. f_equal; [|done].
    unfold spent. f_equal. f_equal.
    unfold oneTime. destruct (_oneTimeListeners (o_evented o) !! type) as [l|] eqn:H.
    + cbn. apply remove_all. by rewrite app_nil_r.
    + done.
  - apply listens_false in Hl.
    assert (map (spent type) (o :: c) = o :: c) as ->; [|by destruct (endsWith _ _)].
    induction Hl as [|o' c' [_ H] _ IH']; [done|]. cbn. by rewrite spent_idle, IH'.
Qed.

Lemma fire_calls type c : forall data,
  map (fun k => (c_this k, c_listener k)) (fire endsWith type data c).1.2
  = flat_map (fun o => map (pair (o_name o)) (permanent type o ++ oneTime type o)) c.
Proof.
  induction c as [|o c IH]; intros data; [done|]. cbn [fire flat_map].
  destruct (listens type (o :: c)) eqn:Hl.
  - specialize (IH (Some (extend
        (Some (extend data (Some {["type" := type; "target" := o_name o]})))
        (_eventedParentData o)))).
    destruct (fire endsWith type _ c) as [[c' calls] out]. cbn in *.
    rewrite map_app, IH. f_equal. by rewrite map_map.
  - apply listens_false in Hl.
    assert (flat_map (fun o => map (pair (o_name o)) (permanent type o ++ oneTime type o))
              (o :: c) = []) as Hnil.
    { induction Hl as [|o' c' [H1 H2] _ IH']; [done|]. cbn. by rewrite H1, H2, IH'. }
    cbn [flat_map] in Hnil. rewrite Hnil. by destruct (endsWith _ _).
Qed.

(** X1. [fire] calls the listeners of the object and then those of each parent
    in turn; at each object the permanent listeners in the order of their
    registration, and then the one-time listeners. *)
Theorem fire_order type data (c : chain) :
  map (fun k => (c_this k, c_listener k)) (fire endsWith type data c).1.2
  = flat_map (fun o => map (pair (o_name o)) (permanent type o ++ oneTime type o)) c.
Proof. apply fire_calls. Qed.

(** X2. A one-time listener is called by the first event of its type and by no
    later one: the second of two events calls the permanent listeners of the
    chain and nothing else. *)
Theorem once_is_called_once type data data' (c : chain) :
  map (fun k => (c_this k, c_listener k))
      (fire endsWith type data' (fire endsWith type data c).1.1).1.2
  = flat_map (fun o => map (pair (o_name o)) (permanent type o)) c.
Proof.
  rewrite fire_calls, fire_chain. induction c as [|o c IH]; [done|].
  cbn [map flat_map]. rewrite IH, permanent_spent, oneTime_spent, app_nil_r.
  done.
Qed.

Lemma listens_last type (c : chain) root :
  last c = Some root ->
  permanent type root ++ oneTime type root <> [] -> listens type c = true.
Proof.
  induction c as [|o c IH]; [done|]. intros Hlast Hroot. cbn [listens].
  destruct c as [|o' c].
  - injection Hlast as ->. apply orb_true_iff. left. apply orb_true_iff.
    destruct (permanent type root) as [|x xs].
    + right. apply bool_decide_eq_true. destruct (oneTime type root); [done|cbn; lia].
    + left. apply bool_decide_eq_true. cbn. lia.
  - apply orb_true_iff. right. by apply IH.
Qed.

(** X3. An event is printed to the console exactly when its type ends in
    [error] and the root of the chain has no listener for it, whatever the
    objects below the root listen to; and it is printed once. *)
Theorem unhandled_error_printed type data (c : chain) :
  (length (fire endsWith type data c).2 <= 1)%nat
  /\ ((fire endsWith type data c).2 <> []
      <-> endsWith type "error" = true
          /\ exists root, last c = Some root
                          /\ permanent type root = [] /\ oneTime type root = []).
Proof.
  revert data. induction c as [|o c IH]; intros data.
  - cbn. split; [lia|]. split; [done|]. by intros (_ & root & H & _).
  - cbn [fire]. destruct (listens type (o :: c)) eqn:Hl.
    + specialize (IH (Some (extend
        (Some (extend data (Some {["type" := type; "target" := o_name o]})))
        (_eventedParentData o)))).
      destruct (fire endsWith type _ c) as [[c' calls] out] eqn:Hf. cbn in *.
      destruct IH as [IH1 IH2]. split; [done|]. rewrite IH2.
      destruct c as [|o' c].
      * cbn in Hf. injection Hf as <- <- <-. split; [by intros (_ & root & H & _)|].
        intros (_ & root & [= <-] & H1 & H2). exfalso.
        cbn in Hl. rewrite H1, H2 in Hl. cbn in Hl. done.
      * done.
    + apply listens_false in Hl. destruct (endsWith type "error") eqn:He; cbn.
      * split; [lia|]. split; [|done]. intros _. split; [done|].
        destruct (last (o :: c)) as [root|] eqn:Hlast.
        -- exists root. split; [done|]. rewrite Forall_forall in Hl.
           apply Hl. by apply last_Some_elem_of.
        -- by apply last_None in Hlast.
      * split; [lia|]. split; [done|]. by intros [? _].
Qed.

End Fire.

(** X4. Subscribing a listener that was not subscribed and unsubscribing it
    again leaves the listeners of every type as they were. *)
Theorem on_off (type listener : string) (h : evented) :
  listener ∉ default [] (_listeners h !! type) ->
  listener ∉ default [] (_oneTimeListeners h !! type) ->
  forall t,
    default [] (_listeners (off type listener (on type listener h)) !! t)
    = default [] (_listeners h !! t)
    /\ default [] (_oneTimeListeners (off type listener (on type listener h)) !! t)
       = default [] (_oneTimeListeners h !! t).
Proof.
  intros H1 H2 t. destruct h as [ls ots]. cbn in *. split.
  - unfold _removeEventListener, _addEventListener. rewrite lookup_insert_eq.
    rewrite splice_first_snoc by done. rewrite insert_insert_eq.
    destruct (decide (type = t)) as [<-|Hne].
    + by rewrite lookup_insert_eq.
    + by rewrite lookup_insert_ne.
  - unfold _removeEventListener. destruct (ots !! type) as [l|] eqn:H; [|done].
    cbn in H2. rewrite splice_first_absent by done. by rewrite insert_id.
Qed.

Lemma on_off_witness :
  default [] (_listeners (off "move" "f" (on "move" "f" (on "move" "g" no_listeners)))
              !! "move") = ["g"].
Proof.
  refine (proj1 (on_off "move" "f" (on "move" "g" no_listeners) _ _ "move"));
    apply (bool_decide_unpack _); vm_compute; exact I.
Defined.

Lemma removed_lookup type l (m : gmap string (list string)) :
  default [] (_removeEventListener type l m !! type)
  = splice_first l (default [] (m !! type)).
Proof.
  unfold _removeEventListener. destruct (m !! type) as [ls|] eqn:H.
  - by rewrite lookup_insert_eq.
  - by rewrite H.
Qed.

Lemma fire_alone endsWith type data (o : object) :
  map c_listener (fire endsWith type data [o]).1.2 = permanent type o ++ oneTime type o.
Proof.
  pose proof (fire_calls endsWith type [o] data) as H.
  apply (f_equal (map snd)) in H. rewrite map_map in H. cbn [flat_map] in H.
  rewrite app_nil_r, map_map in H. cbn in H. rewrite map_id in H. exact H.
Qed.

(** X5. Unsubscribing silences a listener that was subscribed once: the next
    event calls the other listeners as before, in the same order, and does
    not call this one. *)
Theorem off_silences endsWith type listener data name (h : evented) pd :
  NoDup (default [] (_listeners h !! type)) ->
  NoDup (default [] (_oneTimeListeners h !! type)) ->
  map c_listener (fire endsWith type data [Object name (off type listener h) pd]).1.2
  = filter (fun l => l <> listener)
      (map c_listener (fire endsWith type data [Object name h pd]).1.2).
Proof.
  intros H1 H2. rewrite !fire_alone. unfold permanent, oneTime. cbn.
  rewrite !removed_lookup, filter_app. by rewrite !splice_first_filter.
Qed.

Lemma off_silences_witness :
  map c_listener
      (fire (fun _ _ => false) "move" None
         [Object "map" (off "move" "f" (once "move" "g" (on "move" "f" no_listeners)))
                 None]).1.2
  = ["g"].
Proof.
  refine (eq_trans
            (off_silences (fun _ _ => false) "move" "f" None "map"
               (once "move" "g" (on "move" "f" no_listeners)) None _ _) _).
  - apply (bool_decide_unpack _). vm_compute. exact I.
  - apply (bool_decide_unpack _). vm_compute. exact I.
  - vm_compute. reflexivity.
Defined.

End EventedFacts.

(** * Properties of the sessions of the worker pool *)

Module WorkerSessionFacts.
Import WorkerPool WorkerSession.

Section Main.
Variable workerCount : nat.

Lemma poolSize_positive : 0 < poolSize workerCount.
Proof. unfold poolSize. case_decide; lia. Qed.

Lemma empty_pool_inv : pool_inv empty_pool.
Proof. split; [by left|constructor|]. intros i w H. by destruct i. Qed.

Lemma started_inv p : pool_inv p -> pool_inv (started workerCount p).
Proof.
  intros [Hc Hr Hh]. unfold started. case_decide as Hlen; [|by split].
  apply length_zero_iff_nil in Hlen.
  destruct Hc as [(_ & Hp & Hn)|Hc]; [|rewrite Hlen in Hc; cbn in Hc; lia].
  unfold createNativeWorkers. fold (poolSize workerCount). split; cbn.
  - right. rewrite length_replicate, Hn. apply poolSize_positive.
  - apply Forall_replicate. constructor.
  - intros i w H. by rewrite Hp, lookup_nil in H.
Qed.

Lemma started_cursor p :
  pool_inv p ->
  nextNativeWorkerIndex (started workerCount p)
  < length (nativeWorkers (started workerCount p)).
Proof.
  intros Hinv. pose proof (started_inv p Hinv) as [Hc _ _].
  destruct Hc as [(Hn & _)|Hc]; [|done].
  exfalso. unfold started in Hn. case_decide as Hlen.
  - unfold createNativeWorkers in Hn. cbn in Hn. fold (poolSize workerCount) in Hn.
    pose proof poolSize_positive. destruct (poolSize workerCount); [lia|done].
  - by rewrite Hn in Hlen.
Qed.

Lemma started_handles p : pooledWorkers (started workerCount p) = pooledWorkers p.
Proof. unfold started. by case_decide. Qed.

(** [createPooledWorker], step by step. *)
Lemma createPooledWorker_eq bodyURL options p :
  createPooledWorker workerCount bodyURL options p
  = let p0 := started workerCount p in
    let k := nextNativeWorkerIndex p0 in
    let id := length (pooledWorkers p) in
    let w := PooledWorker no_listeners k id in
    (w,
     Pool (alter (fun q => q ++ [create_message id bodyURL options]) k (nativeWorkers p0))
          ((k + 1) `mod` length (nativeWorkers p0))
          (pooledWorkers p ++ [w]) (deliveries p)).
Proof.
  unfold createPooledWorker, allocateNativeWorker, postMessage, started, create_message.
  cbn. by case_decide.
Qed.

Lemma posted_routed k m (qs : list (list message)) :
  Forall routed qs ->
  (forall q, qs !! k = Some q -> routed (q ++ [m])) ->
  Forall routed (alter (fun q => q ++ [m]) k qs).
Proof.
  intros Hqs Hk. apply Forall_lookup. intros j q Hj.
  destruct (decide (j = k)) as [->|Hne].
  - rewrite list_lookup_alter_eq in Hj.
    destruct (qs !! k) as [q0|] eqn:Hq0; cbn in Hj; [|done]. injection Hj as <-.
    by apply Hk.
  - rewrite list_lookup_alter_ne in Hj by done. by eapply Forall_lookup_1.
Qed.

Lemma posted_lookup k j m (qs : list (list message)) q x :
  qs !! j = Some q -> x ∈ q ->
  exists q', alter (fun q => q ++ [m]) k qs !! j = Some q' /\ x ∈ q'.
Proof.
  intros Hj Hx. destruct (decide (j = k)) as [->|Hne].
  - exists (q ++ [m]). rewrite list_lookup_alter_eq, Hj. split; [done|].
    apply elem_of_app. by left.
  - exists q. by rewrite list_lookup_alter_ne.
Qed.

Lemma createPooledWorker_inv bodyURL options p :
  pool_inv p -> pool_inv (createPooledWorker workerCount bodyURL options p).2.
Proof.
  intros Hinv. rewrite createPooledWorker_eq. cbn.
  pose proof (started_cursor p Hinv) as Hcur.
  pose proof (started_inv p Hinv) as [_ Hr Hh]. rewrite started_handles in Hh.
  split; cbn.
  - right. rewrite length_alter. apply Nat.mod_upper_bound. lia.
  - apply posted_routed; [done|]. intros q Hq. constructor.
    by eapply Forall_lookup_1.
  - intros i w Hi. apply lookup_app_Some in Hi as [Hi|[Hlen Hi]].
    + destruct (Hh i w Hi) as (Hid & q & b & o & Hq & Hin). split; [done|].
      destruct (posted_lookup (nextNativeWorkerIndex (started workerCount p)) _
                  (create_message (length (pooledWorkers p)) bodyURL options)
                  _ _ _ Hq Hin) as (q' & Hq' & Hin').
      by exists q', b, o.
    + apply list_lookup_singleton_Some in Hi as [Hi <-]. cbn.
      assert (i = length (pooledWorkers p)) as -> by lia. split; [done|].
      destruct (lookup_lt_is_Some_2 _ _ Hcur) as [q Hq].
      exists (q ++ [create_message (length (pooledWorkers p)) bodyURL options]),
        bodyURL, options.
      rewrite list_lookup_alter_eq, Hq. split; [done|].
      apply elem_of_app. right. by apply list_elem_of_singleton.
Qed.

Lemma send_inv w type data p i :
  pool_inv p -> pooledWorkers p !! i = Some w -> pool_inv (send w type data p).
Proof.
  intros [Hc Hr Hh] Hi. destruct (Hh i w Hi) as (Hid & q & b & o & Hq & Hin).
  unfold send, postMessage. split; cbn.
  - destruct Hc as [(_ & Hp & _)|Hc]; [by rewrite Hp, lookup_nil in Hi|].
    right. by rewrite length_alter.
  - apply posted_routed; [done|]. intros q' Hq'.
    rewrite Hq in Hq'. injection Hq' as <-. rewrite Hid.
    eapply routed_user; [by eapply Forall_lookup_1|done].
  - intros j w' Hj. destruct (Hh j w' Hj) as (Hid' & q' & b' & o' & Hq' & Hin').
    split; [done|].
    destruct (posted_lookup (pw_nativeWorker w) _
                (Message (Some (pw_pooledWorkerId w)) type data) _ _ _ Hq' Hin')
      as (q'' & Hq'' & Hin'').
    by exists q'', b', o'.
Qed.

Lemma step_inv c p : pool_inv p -> pool_inv (step workerCount c p).
Proof.
  intros Hinv. destruct c; cbn [step].
  - by apply createPooledWorker_inv.
  - destruct (pooledWorkers p !! handle) as [w|] eqn:Hw; [|done]. by eapply send_inv.
Qed.

Lemma run_inv cs : forall p, pool_inv p -> pool_inv (run workerCount cs p).
Proof.
  induction cs as [|c cs IH]; intros p Hinv; [done|].
  cbn. apply IH. by apply step_inv.
Qed.

(** X6. Starting with no pool, after any calls of [createPooledWorker] and of
    [send] on the handles it returned, the messages posted to each native
    worker are in order: a message of a handle comes after the control
    message that creates that handle, in the queue of the same native worker.
    The id of a handle is its place in [pooledWorkers], and the native worker
    it sends to holds the control message with that id. *)
Theorem posted_messages_are_routed (cs : list call) :
  let p := run workerCount cs empty_pool in
  Forall routed (nativeWorkers p)
  /\ forall i w,
       pooledWorkers p !! i = Some w ->
       pw_pooledWorkerId w = i
       /\ exists q bodyURL options,
            nativeWorkers p !! pw_nativeWorker w = Some q
            /\ create_message i bodyURL options ∈ q.
Proof.
  intros p. by pose proof (run_inv cs empty_pool empty_pool_inv) as [_ Hr Hh].
Qed.

(** X7. A handle made after any calls, and a message sent through it at once:
    the handle has the id that is the number of handles made before, and its
    native worker is posted the control message with that id and then the
    message, after what it had; the queues of the other native workers are
    as they were. *)
Theorem send_reaches_body (cs : list call) bodyURL options type data :
  let p := run workerCount cs empty_pool in
  let '(w, p1) := createPooledWorker workerCount bodyURL options p in
  let p2 := send w type data p1 in
  let id := pw_pooledWorkerId w in
  id = length (pooledWorkers p)
  /\ pooledWorkers p2 = pooledWorkers p ++ [w]
  /\ (exists q,
        nativeWorkers p2 !! pw_nativeWorker w
        = Some (q ++ [create_message id bodyURL options; Message (Some id) type data])
        /\ default [] (nativeWorkers p !! pw_nativeWorker w) = q)
  /\ forall k, k <> pw_nativeWorker w ->
       default [] (nativeWorkers p2 !! k) = default [] (nativeWorkers p !! k).
Proof.
  intros p. pose proof (run_inv cs empty_pool empty_pool_inv) as Hinv.
  fold p in Hinv. rewrite createPooledWorker_eq. cbv zeta.
  set (k := nextNativeWorkerIndex (started workerCount p)).
  set (id := length (pooledWorkers p)). cbn [pw_nativeWorker pw_pooledWorkerId].
  pose proof (started_cursor p Hinv) as Hcur. fold k in Hcur.
  destruct (lookup_lt_is_Some_2 _ _ Hcur) as [q Hq].
  assert (Hstart : forall j, default [] (nativeWorkers (started workerCount p) !! j)
                             = default [] (nativeWorkers p !! j)).
  { intros j. unfold started. case_decide as Hlen; [|done].
    apply length_zero_iff_nil in Hlen. rewrite Hlen, lookup_nil. cbn.
    destruct (replicate _ _ !! j) as [q'|] eqn:Hq'; [|done].
    by apply lookup_replicate in Hq' as [-> _]. }
  unfold send, postMessage. cbn. split_and!; [done|done| |].
  - exists q. split.
    + rewrite !list_lookup_alter_eq, Hq. cbn. by rewrite <- app_assoc.
    + by rewrite <- Hstart, Hq.
  - intros j Hj. rewrite !list_lookup_alter_ne by done. apply Hstart.
Qed.

End Main.

End WorkerSessionFacts.

(** * Properties of [LngLat.convert] and of [LngLatBounds] *)

Module BoundsFacts.
Import Geo Bounds.

Local Open Scope R_scope.

(** ** Numbers and valid objects *)

Lemma valid_iff a b :
  valid (mkLngLat a b)
  <-> a <> NaN /\ exists y, b = Finite y /\ -90 <= y <= 90.
Proof.
  unfold valid, invalid. cbn. split.
  - intros H. split; [tauto|]. destruct b as [|s|y].
    + exfalso. tauto.
    + exfalso. apply H. destruct s; [do 3 right|right; right; left]; constructor.
    + exists y. split; [done|]. split.
      * destruct (Rle_dec (-90) y); [done|]. exfalso. apply H. do 3 right.
        constructor. lra.
      * destruct (Rle_dec y 90); [done|]. exfalso. apply H. right. right. left.
        constructor. lra.
  - intros [Ha (y & -> & Hy)] [?|[?|[H|H]]]; try done; inversion H; lra.
Qed.

Lemma LngLat_new_valid a b : valid (mkLngLat a b) -> LngLat_new a b = Ok (mkLngLat a b).
Proof.
  intros [Ha (y & -> & Hy)]%valid_iff. unfold LngLat_new, gt. cbn.
  destruct a; [done| |]; cbn;
    destruct (Rlt_dec 90 y), (Rlt_dec y (-90)); try lra; done.
Qed.

Lemma LngLat_new_inv a b ll :
  LngLat_new a b = Ok ll -> ll = mkLngLat a b /\ valid ll.
Proof.
  unfold LngLat_new, gt. cbn [Geo.lat]. intros H.
  destruct (isNaN a) eqn:Ha; [done|]. destruct (isNaN b) eqn:Hb; [done|].
  cbn [orb] in H. destruct (lt (Finite 90) b) eqn:H1; [done|]. cbn [orb] in H.
  destruct (lt b (Finite (-90))) eqn:H2; [done|]. injection H as <-.
  split; [done|]. unfold valid. cbn [lng lat].
  intros [->|[->|[H|H]]]; try done; apply GeoFacts.lt_below in H; congruence.
Qed.

Lemma Math_min_cases a b :
  a <> NaN -> b <> NaN -> Math_min a b = a \/ Math_min a b = b.
Proof.
  intros Ha Hb. unfold Math_min.
  destruct a as [|s|x]; [done| |]; (destruct b as [|t|y]; [done| |]);
    destruct (lt _ _); auto.
Qed.

Lemma Math_max_cases a b :
  a <> NaN -> b <> NaN -> Math_max a b = a \/ Math_max a b = b.
Proof.
  intros Ha Hb. unfold Math_max.
  destruct a as [|s|x]; [done| |]; (destruct b as [|t|y]; [done| |]);
    destruct (lt _ _); auto.
Qed.

Lemma lt_irrefl a : lt a a = false.
Proof. destruct a as [|[]|x]; cbn; try done. destruct (Rlt_dec x x); [lra|done]. Qed.

Lemma lt_asym a b : lt a b = true -> lt b a = false.
Proof.
  destruct a as [|[]|x], b as [|[]|y]; cbn; try done.
  destruct (Rlt_dec x y), (Rlt_dec y x); try done. lra.
Qed.

Lemma le_refl a : a <> NaN -> le a a.
Proof. intros H. repeat split; try done. apply lt_irrefl. Qed.

Lemma Math_min_le a b :
  a <> NaN -> b <> NaN -> le (Math_min a b) a /\ le (Math_min a b) b.
Proof.
  intros Ha Hb.
  assert (Math_min a b = if lt b a then b else a) as ->.
  { unfold Math_min. destruct a as [|s|x]; [done| |]; by destruct b as [|t|y]. }
  destruct (lt b a) eqn:H; unfold le; repeat split; try done.
  - by apply lt_asym.
  - apply lt_irrefl.
  - apply lt_irrefl.
Qed.

Lemma Math_max_le a b :
  a <> NaN -> b <> NaN -> le a (Math_max a b) /\ le b (Math_max a b).
Proof.
  intros Ha Hb.
  assert (Math_max a b = if lt a b then b else a) as ->.
  { unfold Math_max. destruct a as [|s|x]; [done| |]; by destruct b as [|t|y]. }
  destruct (lt a b) eqn:H; unfold le; repeat split; try done.
  - by apply lt_asym.
  - apply lt_irrefl.
  - apply lt_irrefl.
Qed.

(** The larger of a number and of the smaller of it and another is the
    number itself. *)
Lemma Math_max_min a b : a <> NaN -> b <> NaN -> Math_max a (Math_min a b) = a.
Proof.
  intros Ha Hb. destruct a as [|[]|x]; [done|..]; destruct b as [|[]|y]; try done; cbn;
    repeat match goal with
           | |- context [Rlt_dec ?a ?b] => destruct (Rlt_dec a b); cbn
           end;
    first [done | lra].
Qed.

Lemma valid_lng ll : valid ll -> lng ll <> NaN.
Proof. destruct ll. by intros [? _]%valid_iff. Qed.

Lemma valid_lat ll : valid ll -> lat ll <> NaN.
Proof. destruct ll. intros [_ (y & H & _)]%valid_iff. cbn in *. by subst. Qed.

Lemma valid_choice a b c d :
  valid (mkLngLat a b) -> valid (mkLngLat c d) ->
  forall x y, (x = a \/ x = c) -> (y = b \/ y = d) -> valid (mkLngLat x y).
Proof.
  intros [Ha Hb]%valid_iff [Hc Hd]%valid_iff x y Hx Hy. apply valid_iff.
  split; [by destruct Hx as [->| ->]|by destruct Hy as [->| ->]].
Qed.

(** Evaluation of the methods, the store left as it is written. *)
Ltac run :=
  cbv [extend extend_bounds extend_with LngLatBounds_new LngLatBounds_convert
       setSouthWest setNorthEast LngLat_convert LngLat_toArray toArray getCenter
       getWest getSouth getEast getNorth getNorthWest getSouthEast
       of_corner to_corner read_lng read_lat write_lng write_lat throw
       mbind M_bind mret M_ret _sw _ne truthy negb index length_is isArray];
  cbn [Number forallb andb fst snd].

(** ** [LngLat.convert] *)

(** X8. [LngLat.convert(l.toArray())] returns a new object with the coordinates
    of [l]. *)
Theorem convert_toArray (l : loc) (ll : LngLat) (h : heap) :
  h !! l = Some ll ->
  valid ll ->
  (v ← LngLat_toArray l; LngLat_convert v) h = (Ok (length h), h ++ [ll]).
Proof.
  intros Hl Hv. run. unfold new_LngLat. rewrite (list_lookup_total_correct _ _ _ Hl).
  destruct ll as [a b]. cbn [lng lat]. by rewrite LngLat_new_valid.
Qed.

(** ** The store *)

Lemma total_old (h tl : heap) l ll : h !! l = Some ll -> (h ++ tl) !!! l = ll.
Proof.
  intros H. apply list_lookup_total_correct.
  rewrite lookup_app_l; [done|]. by eapply lookup_lt_Some.
Qed.

Lemma total_new0 (h tl : heap) a : (h ++ a :: tl) !!! length h = a.
Proof. by apply list_lookup_total_middle. Qed.

Lemma total_new1 (h tl : heap) a b : (h ++ a :: b :: tl) !!! S (length h) = b.
Proof.
  rewrite (cons_middle a h (b :: tl)), app_assoc.
  apply list_lookup_total_middle. rewrite length_app. cbn. lia.
Qed.

Lemma insert_new0 (h tl : heap) a x : <[length h := x]> (h ++ a :: tl) = h ++ x :: tl.
Proof.
  replace (length h) with (length h + 0)%nat at 1 by lia. by rewrite insert_app_r.
Qed.

Lemma insert_new1 (h tl : heap) a b x :
  <[S (length h) := x]> (h ++ a :: b :: tl) = h ++ a :: x :: tl.
Proof.
  replace (S (length h)) with (length h + 1)%nat by lia. by rewrite insert_app_r.
Qed.

Lemma total_insert_eq (h : heap) l x ll : h !! l = Some ll -> <[l := x]> h !!! l = x.
Proof. intros H. apply list_lookup_total_insert_eq. by eapply lookup_lt_Some. Qed.

Lemma lookup_insert_Some (h : heap) l x ll :
  h !! l = Some ll -> <[l := x]> h !! l = Some x.
Proof. intros H. apply list_lookup_insert_eq. by eapply lookup_lt_Some. Qed.

(** ** [extend] *)

Lemma two_writes op (l2 l : loc) (h : heap) :
  <[l := mkLngLat
           (lng (<[l := mkLngLat (op (lng (h !!! l2)) (lng (h !!! l))) (lat (h !!! l))]> h
                 !!! l))
           (op (lat (<[l := mkLngLat (op (lng (h !!! l2)) (lng (h !!! l))) (lat (h !!! l))]> h
                     !!! l2))
               (lat (<[l := mkLngLat (op (lng (h !!! l2)) (lng (h !!! l))) (lat (h !!! l))]> h
                     !!! l)))]>
    (<[l := mkLngLat (op (lng (h !!! l2)) (lng (h !!! l))) (lat (h !!! l))]> h)
  = grow op l2 l h.
Proof.
  unfold grow. destruct (decide (l < length h)%nat) as [Hl|Hl].
  - rewrite list_insert_insert_eq, list_lookup_total_insert_eq by done. cbn [lng lat].
    destruct (decide (l2 = l)) as [->|Hne].
    + by rewrite list_lookup_total_insert_eq.
    + by rewrite list_lookup_total_insert_ne.
  - rewrite !list_insert_ge; first done; rewrite ?length_insert; lia.
Qed.

(** [extend] of a bounds object with two corners, whatever objects are the
    same. *)
Lemma extend_with_some (sw2 ne2 sw ne : loc) (h : heap) :
  extend_with sw2 ne2 (mkBounds (Some sw) (Some ne)) h
  = (Ok (mkBounds (Some sw) (Some ne)),
     grow Math_max ne2 ne (grow Math_min sw2 sw h)).
Proof.
  run. rewrite (two_writes Math_min sw2 sw h).
  by rewrite (two_writes Math_max ne2 ne (grow Math_min sw2 sw h)).
Qed.

Lemma extend_with_none (sw2 ne2 : loc) (h : heap) ss nn :
  h !! sw2 = Some ss -> h !! ne2 = Some nn -> valid ss -> valid nn ->
  extend_with sw2 ne2 (mkBounds None None) h
  = (Ok (mkBounds (Some (length h)) (Some (S (length h)))), h ++ [ss; nn]).
Proof.
  intros Hs Hn Hvs Hvn. run. unfold new_LngLat at 1.
  rewrite (list_lookup_total_correct _ _ _ Hs). destruct ss as [a b]. cbn [lng lat].
  rewrite (LngLat_new_valid _ _ Hvs). unfold new_LngLat.
  rewrite (total_old _ _ _ _ Hn). destruct nn as [c d]. cbn [lng lat].
  rewrite (LngLat_new_valid _ _ Hvn).
  by rewrite length_app, Nat.add_1_r, <- app_assoc.
Qed.

(** X9. The bounds of the box zoom: an empty bounds object extended by two
    [LngLat] objects has two new objects for its corners, the smaller and the
    larger coordinates of the two; the two objects themselves are left as
    they are. *)
Theorem extend_from_empty (p q : loc) (pp qq : LngLat) (h : heap) :
  h !! p = Some pp ->
  h !! q = Some qq ->
  valid pp ->
  (b ← extend (Val (Instance p)) (mkBounds None None); extend (Val (Instance q)) b) h
  = (Ok (mkBounds (Some (length h)) (Some (S (length h)))),
     h ++ [mkLngLat (Math_min (lng qq) (lng pp)) (Math_min (lat qq) (lat pp));
           mkLngLat (Math_max (lng qq) (lng pp)) (Math_max (lat qq) (lat pp))]).
Proof.
  intros Hp Hq Hv. cbv [mbind M_bind extend].
  rewrite (extend_with_none p p h pp pp) by done. rewrite extend_with_some.
  unfold grow. rewrite (total_old _ _ _ _ Hq), total_new0, insert_new0.
  by rewrite (total_old _ _ _ _ Hq), total_new1, insert_new1.
Qed.

Lemma valid_two_points : Forall valid two_points.
Proof.
  repeat constructor; (apply valid_iff; split; [done|]; eexists; split; [done|lra]).
Qed.

Lemma convert_toArray_witness :
  (v ← LngLat_toArray 0%nat; LngLat_convert v) two_points
  = (Ok 2%nat, two_points ++ [mkLngLat (Finite 1) (Finite 2)]).
Proof.
  refine (convert_toArray 0 _ two_points eq_refl _).
  apply valid_iff. split; [done|]. exists 2. split; [done|lra].
Defined.

Lemma extend_from_empty_witness :
  (b ← extend (Val (Instance 0%nat)) (mkBounds None None);
   extend (Val (Instance 1%nat)) b) two_points
  = (Ok (mkBounds (Some 2%nat) (Some 3%nat)),
     two_points
     ++ [mkLngLat (Math_min (Finite 3) (Finite 1)) (Math_min (Finite 0) (Finite 2));
         mkLngLat (Math_max (Finite 3) (Finite 1)) (Math_max (Finite 0) (Finite 2))]).
Proof.
  refine (extend_from_empty 0 1 _ _ two_points eq_refl eq_refl _).
  apply valid_iff. split; [done|]. exists 2. split; [done|lra].
Defined.

(** X10. One [LngLat] object given for both corners is one corner: extended by a
    point, such a bounds object has the point for both corners and has
    forgotten the object it was made from, whose coordinates have become those
    of the point. *)
Theorem extend_shared_corner (l p : loc) (ll pp : LngLat) (h : heap) :
  h !! l = Some ll ->
  h !! p = Some pp ->
  valid ll ->
  valid pp ->
  (b ← LngLatBounds_new (Instance l) (Instance l); extend (Val (Instance p)) b) h
  = (Ok (mkBounds (Some l) (Some l)), <[l := pp]> h).
Proof.
  intros Hl Hp Hvl Hvp.
  cbv [mbind M_bind mret M_ret extend LngLatBounds_new setSouthWest setNorthEast
       LngLat_convert truthy negb _sw _ne].
  rewrite extend_with_some. unfold grow.
  rewrite (list_lookup_total_correct _ _ _ Hl), (list_lookup_total_correct _ _ _ Hp).
  rewrite list_insert_insert_eq, (total_insert_eq _ _ _ _ Hl). cbn [lng lat].
  assert (<[l := mkLngLat (Math_min (lng pp) (lng ll)) (Math_min (lat pp) (lat ll))]> h
          !!! p
          = if decide (p = l)
            then mkLngLat (Math_min (lng pp) (lng ll)) (Math_min (lat pp) (lat ll))
            else pp) as ->.
  { destruct (decide (p = l)) as [->|Hne].
    - by rewrite (total_insert_eq _ _ _ _ Hl).
    - by rewrite list_lookup_total_insert_ne, (list_lookup_total_correct _ _ _ Hp). }
  pose proof (valid_lng _ Hvl) as Ha. pose proof (valid_lat _ Hvl) as Hb.
  pose proof (valid_lng _ Hvp) as Hc. pose proof (valid_lat _ Hvp) as Hd.
  destruct (decide (p = l)) as [->|Hne]; cbn [lng lat].
  - assert (pp = ll) as -> by congruence. destruct ll as [a b]. cbn [lng lat] in *.
    assert (Math_min a a = a) as Hma by (by destruct (Math_min_cases a a Ha Ha)).
    assert (Math_min b b = b) as Hmb by (by destruct (Math_min_cases b b Hb Hb)).
    assert (Math_max a a = a) as HMa by (by destruct (Math_max_cases a a Ha Ha)).
    assert (Math_max b b = b) as HMb by (by destruct (Math_max_cases b b Hb Hb)).
    by rewrite ?Hma, ?Hmb, ?HMa, ?HMb.
  - destruct pp as [c d]. cbn [lng lat] in *. by rewrite !Math_max_min.
Qed.

Lemma extend_shared_corner_witness :
  (b ← LngLatBounds_new (Instance 0%nat) (Instance 0%nat);
   extend (Val (Instance 1%nat)) b) two_points
  = (Ok (mkBounds (Some 0%nat) (Some 0%nat)),
     [mkLngLat (Finite 3) (Finite 0); mkLngLat (Finite 3) (Finite 0)]).
Proof.
  refine (extend_shared_corner 0 1 _ _ two_points eq_refl eq_refl _ _);
    (apply valid_iff; split; [done|]; eexists; split; [done|lra]).
Defined.

(** X11. A bounds object with one corner only cannot be extended: [extend]
    throws a [TypeError]; when the corner is the south-west one, it has moved
    that corner before it throws. *)
Theorem extend_one_corner (c p : loc) (h : heap) :
  (exists msg,
     (b ← setSouthWest (Instance c) (mkBounds None None); extend (Val (Instance p)) b) h
     = (Throw (TypeError msg), grow Math_min p c h))
  /\ (exists msg,
        (b ← setNorthEast (Instance c) (mkBounds None None); extend (Val (Instance p)) b) h
        = (Throw (TypeError msg), h)).
Proof.
  split; run; [|by eexists]. eexists. by rewrite (two_writes Math_min p c h).
Qed.

(** X12. [extend] makes the bounds grow: with two distinct objects for corners,
    the corners after the call contain the point and the corners before it,
    and stay valid. *)
Theorem extend_contains (sw ne p : loc) (ss nn pp : LngLat) (h : heap) :
  sw <> ne ->
  h !! sw = Some ss -> h !! ne = Some nn -> h !! p = Some pp ->
  valid ss -> valid nn -> valid pp ->
  exists ss' nn',
    extend (Val (Instance p)) (mkBounds (Some sw) (Some ne)) h
    = (Ok (mkBounds (Some sw) (Some ne)), <[ne := nn']> (<[sw := ss']> h))
    /\ within ss' nn' pp
    /\ le (lng ss') (lng ss) /\ le (lat ss') (lat ss)
    /\ le (lng nn) (lng nn') /\ le (lat nn) (lat nn')
    /\ valid ss' /\ valid nn'.
Proof.
  intros Hne Hs Hn Hp Hvs Hvn Hvp.
  pose proof (valid_lng _ Hvs) as Ha. pose proof (valid_lat _ Hvs) as Hb.
  pose proof (valid_lng _ Hvn) as Hc. pose proof (valid_lat _ Hvn) as Hd.
  pose proof (valid_lng _ Hvp) as He. pose proof (valid_lat _ Hvp) as Hf.
  destruct ss as [a b], nn as [c d], pp as [e f]. cbn [lng lat] in *.
  exists (mkLngLat (Math_min e a) (Math_min f b)),
         (mkLngLat (Math_max e c) (Math_max f d)).
  split.
  - cbv [extend]. rewrite extend_with_some. unfold grow.
    rewrite (list_lookup_total_correct _ _ _ Hs), (list_lookup_total_correct _ _ _ Hp).
    rewrite (list_lookup_total_insert_ne _ sw ne) by done.
    rewrite (list_lookup_total_correct _ _ _ Hn). cbn [lng lat].
    destruct (decide (p = sw)) as [->|Hps].
    + assert (e = a /\ f = b) as [-> ->] by (split; congruence).
      rewrite (total_insert_eq _ _ _ _ Hs). cbn [lng lat].
      assert (Math_min a a = a) as -> by (by destruct (Math_min_cases _ _ Ha Ha)).
      assert (Math_min b b = b) as -> by (by destruct (Math_min_cases _ _ Hb Hb)).
      done.
    + by rewrite list_lookup_total_insert_ne, (list_lookup_total_correct _ _ _ Hp).
  - unfold within. cbn [lng lat].
    destruct (Math_min_le _ _ He Ha) as [H1 H2], (Math_min_le _ _ Hf Hb) as [H3 H4].
    destruct (Math_max_le _ _ He Hc) as [H5 H6], (Math_max_le _ _ Hf Hd) as [H7 H8].
    split_and!; try done.
    + eapply valid_choice; [exact Hvp|exact Hvs| |];
        [by destruct (Math_min_cases _ _ He Ha); auto
        |by destruct (Math_min_cases _ _ Hf Hb); auto].
    + eapply valid_choice; [exact Hvp|exact Hvn| |];
        [by destruct (Math_max_cases _ _ He Hc); auto
        |by destruct (Math_max_cases _ _ Hf Hd); auto].
Qed.

Lemma extend_contains_witness :
  exists ss' nn',
    extend (Val (Instance 1%nat)) (mkBounds (Some 0%nat) (Some 2%nat))
      (two_points ++ [mkLngLat (Finite 1) (Finite 2)])
    = (Ok (mkBounds (Some 0%nat) (Some 2%nat)),
       <[2%nat := nn']> (<[0%nat := ss']> (two_points ++ [mkLngLat (Finite 1) (Finite 2)])))
    /\ within ss' nn' (mkLngLat (Finite 3) (Finite 0))
    /\ le (lng ss') (Finite 1) /\ le (lat ss') (Finite 2)
    /\ le (Finite 1) (lng nn') /\ le (Finite 2) (lat nn')
    /\ valid ss' /\ valid nn'.
Proof.
  refine (extend_contains 0 2 1 _ _ _ (two_points ++ [mkLngLat (Finite 1) (Finite 2)])
            _ eq_refl eq_refl eq_refl _ _ _);
    [done|..]; (apply valid_iff; split; [done|]; eexists; split; [done|lra]).
Defined.

(** ** Arrays and bounds *)

(** X13. [LngLatBounds.convert(b.toArray())] returns a bounds object with two new
    corners that have the coordinates of the corners of [b]; the array of the
    four numbers gives the same bounds as the array of the two pairs. *)
Theorem bounds_toArray_convert (sw ne : loc) (ss nn : LngLat) (h : heap) :
  h !! sw = Some ss -> h !! ne = Some nn ->
  valid ss -> valid nn ->
  (v ← toArray (mkBounds (Some sw) (Some ne)); LngLatBounds_convert (Val v)) h
  = (Ok (Bnd (mkBounds (Some (length h)) (Some (S (length h))))), h ++ [ss; nn])
  /\ LngLatBounds_new (Arr [Num (lng ss); Num (lat ss); Num (lng nn); Num (lat nn)])
       Undefined h
     = (Ok (mkBounds (Some (length h)) (Some (S (length h)))), h ++ [ss; nn]).
Proof.
  intros Hs Hn Hvs Hvn. destruct ss as [a b], nn as [c d]. split.
  - run. rewrite (list_lookup_total_correct _ _ _ Hs), (list_lookup_total_correct _ _ _ Hn).
    cbn [lng lat length]. change (bool_decide (2%nat = 4%nat)) with false.
    unfold new_LngLat. cbn -[LngLat_new].
    rewrite (LngLat_new_valid _ _ Hvs), (LngLat_new_valid _ _ Hvn).
    by rewrite length_app, Nat.add_1_r, <- app_assoc.
  - run. cbn [lng lat length]. change (bool_decide (4%nat = 4%nat)) with true.
    unfold new_LngLat. cbn -[LngLat_new].
    rewrite (LngLat_new_valid _ _ Hvs), (LngLat_new_valid _ _ Hvn).
    by rewrite length_app, Nat.add_1_r, <- app_assoc.
Qed.

Lemma bounds_toArray_convert_witness :
  (v ← toArray (mkBounds (Some 0%nat) (Some 1%nat)); LngLatBounds_convert (Val v)) two_points
  = (Ok (Bnd (mkBounds (Some 2%nat) (Some 3%nat))), two_points ++ two_points)
  /\ LngLatBounds_new (Arr [Num (Finite 1); Num (Finite 2); Num (Finite 3); Num (Finite 0)])
       Undefined two_points
     = (Ok (mkBounds (Some 2%nat) (Some 3%nat)), two_points ++ two_points).
Proof.
  refine (bounds_toArray_convert 0 1 _ _ two_points eq_refl eq_refl _ _);
    (apply valid_iff; split; [done|]; eexists; split; [done|lra]).
Defined.

(** X14. [getCenter] returns a new object at the mean of the corners.  The mean
    of two valid latitudes is one; only longitudes that are infinite with
    opposite signs have no mean, and then [getCenter] throws. *)
Theorem getCenter_mean (sw ne : loc) (ss nn : LngLat) (h : heap) :
  h !! sw = Some ss -> h !! ne = Some nn ->
  valid ss -> valid nn ->
  (if isNaN (add (lng ss) (lng nn))
   then exists msg, getCenter (mkBounds (Some sw) (Some ne)) h = (Throw (Error msg), h)
   else getCenter (mkBounds (Some sw) (Some ne)) h
        = (Ok (length h),
           h ++ [mkLngLat (half (add (lng ss) (lng nn))) (half (add (lat ss) (lat nn)))]))
  /\ (isNaN (add (lng ss) (lng nn)) = true
      <-> exists s, lng ss = Infinity s /\ lng nn = Infinity (negb s)).
Proof.
  intros Hs Hn Hvs Hvn. destruct ss as [a b], nn as [c d].
  apply valid_iff in Hvs as [Ha (y & -> & Hy)], Hvn as [Hc (z & -> & Hz)].
  cbn [lng lat]. split.
  - assert (getCenter (mkBounds (Some sw) (Some ne)) h
            = new_LngLat (half (add a c)) (half (Finite (y + z))) h) as ->.
    { run. by rewrite (list_lookup_total_correct _ _ _ Hs),
                      (list_lookup_total_correct _ _ _ Hn). }
    unfold new_LngLat.
    destruct (isNaN (add a c)) eqn:Hnan.
    + destruct (add a c); try discriminate. by eexists.
    + rewrite LngLat_new_valid; [done|]. apply valid_iff. split.
      * destruct (add a c); try done; discriminate.
      * eexists. split; [done|]. lra.
  - split.
    + intros H. destruct a as [|s|x], c as [|t|x']; try done.
      destruct s, t; try done; [by exists true|by exists false].
    + intros (s & -> & ->). by destruct s.
Qed.

Lemma getCenter_mean_witness :
  getCenter (mkBounds (Some 0%nat) (Some 1%nat)) two_points
  = (Ok 2%nat, two_points ++ [mkLngLat (Finite ((1 + 3) / 2)) (Finite ((2 + 0) / 2))]).
Proof.
  refine (proj1 (getCenter_mean 0 1 _ _ two_points eq_refl eq_refl _ _));
    (apply valid_iff; split; [done|]; eexists; split; [done|lra]).
Defined.

(** ** The objects of the store stay valid *)

Lemma keeps_ret {A} (a : A) (h : heap) (Q : A -> nat -> Prop) :
  valid_heap h -> Q a (length h) -> keeps (mret a) h Q.
Proof. intros Hv HQ. by split_and!. Qed.

Lemma keeps_throw {A} e (h : heap) (Q : A -> nat -> Prop) :
  valid_heap h -> keeps (throw e) h Q.
Proof. intros Hv. by split_and!. Qed.

Lemma keeps_bind {A B} (m : M A) (f : A -> M B) (h : heap) Q R :
  keeps m h Q ->
  (forall a h', valid_heap h' -> (length h <= length h')%nat -> Q a (length h') ->
                keeps (f a) h' R) ->
  keeps (m ≫= f) h R.
Proof.
  unfold keeps. cbv [mbind M_bind]. destruct (m h) as [[a|e] h']; cbn [fst snd].
  - intros (Hv & Hle & HQ) Hf. destruct (Hf a h' Hv Hle HQ) as (Hv' & Hle' & HR).
    split_and!; [done|lia|done].
  - intros (Hv & Hle & _) _. by split_and!.
Qed.

Lemma keeps_read_lng l (h : heap) :
  valid_heap h -> keeps (read_lng l) h (fun _ _ => True).
Proof. intros Hv. by split_and!. Qed.

Lemma keeps_read_lat l (h : heap) :
  valid_heap h -> keeps (read_lat l) h (fun _ _ => True).
Proof. intros Hv. by split_and!. Qed.

Lemma keeps_new a b (h : heap) :
  valid_heap h -> keeps (new_LngLat a b) h (fun l n => (l < n)%nat).
Proof.
  intros Hv. unfold keeps, new_LngLat. destruct (LngLat_new a b) as [ll|e] eqn:Hnew;
    cbn [fst snd].
  - apply LngLat_new_inv in Hnew as [_ Hll]. rewrite length_app. cbn [length].
    split_and!; [|lia|lia]. apply Forall_app. split; [done|]. by repeat constructor.
  - by split_and!.
Qed.

(** What [LngLat.convert] returns is an object of the store. *)
Lemma keeps_convert (v : value) (h : heap) :
  valid_heap h ->
  (forall l, v = Instance l -> (l < length h)%nat) ->
  keeps (LngLat_convert v) h (fun l n => (l < n)%nat).
Proof.
  intros Hv Hl. destruct v as [| | |l|vs|a b]; cbn [LngLat_convert];
    try by apply keeps_throw.
  - apply keeps_ret; [done|]. by apply Hl.
  - destruct vs as [|a [|b [|c vs]]]; try by apply keeps_throw. by apply keeps_new.
  - by apply keeps_new.
Qed.

(** [new LngLatBounds(array)] of an array of arrays. *)
Lemma keeps_bounds_new (vs : list value) (h : heap) :
  valid_heap h ->
  forallb isArray vs = true ->
  keeps (LngLatBounds_new (Arr vs) Undefined) h
        (fun b n => Forall (fun l => (l < n)%nat) (corners b)).
Proof.
  intros Hv Hvs.
  assert (forall i l, index (Arr vs) i <> Instance l) as Hindex.
  { intros i l. cbn [index]. destruct (vs !! i) as [v|] eqn:Hi; [|done]. cbn.
    intros ->. apply list_elem_of_lookup_2 in Hi.
    rewrite forallb_forall in Hvs. specialize (Hvs (Instance l)).
    rewrite <- list_elem_of_In in Hvs. by specialize (Hvs Hi). }
  assert (forall v w : value,
            (forall l, v <> Instance l) -> (forall l, w <> Instance l) ->
            keeps (this ← setSouthWest v (mkBounds None None); setNorthEast w this) h
                  (fun b n => Forall (fun l => (l < n)%nat) (corners b))) as Hboth.
  { intros v w Hvi Hwi. unfold setSouthWest, setNorthEast.
    eapply (keeps_bind _ _ _ (fun b n => Forall (fun l => (l < n)%nat) (corners b))).
    - eapply keeps_bind; [apply keeps_convert; [done|]; intros l ->; by destruct (Hvi l)|].
      cbn beta. intros s h' Hv' Hle Hs. apply keeps_ret; [done|].
      by repeat constructor.
    - cbn beta. intros b h' Hv' Hle Hb. eapply keeps_bind.
      + apply keeps_convert; [done|]. intros l ->. by destruct (Hwi l).
      + cbn beta. intros n h'' Hv'' Hle' Hn. apply keeps_ret; [done|].
        unfold corners in *. cbn [_sw _ne]. apply Forall_app. split.
        * apply Forall_app in Hb as [Hb _]. eapply Forall_impl; [exact Hb|].
          cbn. intros. lia.
        * by repeat constructor. }
  unfold LngLatBounds_new. cbn [truthy negb]. destruct (length_is (Arr vs) 4).
  - by apply Hboth.
  - apply Hboth; apply Hindex.
Qed.

Lemma grow_valid op (l2 l : loc) (h : heap) :
  (forall a b, a <> NaN -> b <> NaN -> op a b = a \/ op a b = b) ->
  valid_heap h -> (l2 < length h)%nat -> valid_heap (grow op l2 l h).
Proof.
  intros Hop Hv Hl2. unfold grow. destruct (decide (l < length h)%nat) as [Hl|Hl].
  - apply Forall_insert; [done|].
    pose proof (list_elem_of_lookup_total_2 h l2 Hl2) as H2.
    pose proof (list_elem_of_lookup_total_2 h l Hl) as H1.
    unfold valid_heap in Hv. rewrite Forall_forall in Hv.
    apply Hv in H1, H2. destruct (h !!! l2) as [a b], (h !!! l) as [c d].
    cbn [lng lat].
    pose proof (valid_lng _ H1). pose proof (valid_lat _ H1).
    pose proof (valid_lng _ H2). pose proof (valid_lat _ H2). cbn [lng lat] in *.
    eapply valid_choice; [exact H2|exact H1| |]; by apply Hop.
  - by rewrite list_insert_ge by lia.
Qed.

Lemma length_grow op l2 l (h : heap) : length (grow op l2 l h) = length h.
Proof. unfold grow. by rewrite length_insert. Qed.

Lemma keeps_extend_with (sw2 ne2 : loc) (this : LngLatBounds) (h : heap) :
  valid_heap h ->
  (sw2 < length h)%nat -> (ne2 < length h)%nat ->
  Forall (fun l => (l < length h)%nat) (corners this) ->
  keeps (extend_with sw2 ne2 this) h
        (fun b n => Forall (fun l => (l < n)%nat) (corners b)).
Proof.
  intros Hv Hs Hn Hthis. destruct this as [[sw|] [ne|]].
  - unfold keeps. rewrite extend_with_some. cbn [fst snd].
    rewrite !length_grow. split_and!; [|done|done].
    apply grow_valid; [apply Math_max_cases| |by rewrite length_grow].
    apply grow_valid; [apply Math_min_cases|done|done].
  - unfold keeps. run. rewrite (two_writes Math_min sw2 sw h). cbn [fst snd].
    rewrite length_grow. split_and!; [|done|done].
    apply grow_valid; [apply Math_min_cases|done|done].
  - unfold keeps. run. by split_and!.
  - cbv [extend_with _sw _ne].
    eapply keeps_bind; [by apply keeps_read_lng|]. cbn beta. intros a h0 Hv0 Hle0 _.
    eapply keeps_bind; [by apply keeps_read_lat|]. cbn beta. intros b h1 Hv1 Hle1 _.
    eapply keeps_bind; [by apply keeps_new|]. cbn beta. intros s h2 Hv2 Hle2 Hs2.
    eapply keeps_bind; [by apply keeps_read_lng|]. cbn beta. intros c h3 Hv3 Hle3 _.
    eapply keeps_bind; [by apply keeps_read_lat|]. cbn beta. intros d h4 Hv4 Hle4 _.
    eapply keeps_bind; [by apply keeps_new|]. cbn beta. intros n h5 Hv5 Hle5 Hn5.
    apply keeps_ret; [done|]. repeat constructor; cbn; lia.
Qed.

(** X15. Whatever it is given, [extend] leaves valid [LngLat] objects only, with
    no [NaN] and with a latitude between -90 and 90, although it assigns to
    their properties without the checks of the constructor; this whether it
    returns or throws.  The bounds object it returns has its corners in the
    store. *)
Theorem extend_keeps_valid (obj : arg) (this : LngLatBounds) (h : heap) :
  valid_heap h ->
  Forall (fun l => (l < length h)%nat) (refs obj ++ corners this) ->
  keeps (extend obj this) h (fun b n => Forall (fun l => (l < n)%nat) (corners b)).
Proof.
  intros Hv [Hobj Hthis]%Forall_app.
  assert (forall b h',
            valid_heap h' -> (length h <= length h')%nat ->
            Forall (fun l => (l < length h')%nat) (corners b) ->
            keeps (extend_bounds b this) h'
                  (fun b n => Forall (fun l => (l < n)%nat) (corners b))) as Hb.
  { intros b h' Hv' Hle Hcb. unfold extend_bounds.
    assert (Forall (fun l => (l < length h')%nat) (corners this)) as Hthis'
      by (eapply Forall_impl; [exact Hthis|]; cbn; intros; lia).
    destruct b as [[sw2|] [ne2|]]; cbn [_sw _ne]; try by apply keeps_ret.
    unfold corners in Hcb. cbn in Hcb.
    apply Forall_cons in Hcb as [H1 [H2 _]%Forall_cons].
    by apply keeps_extend_with. }
  destruct obj as [v|b].
  - destruct v as [| | |l|vs|a b]; cbn [extend]; try by apply keeps_ret.
    + cbn in Hobj. apply Forall_cons in Hobj as [Hl _]. by apply keeps_extend_with.
    + destruct (forallb isArray vs) eqn:Hvs.
      * eapply keeps_bind; [by apply keeps_bounds_new|]. cbn beta.
        intros b h' Hv' Hle Hcb. by apply Hb.
      * eapply keeps_bind.
        -- apply keeps_convert; [done|]. by intros l.
        -- cbn beta. intros l h' Hv' Hle Hl. apply keeps_extend_with; try done.
           eapply Forall_impl; [exact Hthis|]. cbn. intros. lia.
  - cbn [extend]. apply Hb; [done|lia|]. exact Hobj.
Qed.

Lemma extend_keeps_valid_witness :
  keeps (extend (Val (Arr [Arr [Num (Finite 5); Num (Finite 6)];
                           Arr [Num (Finite 7); Num (Finite 8)]]))
                (mkBounds (Some 0%nat) (Some 1%nat)))
        two_points
        (fun b n => Forall (fun l => (l < n)%nat) (corners b)).
Proof.
  apply (extend_keeps_valid _ _ two_points valid_two_points).
  repeat constructor.
Defined.

End BoundsFacts.

(** * Properties of [loadGeometry] *)

Module GeometryFacts.
Import Camera Geometry.

Local Open Scope R_scope.

Lemma bounds_values : bounds = (-16384, 16383).
Proof.
  unfold bounds, createBounds.
  change (2 ^ (15 - 1))%Z with 16384%Z. f_equal; lra.
Qed.

Lemma clamp_between n min max : min <= max -> min <= clamp n min max <= max.
Proof.
  intros H. unfold clamp, Rmin, Rmax.
  destruct (Rle_dec min n); destruct (Rle_dec max _); lra.
Qed.

Section LoadGeometry.
Variable warnOnce : string -> list string -> list string.
Variable reproject : Point -> R -> Point.

Lemma load_point_in_bounds extent point console :
  in_bounds (load_point warnOnce reproject extent point console).1.
Proof.
  unfold load_point, in_bounds. rewrite bounds_values. cbn [fst snd].
  destruct (bool_decide (x _ < _)) eqn:H1; cbn [orb fst x y].
  { split; apply clamp_between; lra. }
  destruct (bool_decide (16383 < x _)) eqn:H2; cbn [orb fst x y].
  { split; apply clamp_between; lra. }
  destruct (bool_decide (y _ < _)) eqn:H3; cbn [orb fst x y].
  { split; apply clamp_between; lra. }
  destruct (bool_decide (16383 < y _)) eqn:H4; cbn [orb fst x y].
  { split; apply clamp_between; lra. }
  apply bool_decide_eq_false in H1, H2, H3, H4. lra.
Qed.

Lemma load_ring_in_bounds extent ring : forall console,
  Forall in_bounds (load_ring warnOnce reproject extent ring console).1.
Proof.
  induction ring as [|p ring IH]; intros console; cbn [load_ring]; [constructor|].
  pose proof (load_point_in_bounds extent p console) as Hp.
  destruct (load_point warnOnce reproject extent p console) as [p' console'].
  specialize (IH console'). destruct (load_ring warnOnce reproject extent ring console').
  constructor; done.
Qed.

Lemma load_ring_length extent ring : forall console,
  length (load_ring warnOnce reproject extent ring console).1 = length ring.
Proof.
  induction ring as [|p ring IH]; intros console; cbn [load_ring]; [done|].
  destruct (load_point warnOnce reproject extent p console) as [p' console'].
  specialize (IH console'). destruct (load_ring warnOnce reproject extent ring console').
  cbn in *. by rewrite IH.
Qed.

(** X16. Every point of the geometry that [loadGeometry] returns has its two
    coordinates between -16384 and 16383, whatever the projection gives. *)
Theorem loadGeometry_in_bounds geometry extent canonical console :
  match (loadGeometry warnOnce reproject geometry extent canonical console).1 with
  | Ok geometry' =>
      Forall (Forall (fun p => -16384 <= x p <= 16383 /\ -16384 <= y p <= 16383))
             geometry'
  | Throw _ => True
  end.
Proof.
  unfold loadGeometry. destruct canonical; cbn [negb fst]; [|constructor].
  revert console. induction geometry as [|ring geometry IH]; intros console;
    cbn [load_rings fst]; [constructor|].
  destruct (resample ring) as [ring'|]; [|done].
  pose proof (load_ring_in_bounds extent ring' console) as Hr.
  destruct (load_ring warnOnce reproject extent ring' console) as [ring'' console'].
  specialize (IH console').
  destruct (load_rings warnOnce reproject extent geometry console') as [[g|e] console'']; [|done].
  cbn [fst] in *. constructor; [|done].
  eapply Forall_impl; [exact Hr|]. unfold in_bounds. rewrite bounds_values. done.
Qed.

(** X17. [loadGeometry] throws exactly when there is a tile and one of the rings
    of the feature has no point: [resample] returns [undefined] for such a
    ring, and the [length] of it is read.  Without a tile it returns the empty
    geometry; otherwise it returns as many rings as the feature has. *)
Theorem loadGeometry_throws geometry extent canonical console :
  match (loadGeometry warnOnce reproject geometry extent canonical console).1 with
  | Ok geometry' =>
      if canonical then ([] ∉ geometry) /\ length geometry' = length geometry
      else geometry' = []
  | Throw e => canonical = true /\ [] ∈ geometry /\ exists msg, e = TypeError msg
  end.
Proof.
  unfold loadGeometry. destruct canonical; cbn [negb fst]; [|done].
  revert console. induction geometry as [|ring geometry IH]; intros console;
    cbn [load_rings fst].
  - split; [apply not_elem_of_nil|done].
  - destruct ring as [|p ring]; cbn [resample].
    + cbn. split_and!; [done|by left|by eexists].
    + destruct (load_ring warnOnce reproject extent _ console) as [ring'' console'].
      specialize (IH console').
      destruct (load_rings warnOnce reproject extent geometry console') as [[g|e] console''];
        cbn [fst] in *.
      * destruct IH as [H1 H2]. split; [|cbn; by rewrite H2].
        intros [?|?]%elem_of_cons; done.
      * destruct IH as (_ & H & Hm). split_and!; [done|by right|done].
Qed.

End LoadGeometry.

(** ** [resample] *)

Lemma mag_nonneg v : 0 <= Pt.mag v.
Proof. apply sqrt_pos. Qed.

Lemma mag_mult v k : Pt.mag (Pt.mult v k) = Rabs k * Pt.mag v.
Proof.
  unfold Pt.mag, Pt.mult. cbn [x y].
  replace (x v * k * (x v * k) + y v * k * (y v * k)) with (k² * (x v * x v + y v * y v))
    by (unfold Rsqr; ring).
  rewrite sqrt_mult_alt by apply Rle_0_sqr. by rewrite sqrt_Rsqr_abs.
Qed.

Lemma dist_along last v a b :
  dist (Pt.add last (Pt.mult v a)) (Pt.add last (Pt.mult v b)) = Rabs (a - b) * Pt.mag v.
Proof.
  unfold dist. rewrite <- mag_mult. f_equal.
  unfold Pt.sub, Pt.add, Pt.mult. cbn [x y]. f_equal; ring.
Qed.

Lemma end_point last p : Pt.add last (Pt.mult (Pt.sub p last) 1) = p.
Proof. destruct p, last. unfold Pt.sub, Pt.add, Pt.mult. cbn [x y]. f_equal; ring. Qed.

Lemma close_app prev l1 p l2 :
  close prev (l1 ++ [p]) -> close p l2 -> close prev (l1 ++ p :: l2).
Proof.
  revert prev. induction l1 as [|q l1 IH]; intros prev; cbn [app close].
  - intros [H _] H2. done.
  - intros [H H1] H2. split; [done|]. by apply IH.
Qed.

(** The last point pushed and [p] are at most 160 apart once the loop has
    come to its end. *)
Lemma stop_close i last p :
  dist p last <= i -> i - 160 <= dist p last ->
  dist p (Pt.add last (Pt.mult (Pt.sub p last) ((i - 160) / dist p last))) <= 160.
Proof.
  intros H1 H2. rewrite <- (end_point last p) at 1. rewrite dist_along.
  change (Pt.mag (Pt.sub p last)) with (dist p last).
  pose proof (mag_nonneg (Pt.sub p last)) as Hd.
  change (Pt.mag (Pt.sub p last)) with (dist p last) in Hd.
  remember (dist p last) as d eqn:Hdef. clear Hdef.
  destruct (Req_dec d 0) as [->|Hne]; [rewrite Rmult_0_r; lra|].
  replace (Rabs (1 - (i - 160) / d) * d) with (Rabs ((1 - (i - 160) / d) * d))
    by (by rewrite Rabs_mult, (Rabs_pos_eq d)).
  replace ((1 - (i - 160) / d) * d) with (d - i + 160) by (field; done).
  rewrite Rabs_pos_eq; lra.
Qed.

Lemma between_close (n : nat) : forall i last p,
  160 <= i -> i - 160 <= dist p last -> dist p last < i + 160 * INR n ->
  close (Pt.add last (Pt.mult (Pt.sub p last) ((i - 160) / dist p last)))
        (between n i (dist p last) last p ++ [p]).
Proof.
  induction n as [|n IH]; intros i last p Hi Hlow Hhigh; cbn [between].
  - cbn [app close]. split; [|done]. apply stop_close; [|done]. cbn in Hhigh. lra.
  - destruct (Rlt_dec i (dist p last)) as [Hlt|Hge].
    + cbn [app close]. split.
      * rewrite dist_along. change (Pt.mag (Pt.sub p last)) with (dist p last).
        replace (i / dist p last - (i - 160) / dist p last) with (160 / dist p last)
          by (field; lra).
        rewrite Rabs_pos_eq by (apply Rlt_le, Rdiv_lt_0_compat; lra).
        apply Req_le. field. lra.
      * specialize (IH (i + 160) last p).
        replace (i + 160 - 160) with i in IH by ring. apply IH; [lra|lra|].
        rewrite S_INR in Hhigh. lra.
    + cbn [app close]. split; [|done]. apply stop_close; lra.
Qed.

Lemma turns_enough d : 0 <= d -> d < 160 + 160 * INR (turns d).
Proof.
  intros Hd. unfold turns. destruct (archimed (d / 160)) as [Hup _].
  assert (0 <= d / 160) as H0 by lra.
  assert (0 <= up (d / 160))%Z as Hz by (apply le_IZR; lra).
  rewrite INR_IZR_INZ, Z2Nat.id by done.
  assert (d = d / 160 * 160) as Hd' by (field; lra). lra.
Qed.

Lemma resample_from_close : forall ring last, close last (resample_from last ring).
Proof.
  induction ring as [|p ring IH]; intros last; cbn [resample_from]; [done|].
  apply close_app; [|apply IH].
  pose proof (mag_nonneg (Pt.sub p last)) as Hd.
  change (Pt.mag (Pt.sub p last)) with (dist p last) in Hd.
  pose proof (between_close (turns (dist p last)) 160 last p) as H.
  replace ((160 - 160) / dist p last) with 0 in H by (unfold Rdiv; ring).
  assert (Pt.add last (Pt.mult (Pt.sub p last) 0) = last) as Hl.
  { destruct p, last. unfold Pt.sub, Pt.add, Pt.mult. cbn [x y]. f_equal; ring. }
  rewrite Hl in H. apply H; [lra|lra|]. by apply turns_enough.
Qed.

Lemma resample_from_sublist : forall ring last, ring `sublist_of` resample_from last ring.
Proof.
  induction ring as [|p ring IH]; intros last; cbn [resample_from]; [constructor|].
  apply sublist_inserts_l. by apply sublist_skip.
Qed.

Lemma resample_from_last : forall ring p0,
  last (p0 :: resample_from p0 ring) = last (p0 :: ring).
Proof.
  induction ring as [|p ring IH]; intros p0; cbn [resample_from]; [done|].
  rewrite last_cons_cons, (last_cons p0), last_app_cons, IH.
  destruct (last (p :: ring)) eqn:H; [done|]. by apply last_None in H.
Qed.

(** X18. [resample] of a ring without a point returns [undefined].  Of any other
    ring it returns a ring from the same first point to the same last point
    that has the points of the ring in their order, with more points between
    them where they were far apart: no two consecutive points of the result
    are more than 160 apart. *)
Theorem resample_close (p0 : Point) (ring : list Point) :
  resample [] = None
  /\ exists result,
       resample (p0 :: ring) = Some (p0 :: result)
       /\ close p0 result
       /\ ring `sublist_of` result
       /\ last (p0 :: result) = last (p0 :: ring).
Proof.
  split; [done|]. exists (resample_from p0 ring). split_and!.
  - done.
  - apply resample_from_close.
  - apply resample_from_sublist.
  - apply resample_from_last.
Qed.

End GeometryFacts.

(** * Properties of the other methods of the camera *)

Module CameraMethodsFacts.
Import Camera CameraMethods.

Local Open Scope R_scope.

(** Evaluation of the methods on a world given by its fields, and of the
    projections of a world built by the updates. *)
Ltac open_world w :=
  destruct w as [[?tr ?mv ?z ?r ?p ?ab ?fin ?oe ?pe] ?fi ?an ?ti ?ni ?nw ?wh ?co].

Ltac crunch :=
  cbv [moved upd_camera upd_transform set_transform set_moving set_animating
       set_abortFn set_finishFn set_onEaseEnd set_prevEase set_animations
       set_timeouts fresh setTimeout fire _fireMoveEvents _easeToEnd _prepareEase run_frame
       frame_data camera fired animations timeouts nextId now warnOnceHistory
       console transform moving zooming rotating pitching _abortFn _finishFn
       _onEaseEnd _prevEase e_around e_eventData e_startZoom e_zoom e_startBearing
       e_bearing e_startPitch e_pitch e_from e_delta e_finalScale e_pointAtOffset
       f_startZoom f_startBearing f_bearing f_startPitch f_pitch f_from f_delta
       f_S f_w f_u f_pointAtOffset f_eventData].

Ltac proj :=
  cbn [moved upd_camera upd_transform set_transform set_moving set_animating
       set_abortFn set_finishFn set_onEaseEnd set_prevEase set_animations
       set_timeouts fresh setTimeout fire camera fired animations timeouts
       nextId now warnOnceHistory console transform moving zooming rotating
       pitching _abortFn _finishFn _onEaseEnd _prevEase].

Section Calls.
Context {E : Env}.
Variable _bearingSnap : R.







End Calls.


(** ** Where an ease ends *)

Section Arrival.
Context {E : Env}.

Lemma interpolate_1 a b : interpolate a b 1 = b.
Proof. unfold interpolate. ring. Qed.

(** The transform a frame leaves depends on the transform it finds and on
    what the camera is animating. *)
Lemma run_frame_cong frame k w w' :
  transform (camera w) = transform (camera w') ->
  zooming (camera w) = zooming (camera w') ->
  rotating (camera w) = rotating (camera w') ->
  pitching (camera w) = pitching (camera w') ->
  transform (camera (run_frame frame k w)) = transform (camera (run_frame frame k w')).
Proof.
  open_world w. destruct w' as [[tr' mv' z' r' p' ? ? ? ?] ? ? ? ? ? ? ?].
  cbn [camera transform zooming rotating pitching].
  intros -> -> -> ->. destruct frame as [c|c].
  - destruct c as [? ? ? ? ? ? ? ? ? [[a ap]|] ? ?]; destruct z', r', p';
      crunch; reflexivity.
  - destruct c; destruct z', r', p'; crunch; reflexivity.
Qed.

(** The last frame of an ease: the zoom, the bearing and the pitch that are
    animated are at their targets. *)
Lemma ease_frame_attitude c w :
  keeps_attitude E ->
  let tr := transform (camera w) in
  let tr' := transform (camera (run_frame (EaseFrame c) 1 w)) in
  zoom tr' = (if zooming (camera w) then clamp (e_zoom c) (minZoom tr) (maxZoom tr)
              else zoom tr)
  /\ bearing tr' = (if rotating (camera w) then e_bearing c else bearing tr)
  /\ pitch tr' = (if pitching (camera w) then clamp (e_pitch c) 0 60 else pitch tr).
Proof.
  intros Hatt. open_world w.
  destruct c as [? ? ? ? ? ? ? ? ? [[a ap]|] ? ?]; destruct z, r, p; crunch;
    match goal with
    | |- context [setLocationAtPoint ?t ?l ?q] =>
        destruct (Hatt t l q) as (-> & -> & ->)
    end;
    cbn [zoom bearing pitch set_zoom set_bearing set_pitch minZoom maxZoom];
    rewrite ?interpolate_1; done.
Qed.

(** [_ease] and then the last frame, on a camera without a running
    animation: both return, no animation is left, and the transform is the one
    the frame function leaves at the end of the easing. *)
Lemma ease_settles frame finish animate duration easing w :
  live w = [] ->
  Forall (fun a => (ta_id a < nextId w)%nat) (animations w) ->
  exists w1 w2,
    _ease frame finish animate duration easing w = Ok w1
    /\ settle w1 = Ok w2
    /\ _abortFn (camera w2) = None
    /\ transform (camera w2) = transform (camera (run_frame frame (easing 1) w)).
Proof.
  intros Hlive Hfresh.
  destruct (decide ((if decide (animate = Some false) then 0 else duration) = 0))
    as [Hd|Hd].
  - unfold _ease. destruct (Req_dec_T _ 0) as [_|?]; [|done].
    set (w0 := upd_camera (set_finishFn (Some finish)) w).
    assert (transform (camera (run_frame frame (easing 1) w))
            = transform (camera (run_frame frame (easing 1) w0))) as ->
      by (by apply run_frame_cong).
    destruct (CameraFacts.run_frame_moved frame (easing 1) w0) as [tr ->].
    subst w0. unfold _finishEase. proj. cbn [mbind result_bind].
    match goal with
    | |- context [run_finish finish ?x] =>
        destruct (CameraFacts.run_finish_keeps finish x) as (evs & _ & _ & _ & _ & H5 & _);
        exists (upd_camera (set_abortFn None) (run_finish finish x)),
               (upd_camera (set_abortFn None) (run_finish finish x))
    end.
    split; [done|]. split; [done|]. split; [done|]. proj. rewrite H5. by proj.
  - rewrite CameraFacts.ease_pending by done.
    match goal with
    | |- exists w1 w2, Ok ?x = Ok w1 /\ _ => exists x
    end.
    unfold settle. proj. unfold tick. proj.
    pose proof (CameraFacts.find_new (animations w)
                  (mkTimedAnim (nextId w) frame easing
                     (if decide (animate = Some false) then 0 else duration) false)
                  Hfresh) as Hfind.
    cbn [ta_id] in Hfind. rewrite Hfind. cbn [ta_abort ta_frame ta_easing].
    match goal with
    | |- context [run_frame frame (easing 1) ?x] =>
        assert (transform (camera (run_frame frame (easing 1) w))
                = transform (camera (run_frame frame (easing 1) x))) as ->
          by (by apply run_frame_cong);
        destruct (CameraFacts.run_frame_moved frame (easing 1) x) as [tr ->]
    end.
    destruct (Req_dec_T 1 1) as [_|?]; [|done].
    unfold _finishEase. proj.
    match goal with
    | |- context [run_finish finish ?x] =>
        destruct (CameraFacts.run_finish_keeps finish x) as (evs & _ & H2 & _ & _ & H5 & _);
        exists (run_finish finish x)
    end.
    split; [done|]. split; [done|]. split; [by rewrite H2|]. rewrite H5. by proj.
Qed.

(** [easeTo] and then the last frame, on a camera at rest. *)
Lemma easeTo_settles options ed w :
  keeps_attitude E ->
  _abortFn (camera w) = None ->
  live w = [] ->
  Forall (fun a => (ta_id a < nextId w)%nat) (animations w) ->
  o_smoothEasing options = false ->
  default ease (o_easing options) 1 = 1 ->
  let tr := transform (camera w) in
  exists w1 w2,
    easeTo options ed w = Ok w1
    /\ settle w1 = Ok w2
    /\ _abortFn (camera w2) = None
    /\ getZoom w2 = arrive (zoom tr) (default (zoom tr) (o_zoom options))
                           (minZoom tr) (maxZoom tr)
    /\ getBearing w2 = match o_bearing options with
                       | Some b => _normalizeBearing b (bearing tr)
                       | None => bearing tr
                       end
    /\ getPitch w2 = arrive (pitch tr) (default (pitch tr) (o_pitch options)) 0 60.
Proof.
  intros Hatt Ha Hlive Hfresh Hsmooth Heasing tr.
  unfold easeTo. rewrite CameraFacts.stop_idle by done. cbn [mbind result_bind].
  rewrite Hsmooth. cbn [andb]. cbv zeta. unfold getZoom, getBearing, getPitch. proj.
  fold tr.
  match goal with
  | |- context [_ease (EaseFrame ?c0) ?fin _ _ _ ?W0] =>
      set (c := c0); set (W := W0)
  end.
  match goal with
  | W := context [set_animating ?z0 ?r0 ?p0] |- _ =>
      set (z := z0) in *; set (r := r0) in *; set (p := p0) in *
  end.
  assert (K : animations W = animations w
              /\ nextId W = nextId w
              /\ camera W = set_moving true (set_animating z r p (camera w))).
  { unfold W.
    match goal with
    | |- context [clearTimeout ?o ?X] =>
        destruct (CameraFacts.clearTimeout_keeps o X) as (_ & K2 & K3 & K4)
    end.
    rewrite K2, K3, K4, CameraFacts.prepareEase_moved. proj.
    split_and!; [done|done|]. clearbody z r p. clear. destruct (camera w). reflexivity. }
  destruct K as (K2 & K3 & K4).
  destruct (ease_settles (EaseFrame c)
              (EaseFinish (o_delayEndEvents options) ed) (o_animate options)
              (if decide (o_animate options = Some false) then 0
               else default 500 (o_duration options))
              (default ease (o_easing options)) W)
    as (w1 & w2 & H1 & H2 & H3 & H4).
  { unfold live. by rewrite K2. }
  { by rewrite K2, K3. }
  exists w1, w2. split; [exact H1|]. split; [exact H2|]. split; [exact H3|].
  rewrite H4, Heasing.
  destruct (ease_frame_attitude c W Hatt) as (Hz & Hr & Hp).
  rewrite Hz, Hr, Hp, K4. proj. fold tr. subst c z r p.
  cbn [e_zoom e_bearing e_pitch]. unfold arrive.
  split_and!;
    match goal with
    | |- context [Req_dec_T ?a ?b] => destruct (Req_dec_T a b) as [Heq|Hne]
    end; done.
Qed.

(** X20. An ease arrives: on a camera at rest, with an easing that ends at 1,
    once the last frame of [easeTo] has run (at once when the ease has no
    duration) no animation is left, the zoom and the pitch are the targets
    held within the ranges of the transform, and the bearing is the target
    brought next to the bearing the ease began with. *)
Theorem easeTo_arrives options ed w :
  keeps_attitude E ->
  well_formed w ->
  isEasing w = false ->
  o_smoothEasing options = false ->
  default ease (o_easing options) 1 = 1 ->
  let tr := transform (camera w) in
  exists w1 w2,
    easeTo options ed w = Ok w1
    /\ settle w1 = Ok w2
    /\ isEasing w2 = false
    /\ getZoom w2 = arrive (zoom tr) (default (zoom tr) (o_zoom options))
                           (minZoom tr) (maxZoom tr)
    /\ getBearing w2 = match o_bearing options with
                       | Some b => _normalizeBearing b (bearing tr)
                       | None => bearing tr
                       end
    /\ getPitch w2 = arrive (pitch tr) (default (pitch tr) (o_pitch options)) 0 60.
Proof.
  intros Hatt [Hfresh Hwf] Hidle Hsmooth Heasing tr.
  unfold isEasing in Hidle. apply bool_decide_eq_false in Hidle.
  destruct (_abortFn (camera w)) as [id|] eqn:Ha; [by destruct Hidle|].
  destruct (easeTo_settles options ed w Hatt Ha Hwf Hfresh Hsmooth Heasing)
    as (w1 & w2 & H1 & H2 & H3 & H4).
  exists w1, w2. split; [exact H1|]. split; [exact H2|]. split; [|exact H4].
  unfold isEasing. rewrite H3. apply bool_decide_eq_false. by intros [? ?].
Qed.

End Arrival.

Lemma sample_keeps_attitude : keeps_attitude sample_env.
Proof. by intros tr l p. Qed.

Lemma easeTo_arrives_witness :
  exists w1 w2,
    easeTo (E := sample_env) (zoom_to 3) "ease" world0 = Ok w1
    /\ settle (E := sample_env) w1 = Ok w2
    /\ isEasing w2 = false
    /\ getZoom w2 = arrive 0 3 0 22
    /\ getBearing w2 = 0
    /\ getPitch w2 = arrive 0 0 0 60.
Proof.
  exact (easeTo_arrives (E := sample_env) (zoom_to 3) "ease" world0
           sample_keeps_attitude CameraFacts.world0_well_formed eq_refl eq_refl eq_refl).
Defined.

(** ** Sessions *)

Section Sessions.
Context {E : Env}.
Variable _bearingSnap : R.

Lemma idle_camera w :
  well_formed w -> isEasing w = false ->
  _abortFn (camera w) = None /\ live w = []
  /\ Forall (fun a => (ta_id a < nextId w)%nat) (animations w).
Proof.
  intros [Hfresh Hwf] Hidle. unfold isEasing in Hidle.
  apply bool_decide_eq_false in Hidle.
  destruct (_abortFn (camera w)) as [id|] eqn:Ha; [by destruct Hidle|]. done.
Qed.


(** X22. A whole ease, from a camera at rest and with end events that are not
    delayed: [easeTo] fires the start events; every frame fires [move] and
    the events of what is animated; the last frame fires them and then the end
    events; and then no animation is left. *)
Theorem ease_session options ed (ts : list R) w :
  well_formed w ->
  isEasing w = false ->
  truthy (o_delayEndEvents options) = false ->
  (if decide (o_animate options = Some false) then 0
   else default 500 (o_duration options)) <> 0 ->
  Forall (fun t => t <> 1) ts ->
  let z := if Req_dec_T (default (getZoom w) (o_zoom options)) (getZoom w)
           then false else true in
  let p := if Req_dec_T (default (getPitch w) (o_pitch options)) (getPitch w)
           then false else true in
  exists w1 w2 r,
    easeTo options ed w = Ok w1
    /\ fired w1 = fired w ++ events (start_list (o_noMoveStart options) z p) ed
    /\ run_ticks (nextId w) (ts ++ [1]) w1 = Ok w2
    /\ fired w2 = fired w1
                  ++ concat (map (fun _ => events (frame_list z r p) ed) (ts ++ [1]))
                  ++ events (end_list z p) ed
    /\ isEasing w2 = false.
Proof.
  intros Hwf Hidle Hdelay Hd Hts z p.
  destruct (idle_camera w Hwf Hidle) as (Ha & Hlive & Hfresh).
  destruct (CameraFacts.easeTo_idle options ed w Ha Hlive Hfresh)
    as (w1 & frame & r & H1 & _ & Hdata & Hcase).
  rewrite decide_False in Hcase by exact Hd. destruct Hcase as (Hfired & Hfl & _).
  destruct (CameraFacts.run_ticks_in_flight _ _ _ _ _ _ ed ts w1 Hfl) as
    (w2 & H2 & H3 & H4 & _); [by right; eexists|done|].
  exists w1, w2, r. rewrite Hdata in H3. split_and!; try done.
  unfold isEasing. rewrite H4. apply bool_decide_eq_false. by intros [? ?].
Qed.

(** X23. [snapToNorth] on a camera at rest: with a bearing nearer to north than
    [bearingSnap] it eases the bearing to 0 exactly, and with any other
    bearing it leaves the camera as it is. *)
Theorem snapToNorth_north options ed w :
  keeps_attitude E ->
  well_formed w ->
  isEasing w = false ->
  o_smoothEasing options = false ->
  default ease (o_easing options) 1 = 1 ->
  o_bearing options = None ->
  _bearingSnap <= 180 ->
  exists w1 w2,
    snapToNorth _bearingSnap options ed w = Ok w1
    /\ settle w1 = Ok w2
    /\ if Rlt_dec (Rabs (getBearing w)) _bearingSnap
       then getBearing w2 = 0 /\ isEasing w2 = false
       else w2 = w.
Proof.
  intros Hatt Hwf Hidle Hsmooth Heasing Hb Hsnap.
  destruct (idle_camera w Hwf Hidle) as (Ha & Hlive & Hfresh).
  unfold snapToNorth. destruct (Rlt_dec _ _) as [Hlt|Hge].
  - unfold resetNorth, rotateTo.
    destruct (easeTo_settles (extend_bearing 0 (extend_duration 1000 options)) ed w
                Hatt Ha Hlive Hfresh Hsmooth Heasing)
      as (w1 & w2 & H1 & H2 & H3 & _ & H5 & _).
    exists w1, w2. split; [exact H1|]. split; [exact H2|]. split.
    + rewrite H5. cbn [extend_bearing o_bearing extend_duration]. rewrite Hb.
      cbn [default]. unfold _normalizeBearing. rewrite (CameraFacts.wrap_id 0) by lra.
      unfold getBearing in Hlt.
      assert (Rabs (bearing (transform (camera w))) < 180) as Hcur by lra.
      repeat match goal with
             | |- context [Rlt_dec ?u ?v] => destruct (Rlt_dec u v)
             end;
        unfold Rabs in *;
        repeat match goal with
               | |- context [Rcase_abs ?x] => destruct (Rcase_abs x)
               | H : context [Rcase_abs ?x] |- _ => destruct (Rcase_abs x)
               end; lra.
    + unfold isEasing. rewrite H3. apply bool_decide_eq_false. by intros [? ?].
  - exists w, w. unfold settle. by rewrite Ha.
Qed.

End Sessions.


Lemma ease_session_witness :
  exists w1 w2 r,
    easeTo (E := sample_env) (zoom_to 3) "ease" world0 = Ok w1
    /\ fired w1 = events ["movestart"; "zoomstart"] "ease"
    /\ run_ticks (E := sample_env) 0 [0.5; 1] w1 = Ok w2
    /\ fired w2 = fired w1
                  ++ concat (map (fun _ => events (frame_list true r false) "ease")
                                 [0.5; 1])
                  ++ events ["zoomend"; "moveend"] "ease"
    /\ isEasing w2 = false.
Proof.
  pose proof (ease_session (E := sample_env) (zoom_to 3) "ease" [0.5] world0
                CameraFacts.world0_well_formed eq_refl eq_refl) as H.
  cbn [zoom_to o_animate o_duration o_zoom o_pitch o_noMoveStart default getZoom
       getPitch world0 camera transform zoom pitch] in H.
  unfold Datatypes.id in H. rewrite decide_False in H by done.
  repeat match type of H with
         | context [Req_dec_T ?a ?b] => destruct (Req_dec_T a b); try lra
         end.
  apply H; [lra|]. repeat constructor. lra.
Defined.

Lemma snapToNorth_north_witness :
  exists w1 w2,
    snapToNorth (E := sample_env) 7 no_options "snap" world0 = Ok w1
    /\ settle (E := sample_env) w1 = Ok w2
    /\ if Rlt_dec (Rabs (getBearing world0)) 7
       then getBearing w2 = 0 /\ isEasing w2 = false
       else w2 = world0.
Proof.
  apply (snapToNorth_north (E := sample_env) 7 no_options "snap" world0
           sample_keeps_attitude CameraFacts.world0_well_formed eq_refl eq_refl eq_refl
           eq_refl).
  lra.
Defined.

(** ** The center an ease goes to *)

(** X24. With copies of the world and without a range of longitudes,
    [_normalizeCenter] moves the longitude of the target by a whole turn or
    not at all, so that it is at most 180 degrees from the longitude of the
    center, when it was at most 540 degrees from it; the latitude is left as it
    is. *)
Theorem normalizeCenter_shortest (tr : Transform) (c : LngLat) :
  renderWorldCopies tr = true ->
  lngRange tr = None ->
  Rabs (lng c - lng (center tr)) <= 540 ->
  Rabs (lng (_normalizeCenter tr c) - lng (center tr)) <= 180
  /\ lat (_normalizeCenter tr c) = lat c
  /\ (lng (_normalizeCenter tr c) = lng c
      \/ lng (_normalizeCenter tr c) = lng c - 360
      \/ lng (_normalizeCenter tr c) = lng c + 360).
Proof.
  intros Hcopies Hrange Hnear. unfold _normalizeCenter. rewrite Hcopies, Hrange.
  cbn [negb orb bool_decide lng lat].
  rewrite bool_decide_eq_false_2 by (by intros [? ?]). cbn [lng lat].
  destruct (Rlt_dec 180 _) as [H1|H1]; [|destruct (Rlt_dec _ (-180)) as [H2|H2]];
    unfold Rabs in *;
    repeat match goal with
           | |- context [Rcase_abs ?x] => destruct (Rcase_abs x)
           | H : context [Rcase_abs ?x] |- _ => destruct (Rcase_abs x)
           end;
    split_and!; try lra; auto.
  all: right; first [by left; lra | by right; lra].
Qed.

Lemma normalizeCenter_shortest_witness :
  Rabs (lng (_normalizeCenter (transform (camera world0)) (mkLngLat 190 10))
        - lng (center (transform (camera world0)))) <= 180.
Proof.
  refine (proj1 (normalizeCenter_shortest (transform (camera world0)) (mkLngLat 190 10)
                   eq_refl eq_refl _)).
  cbn. unfold Rabs. destruct (Rcase_abs _); lra.
Defined.

End CameraMethodsFacts.

(** * Properties of the keyboard and double-click handlers *)

Module HandlersFacts.
Import Camera CameraMethods Handlers.

Local Open Scope R_scope.

Lemma Math_round_near x :
  exists n : Z, Math_round x = IZR n /\ IZR n - / 2 <= x < IZR n + / 2.
Proof.
  exists (Int_part (x + / 2)). split; [done|].
  destruct (base_Int_part (x + / 2)) as [H1 H2]. lra.
Qed.

Lemma arrive_same current target lo hi : target = current -> arrive current target lo hi = current.
Proof. intros ->. unfold arrive. by destruct (Req_dec_T _ _). Qed.

Lemma arrive_other current target lo hi :
  target <> current -> arrive current target lo hi = clamp target lo hi.
Proof. intros H. unfold arrive. by destruct (Req_dec_T _ _). Qed.

Lemma normalizeBearing_same b : -180 <= b < 180 -> _normalizeBearing b b = b.
Proof.
  intros Hb. unfold _normalizeBearing. rewrite (CameraFacts.wrap_id b) by lra.
  repeat match goal with
         | |- context [Rlt_dec ?u ?v] => destruct (Rlt_dec u v)
         end;
    unfold Rabs in *;
    repeat match goal with
           | |- context [Rcase_abs ?x] => destruct (Rcase_abs x)
           | H : context [Rcase_abs ?x] |- _ => destruct (Rcase_abs x)
           end; lra.
Qed.

Lemma easeOut_1 : easeOut 1 = 1.
Proof. unfold easeOut. lra. Qed.

Section Keys.
Context {E : Env}.

(** A key the handler knows, on a camera at rest: the ease it starts and
    where that ease ends. *)
Lemma onKeyDown_settles e ed w d :
  keeps_attitude E ->
  well_formed w ->
  isEasing w = false ->
  altKey e || ctrlKey e || metaKey e = false ->
  key_directions e = Some d ->
  let tr := transform (camera w) in
  exists w1 w2,
    _onKeyDown e ed w = (prevented d, Ok w1)
    /\ settle w1 = Ok w2
    /\ isEasing w2 = false
    /\ getZoom w2
       = arrive (zoom tr)
           (if Req_dec_T (zoomDir d) 0 then zoom tr
            else Math_round (zoom tr) + zoomDir d * (if shiftKey e then 2 else 1))
           (minZoom tr) (maxZoom tr)
    /\ getBearing w2 = _normalizeBearing (bearing tr + bearingDir d * bearingStep) (bearing tr)
    /\ getPitch w2 = arrive (pitch tr) (pitch tr + pitchDir d * pitchStep) 0 60.
Proof.
  intros Hatt Hwf Hidle Hmod Hkey tr.
  destruct (CameraMethodsFacts.idle_camera w Hwf Hidle) as (Ha & Hlive & Hfresh).
  unfold _onKeyDown. rewrite Hmod, Hkey.
  match goal with
  | |- context [easeTo ?o ed w] =>
      destruct (CameraMethodsFacts.easeTo_settles o ed w Hatt Ha Hlive Hfresh eq_refl
                  easeOut_1)
        as (w1 & w2 & H1 & H2 & H3 & H4 & H5 & H6)
  end.
  exists w1, w2. rewrite H1. split_and!; try done.
  unfold isEasing. rewrite H3. apply bool_decide_eq_false. by intros [? ?].
Qed.

(** X25. The keys [+] and [-] go to a whole zoom level: the one nearest to the
    zoom of the camera, plus or minus 1, or 2 with the shift key, held within
    the zoom range.  They do not prevent the default action of the key, and
    the pitch stays as it is. *)
Theorem keyboard_zoom e ed w :
  keeps_attitude E ->
  well_formed w ->
  isEasing w = false ->
  altKey e || ctrlKey e || metaKey e = false ->
  keyCode e ∈ [61; 107; 171; 187; 189; 109; 173]%Z ->
  let tr := transform (camera w) in
  let dir := if bool_decide (keyCode e ∈ [61; 107; 171; 187]%Z) then 1 else -1 in
  let step := if shiftKey e then 2 else 1 in
  exists w1 w2 (n : Z),
    _onKeyDown e ed w = (false, Ok w1)
    /\ settle w1 = Ok w2
    /\ isEasing w2 = false
    /\ IZR n - / 2 <= zoom tr < IZR n + / 2
    /\ getZoom w2 = arrive (zoom tr) (IZR n + dir * step) (minZoom tr) (maxZoom tr)
    /\ getPitch w2 = pitch tr.
Proof.
  intros Hatt Hwf Hidle Hmod Hcode tr dir step.
  destruct (Math_round_near (zoom tr)) as (n & Hn & Hnear).
  assert (exists d, key_directions e = Some d /\ zoomDir d = dir /\ pitchDir d = 0
                    /\ prevented d = false) as (d & Hd & Hz & Hp & Hpd).
  { unfold key_directions, dir.
    repeat (apply elem_of_cons in Hcode as [->|Hcode];
            [eexists; split; [reflexivity|]; split_and!; reflexivity|]).
    by apply elem_of_nil in Hcode. }
  destruct (onKeyDown_settles e ed w d Hatt Hwf Hidle Hmod Hd)
    as (w1 & w2 & H1 & H2 & H3 & H4 & _ & H6).
  exists w1, w2, n. rewrite Hpd in H1. split_and!; try done; try lra.
  - rewrite H4, Hz. fold tr. rewrite Hn.
    destruct (Req_dec_T dir 0) as [H0|_]; [|done].
    exfalso. unfold dir in H0. destruct (bool_decide _); lra.
  - rewrite H6, Hp. fold tr. apply arrive_same. lra.
Qed.

(** X26. An arrow key without the shift key only pans: the handler prevents the
    default action of the key, and the ease it starts leaves the zoom and the
    pitch as they are, and the bearing when that is in [[-180, 180)]. *)
Theorem keyboard_arrows_pan e ed w :
  keeps_attitude E ->
  well_formed w ->
  isEasing w = false ->
  altKey e || ctrlKey e || metaKey e = false ->
  shiftKey e = false ->
  keyCode e ∈ [37; 38; 39; 40]%Z ->
  exists w1 w2,
    _onKeyDown e ed w = (true, Ok w1)
    /\ settle w1 = Ok w2
    /\ isEasing w2 = false
    /\ getZoom w2 = getZoom w
    /\ getPitch w2 = getPitch w
    /\ (-180 <= getBearing w < 180 -> getBearing w2 = getBearing w).
Proof.
  intros Hatt Hwf Hidle Hmod Hshift Hcode.
  assert (exists d, key_directions e = Some d /\ zoomDir d = 0 /\ bearingDir d = 0
                    /\ pitchDir d = 0 /\ prevented d = true)
    as (d & Hd & Hz & Hb & Hp & Hpd).
  { unfold key_directions. rewrite Hshift.
    repeat (apply elem_of_cons in Hcode as [->|Hcode];
            [eexists; split; [reflexivity|]; split_and!; reflexivity|]).
    by apply elem_of_nil in Hcode. }
  destruct (onKeyDown_settles e ed w d Hatt Hwf Hidle Hmod Hd)
    as (w1 & w2 & H1 & H2 & H3 & H4 & H5 & H6).
  exists w1, w2. rewrite Hpd in H1. split_and!; try done.
  - rewrite H4, Hz. destruct (Req_dec_T 0 0) as [_|?]; [|done]. by apply arrive_same.
  - rewrite H6, Hp. unfold getPitch. apply arrive_same. lra.
  - intros Hrange. rewrite H5, Hb. unfold getBearing in *.
    replace (_ + 0 * bearingStep) with (bearing (transform (camera w))) by lra.
    by apply normalizeBearing_same.
Qed.

(** X27. An arrow key with the shift key does not pan and does not zoom: left and
    right turn the camera by 15 degrees, the bearing kept nearest to the one
    it had, and up and down change the pitch by 10 degrees, held within
    [[0, 60]].  The default action of the key is not prevented. *)
Theorem keyboard_shift_arrows e ed w :
  keeps_attitude E ->
  well_formed w ->
  isEasing w = false ->
  altKey e || ctrlKey e || metaKey e = false ->
  shiftKey e = true ->
  keyCode e ∈ [37; 38; 39; 40]%Z ->
  let turn := if decide (keyCode e = 37%Z) then -15
              else if decide (keyCode e = 39%Z) then 15 else 0 in
  let tilt := if decide (keyCode e = 38%Z) then 10
              else if decide (keyCode e = 40%Z) then -10 else 0 in
  exists w1 w2,
    _onKeyDown e ed w = (false, Ok w1)
    /\ settle w1 = Ok w2
    /\ isEasing w2 = false
    /\ getZoom w2 = getZoom w
    /\ getBearing w2 = _normalizeBearing (getBearing w + turn) (getBearing w)
    /\ getPitch w2 = arrive (getPitch w) (getPitch w + tilt) 0 60.
Proof.
  intros Hatt Hwf Hidle Hmod Hshift Hcode turn tilt.
  assert (exists d, key_directions e = Some d /\ zoomDir d = 0
                    /\ bearingDir d * bearingStep = turn
                    /\ pitchDir d * pitchStep = tilt /\ prevented d = false)
    as (d & Hd & Hz & Hb & Hp & Hpd).
  { unfold key_directions, turn, tilt, bearingStep, pitchStep. rewrite Hshift.
    repeat (apply elem_of_cons in Hcode as [->|Hcode];
            [eexists; split; [reflexivity|]; cbn [zoomDir bearingDir pitchDir prevented];
             split_and!; try reflexivity; repeat case_decide; try done; lra|]).
    by apply elem_of_nil in Hcode. }
  destruct (onKeyDown_settles e ed w d Hatt Hwf Hidle Hmod Hd)
    as (w1 & w2 & H1 & H2 & H3 & H4 & H5 & H6).
  exists w1, w2. rewrite Hpd in H1. split_and!; try done.
  - rewrite H4, Hz. destruct (Req_dec_T 0 0) as [_|?]; [|done]. by apply arrive_same.
  - by rewrite H5, Hb.
  - by rewrite H6, Hp.
Qed.

(** X28. A double click zooms by one level, in with no shift key and out with
    it, held within the zoom range, when the default easing [util.ease] ends
    at 1.  The bearing and the pitch stay as they are. *)
Theorem double_click_zooms shift lngLat ed w :
  keeps_attitude E ->
  ease 1 = 1 ->
  well_formed w ->
  isEasing w = false ->
  exists w1 w2,
    _onDblClick shift lngLat ed w = Ok w1
    /\ settle w1 = Ok w2
    /\ isEasing w2 = false
    /\ getZoom w2 = clamp (getZoom w + (if shift then -1 else 1))
                          (minZoom (transform (camera w))) (maxZoom (transform (camera w)))
    /\ getBearing w2 = getBearing w
    /\ getPitch w2 = getPitch w.
Proof.
  intros Hatt Hease Hwf Hidle.
  destruct (CameraMethodsFacts.idle_camera w Hwf Hidle) as (Ha & Hlive & Hfresh).
  unfold _onDblClick, zoomTo.
  match goal with
  | |- context [easeTo ?o ed w] =>
      destruct (CameraMethodsFacts.easeTo_settles o ed w Hatt Ha Hlive Hfresh eq_refl)
        as (w1 & w2 & H1 & H2 & H3 & H4 & H5 & H6)
  end.
  { exact Hease. }
  exists w1, w2. split_and!; try done.
  - unfold isEasing. rewrite H3. apply bool_decide_eq_false. by intros [? ?].
  - rewrite H4. cbn [extend_zoom around_at o_zoom default]. unfold getZoom.
    apply arrive_other. destruct shift; cbn; lra.
  - rewrite H6. cbn [extend_zoom around_at o_pitch default]. by apply arrive_same.
Qed.

End Keys.

Lemma keyboard_zoom_witness :
  exists w1 w2 (n : Z),
    _onKeyDown (E := sample_env) (key true 107) "keydown" world0 = (false, Ok w1)
    /\ settle (E := sample_env) w1 = Ok w2
    /\ isEasing w2 = false
    /\ IZR n - / 2 <= getZoom world0 < IZR n + / 2
    /\ getZoom w2 = arrive (getZoom world0) (IZR n + 1 * 2)
                      (minZoom (transform (camera world0)))
                      (maxZoom (transform (camera world0)))
    /\ getPitch w2 = getPitch world0.
Proof.
  apply (keyboard_zoom (E := sample_env) (key true 107) "keydown" world0
           CameraMethodsFacts.sample_keeps_attitude CameraFacts.world0_well_formed
           eq_refl eq_refl).
  apply (bool_decide_unpack _). vm_compute. exact I.
Defined.

Lemma keyboard_arrows_pan_witness :
  exists w1 w2,
    _onKeyDown (E := sample_env) (key false 37) "keydown" world0 = (true, Ok w1)
    /\ settle (E := sample_env) w1 = Ok w2
    /\ isEasing w2 = false
    /\ getZoom w2 = getZoom world0
    /\ getPitch w2 = getPitch world0
    /\ (-180 <= getBearing world0 < 180 -> getBearing w2 = getBearing world0).
Proof.
  apply (keyboard_arrows_pan (E := sample_env) (key false 37) "keydown" world0
           CameraMethodsFacts.sample_keeps_attitude CameraFacts.world0_well_formed
           eq_refl eq_refl eq_refl).
  apply (bool_decide_unpack _). vm_compute. exact I.
Defined.

Lemma keyboard_shift_arrows_witness :
  exists w1 w2,
    _onKeyDown (E := sample_env) (key true 39) "keydown" world0 = (false, Ok w1)
    /\ settle (E := sample_env) w1 = Ok w2
    /\ isEasing w2 = false
    /\ getZoom w2 = getZoom world0
    /\ getBearing w2 = _normalizeBearing (getBearing world0 + 15) (getBearing world0)
    /\ getPitch w2 = arrive (getPitch world0) (getPitch world0 + 0) 0 60.
Proof.
  apply (keyboard_shift_arrows (E := sample_env) (key true 39) "keydown" world0
           CameraMethodsFacts.sample_keeps_attitude CameraFacts.world0_well_formed
           eq_refl eq_refl eq_refl).
  apply (bool_decide_unpack _). vm_compute. exact I.
Defined.

Lemma double_click_zooms_witness :
  exists w1 w2,
    _onDblClick (E := sample_env) false (mkLngLat 10 20) "dblclick" world0 = Ok w1
    /\ settle (E := sample_env) w1 = Ok w2
    /\ isEasing w2 = false
    /\ getZoom w2 = clamp (getZoom world0 + 1)
                          (minZoom (transform (camera world0)))
                          (maxZoom (transform (camera world0)))
    /\ getBearing w2 = getBearing world0
    /\ getPitch w2 = getPitch world0.
Proof.
  exact (double_click_zooms (E := sample_env) false (mkLngLat 10 20) "dblclick" world0
           CameraMethodsFacts.sample_keeps_attitude eq_refl
           CameraFacts.world0_well_formed eq_refl).
Defined.

End HandlersFacts.
